(** * ParamMetaData: parameter metadata and value/string conversion

    A shallow embedding of [include/sst/basic-blocks/params/ParamMetadata.h].

    Numbers are modelled as the code has them.  A C++ [float] is an IEEE-754
    binary32 value and a [double] a binary64 value, both carried by
    [spec_float] of the Standard Library with the operations of [SpecFloat]
    instantiated at (prec, emax) = (24, 128) and (53, 1024).  Every implicit
    conversion the C++ expressions perform (float to double when one operand
    is a double literal, double to float on assignment, int to float) is
    written out.  Expressions are evaluated in the type the language gives
    them (FLT_EVAL_METHOD = 0), without fused multiply-add contraction.

    [assert], exceptions and undefined behaviour are explicit outcomes of a
    small error monad.  What the header takes from outside the repository
    (std::stof, pow, powf, log2, and whether NDEBUG is defined) is the
    environment [Env] the functions are parameterised by.

    The properties of the Int and Float mappings that hold on ranges of
    every size rest on the rounding of [SpecFloat], related here to the
    rational numbers: a value, the rounding of a positive rational to a
    format, and the error of each operation. *)

From Stdlib Require Import ZArith QArith Qround Qabs Qpower.
From Stdlib Require Import List Bool String Ascii Lia Lqa.
From Stdlib Require Import DecimalString.
From Stdlib Require Import Floats.SpecFloat.
Import ListNotations.

Local Open Scope string_scope.
Local Open Scope Z_scope.

(* ================================================================== *)
(** ** IEEE-754 arithmetic of [float] and [double] *)

Module IEEE.

(** C++ [float]: binary32. *)
Definition float := spec_float.
(** C++ [double]: binary64. *)
Definition double := spec_float.

Definition fadd : float -> float -> float := SFadd 24 128.
Definition fsub : float -> float -> float := SFsub 24 128.
Definition fmul : float -> float -> float := SFmul 24 128.
Definition fdiv : float -> float -> float := SFdiv 24 128.

Definition dadd : double -> double -> double := SFadd 53 1024.
Definition dsub : double -> double -> double := SFsub 53 1024.
Definition dmul : double -> double -> double := SFmul 53 1024.
Definition ddiv : double -> double -> double := SFdiv 53 1024.

Definition neg (x : spec_float) : spec_float := SFopp x.
Definition fabs (x : spec_float) : spec_float := SFabs x.

(** Comparisons; every one is false when an operand is NaN, so [ne] is
    the negation of [eq] and true on NaN, as [!=] of C++. *)
Definition lt (x y : spec_float) : bool := SFltb x y.
Definition le (x y : spec_float) : bool := SFleb x y.
Definition gt (x y : spec_float) : bool := SFltb y x.
Definition ge (x y : spec_float) : bool := SFleb y x.
Definition eq (x y : spec_float) : bool := SFeqb x y.
Definition ne (x y : spec_float) : bool := negb (SFeqb x y).

(** float -> double, exact. *)
Definition promote (x : float) : double :=
  match x with
  | S754_finite s m e => binary_round 53 1024 s m e
  | _ => x
  end.

(** double -> float, round to nearest, ties to even. *)
Definition demote (x : double) : float :=
  match x with
  | S754_finite s m e => binary_round 24 128 s m e
  | _ => x
  end.

(** int -> float and int -> double. *)
Definition f_of_int (z : Z) : float := binary_normalize 24 128 z 0 false.
Definition d_of_int (z : Z) : double := binary_normalize 53 1024 z 0 false.

(** The double nearest to the decimal literal [n / d]. *)
Definition d_lit (n d : Z) : double := ddiv (d_of_int n) (d_of_int d).
(** The float nearest to the decimal literal [n / d] (suffix f). *)
Definition f_lit (n d : Z) : float := fdiv (f_of_int n) (f_of_int d).

(** Integer part of a finite value, rounded toward zero. *)
Definition trunc_Z (s : bool) (m : positive) (e : Z) : Z :=
  let a := match e with
           | Zneg k => Z.shiftr (Zpos m) (Zpos k)
           | _ => Z.shiftl (Zpos m) e
           end in
  if s then - a else a.

(** Largest integer not above a finite value. *)
Definition floor_Z (s : bool) (m : positive) (e : Z) : Z :=
  match e with
  | Zneg k =>
      if s then - ((Zpos m + 2 ^ Zpos k - 1) / 2 ^ Zpos k)
      else Zpos m / 2 ^ Zpos k
  | _ => if s then - Z.shiftl (Zpos m) e else Z.shiftl (Zpos m) e
  end.

(** Nearest integer to a finite value, halfway cases away from zero. *)
Definition round_Z (s : bool) (m : positive) (e : Z) : Z :=
  let a := match e with
           | Zneg k => (2 * Zpos m + 2 ^ Zpos k) / (2 * 2 ^ Zpos k)
           | _ => Z.shiftl (Zpos m) e
           end in
  if s then - a else a.

Definition INT_MIN : Z := - 2 ^ 31.
Definition INT_MAX : Z := 2 ^ 31 - 1.

(** The cast [(int)x]: defined only when the truncated value fits [int];
    [None] stands for the undefined cases (NaN, infinities, overflow). *)
Definition to_int (x : spec_float) : option Z :=
  match x with
  | S754_zero _ => Some 0
  | S754_finite s m e =>
      let z := trunc_Z s m e in
      if (INT_MIN <=? z) && (z <=? INT_MAX) then Some z else None
  | _ => None
  end.

(** [floor] on doubles. *)
Definition floor (x : double) : double :=
  match x with
  | S754_finite s m e => binary_normalize 53 1024 (floor_Z s m e) 0 s
  | _ => x
  end.

(** [std::round] on floats. *)
Definition roundf (x : float) : float :=
  match x with
  | S754_finite s m e => binary_normalize 24 128 (round_Z s m e) 0 s
  | _ => x
  end.

(** [modff f &a]: the pair (integral part [a], fractional part), both
    with the sign of [f]. *)
Definition modff (f : float) : float * float :=
  match f with
  | S754_finite s m e =>
      let a := binary_normalize 24 128 (trunc_Z s m e) 0 s in
      let b := match fsub f a with
               | S754_zero _ => S754_zero s
               | r => r
               end in
      (a, b)
  | S754_infinity s => (f, S754_zero s)
  | _ => (f, f)
  end.

(** [std::clamp v lo hi], i.e. [min (max v lo) hi] with [<]. *)
Definition clamp (v lo hi : spec_float) : spec_float :=
  let a := if lt v lo then lo else v in
  if lt hi a then hi else a.

Definition is_nan (x : spec_float) : bool :=
  match x with S754_nan => true | _ => false end.

End IEEE.

Import IEEE.

(* ================================================================== *)
(** ** Outcomes of a call

    A call either returns, or ends in one of three ways the header can
    reach: a failed [assert] (the process aborts), a [std::exception]
    (the [fmt::format_error] of the formatting library, the
    [std::invalid_argument] and [std::out_of_range] of [std::stof]), or an
    operation whose behaviour C++ leaves undefined (a float-to-int cast
    of a value that does not fit). *)

Inductive failure : Type :=
| AssertionFailed
| StdException
| UndefinedBehaviour.

Inductive result (A : Type) : Type :=
| Ok (a : A)
| Fail (f : failure).

Arguments Ok {A} a.
Arguments Fail {A} f.

Definition ret {A : Type} (a : A) : result A := Ok a.

Definition bind {A B : Type} (r : result A) (k : A -> result B) : result B :=
  match r with
  | Ok a => k a
  | Fail f => Fail f
  end.

Notation "x <- e ;; k" := (bind e (fun x => k))
  (at level 61, e at next level, right associativity).
Notation "e ;;; k" := (bind e (fun _ => k))
  (at level 61, right associativity).

(** [assert(c)]: compiled out when NDEBUG is defined. *)
Definition assert_ (ndebug c : bool) : result Datatypes.unit :=
  if ndebug || c then Ok tt else Fail AssertionFailed.

(** [try { body } catch (const std::exception &) { handler }] *)
Definition try_catch {A : Type} (body handler : result A) : result A :=
  match body with
  | Fail StdException => handler
  | r => r
  end.

(** The cast [(int)x] as a step that may be undefined. *)
Definition cast_int (x : spec_float) : result Z :=
  match to_int x with
  | Some z => Ok z
  | None => Fail UndefinedBehaviour
  end.

(* ================================================================== *)
(** ** Text formatting: the format specifications the header uses *)

Module Fmt.

(** Decimal digits of an [int], as [%d] and [{}] print it. *)
Definition dec (z : Z) : string :=
  match z with
  | Zneg p => "-" ++ NilZero.string_of_uint (Pos.to_uint p)
  | _ => NilZero.string_of_uint (N.to_uint (Z.to_N z))
  end.

Fixpoint zeros (n : nat) : string :=
  match n with
  | O => ""
  | S k => String "0" (zeros k)
  end.

(** The integer nearest to [m * 2^e * 10^dp], ties to even. *)
Definition scaled (m : positive) (e dp : Z) : Z :=
  let num := Zpos m * 10 ^ dp in
  match e with
  | Zneg k =>
      let den := 2 ^ Zpos k in
      let q := num / den in
      match 2 * (num mod den) ?= den with
      | Lt => q
      | Eq => if Z.even q then q else q + 1
      | Gt => q + 1
      end
  | _ => num * 2 ^ e
  end.

(** Put the decimal point [dp] digits from the right. *)
Definition point (digits : string) (dp : nat) : string :=
  match dp with
  | O => digits
  | _ =>
      let d := zeros (S dp - String.length digits) ++ digits in
      let k := (String.length d - dp)%nat in
      substring 0 k d ++ "." ++ substring k dp d
  end.

Definition sign (s : bool) : string := if s then "-" else "".

(** [{:.{}f}] with a non-negative precision: the exact value, rounded to
    [dp] decimals. *)
Definition fixed (x : spec_float) (dp : Z) : string :=
  match x with
  | S754_nan => "nan"
  | S754_infinity s => sign s ++ "inf"
  | S754_zero s => sign s ++ point "0" (Z.to_nat dp)
  | S754_finite s m e =>
      sign s ++ point (dec (scaled m e dp)) (Z.to_nat dp)
  end.

(** [fmt::format("{:.{}f}", x, dp)]: a negative dynamic precision is a
    [format_error]. *)
Definition format_f (x : spec_float) (dp : Z) : result string :=
  if dp <? 0 then Fail StdException else Ok (fixed x dp).

End Fmt.

(* ================================================================== *)
(** ** What the header takes from its environment *)

Record Env : Type := {
  (** is NDEBUG defined, i.e. are the [assert]s compiled out *)
  NDEBUG : bool;
  (** [std::stof]; [None] when it throws ([std::invalid_argument],
      [std::out_of_range]) *)
  stof : string -> option float;
  (** [pow] of <cmath> on doubles *)
  pow : double -> double -> double;
  (** [std::pow] on two floats *)
  powf : float -> float -> float;
  (** [log2] of <cmath> on doubles *)
  log2 : double -> double;
  (** [fmt::format("{}", x)] of a float: its shortest decimal form *)
  fmt_default : float -> string
}.

(* ================================================================== *)
(** ** Data model *)

(** [ParamMetaData::Type] *)
Inductive Type_ : Type := FLOAT | INT | BOOL | NONE.

(** [ParamMetaData::DisplayScale] *)
Inductive DisplayScale : Type :=
| LINEAR
| A_TWO_TO_THE_B
| DECIBEL
| UNORDERED_MAP
| USER_PROVIDED.

Definition Type_eqb (a b : Type_) : bool :=
  match a, b with
  | FLOAT, FLOAT | INT, INT | BOOL, BOOL | NONE, NONE => true
  | _, _ => false
  end.

(** [ParamMetaData::FeatureState] *)
Record FeatureState : Type := {
  isHighPrecision : bool;
  isExtended : bool;
  isAbsolute : bool;
  isTemposynced : bool
}.

(** [FeatureState(){}] with the member initialisers. *)
Definition FeatureState_default : FeatureState :=
  {| isHighPrecision := false; isExtended := false;
     isAbsolute := false; isTemposynced := false |}.

(** [ParamMetaData::ModulationDisplay] *)
Record ModulationDisplay : Type := {
  value : string;
  summary : string;
  baseValue : string;
  valUp : string;
  valDown : string;
  changeUp : string;
  changeDown : string
}.

(** [struct ParamMetaData]; [discreteValues] is the
    [std::unordered_map<int, std::string>] as a key/value list with unique
    keys. *)
Record ParamMetaData : Type := {
  type : Type_;
  name : string;
  minVal : float;
  maxVal : float;
  defaultVal : float;
  canExtend : bool;
  canDeform : bool;
  canAbsolute : bool;
  canTemposync : bool;
  canDeactivate : bool;
  deformationCount : Z;
  supportsStringConversion : bool;
  displayScale : DisplayScale;
  unit : string;
  customMinDisplay : string;
  customMaxDisplay : string;
  customDefaultDisplay : string;
  discreteValues : list (Z * string);
  decimalPlaces : Z;
  svA : float;
  svB : float;
  svC : float;
  svD : float;
  exA : float;
  exB : float
}.

Definition f0 : float := S754_zero false.
Definition f1 : float := Eval vm_compute in f_of_int 1.

(** [ParamMetaData() = default] with the member initialisers. *)
Definition ParamMetaData_default : ParamMetaData :=
  {| type := FLOAT; name := "";
     minVal := f0; maxVal := f1; defaultVal := f0;
     canExtend := false; canDeform := false; canAbsolute := false;
     canTemposync := false; canDeactivate := false;
     deformationCount := 0;
     supportsStringConversion := false;
     displayScale := LINEAR;
     unit := ""; customMinDisplay := ""; customMaxDisplay := "";
     customDefaultDisplay := "";
     discreteValues := [];
     decimalPlaces := 2;
     svA := f0; svB := f0; svC := f0; svD := f0;
     exA := f1; exB := f0 |}.

(** Member assignment [res.field = v], one function per field. *)

Definition set_type (v : Type_) (p : ParamMetaData) : ParamMetaData :=
  {| type := v; name := name p; minVal := minVal p; maxVal := maxVal p;
     defaultVal := defaultVal p; canExtend := canExtend p;
     canDeform := canDeform p; canAbsolute := canAbsolute p;
     canTemposync := canTemposync p; canDeactivate := canDeactivate p;
     deformationCount := deformationCount p;
     supportsStringConversion := supportsStringConversion p;
     displayScale := displayScale p; unit := unit p;
     customMinDisplay := customMinDisplay p;
     customMaxDisplay := customMaxDisplay p;
     customDefaultDisplay := customDefaultDisplay p;
     discreteValues := discreteValues p; decimalPlaces := decimalPlaces p;
     svA := svA p; svB := svB p; svC := svC p; svD := svD p; exA := exA p;
     exB := exB p |}.

Definition set_name (v : string) (p : ParamMetaData) : ParamMetaData :=
  {| type := type p; name := v; minVal := minVal p; maxVal := maxVal p;
     defaultVal := defaultVal p; canExtend := canExtend p;
     canDeform := canDeform p; canAbsolute := canAbsolute p;
     canTemposync := canTemposync p; canDeactivate := canDeactivate p;
     deformationCount := deformationCount p;
     supportsStringConversion := supportsStringConversion p;
     displayScale := displayScale p; unit := unit p;
     customMinDisplay := customMinDisplay p;
     customMaxDisplay := customMaxDisplay p;
     customDefaultDisplay := customDefaultDisplay p;
     discreteValues := discreteValues p; decimalPlaces := decimalPlaces p;
     svA := svA p; svB := svB p; svC := svC p; svD := svD p; exA := exA p;
     exB := exB p |}.

Definition set_minVal (v : float) (p : ParamMetaData) : ParamMetaData :=
  {| type := type p; name := name p; minVal := v; maxVal := maxVal p;
     defaultVal := defaultVal p; canExtend := canExtend p;
     canDeform := canDeform p; canAbsolute := canAbsolute p;
     canTemposync := canTemposync p; canDeactivate := canDeactivate p;
     deformationCount := deformationCount p;
     supportsStringConversion := supportsStringConversion p;
     displayScale := displayScale p; unit := unit p;
     customMinDisplay := customMinDisplay p;
     customMaxDisplay := customMaxDisplay p;
     customDefaultDisplay := customDefaultDisplay p;
     discreteValues := discreteValues p; decimalPlaces := decimalPlaces p;
     svA := svA p; svB := svB p; svC := svC p; svD := svD p; exA := exA p;
     exB := exB p |}.

Definition set_maxVal (v : float) (p : ParamMetaData) : ParamMetaData :=
  {| type := type p; name := name p; minVal := minVal p; maxVal := v;
     defaultVal := defaultVal p; canExtend := canExtend p;
     canDeform := canDeform p; canAbsolute := canAbsolute p;
     canTemposync := canTemposync p; canDeactivate := canDeactivate p;
     deformationCount := deformationCount p;
     supportsStringConversion := supportsStringConversion p;
     displayScale := displayScale p; unit := unit p;
     customMinDisplay := customMinDisplay p;
     customMaxDisplay := customMaxDisplay p;
     customDefaultDisplay := customDefaultDisplay p;
     discreteValues := discreteValues p; decimalPlaces := decimalPlaces p;
     svA := svA p; svB := svB p; svC := svC p; svD := svD p; exA := exA p;
     exB := exB p |}.

Definition set_defaultVal (v : float) (p : ParamMetaData) : ParamMetaData :=
  {| type := type p; name := name p; minVal := minVal p; maxVal := maxVal p;
     defaultVal := v; canExtend := canExtend p; canDeform := canDeform p;
     canAbsolute := canAbsolute p; canTemposync := canTemposync p;
     canDeactivate := canDeactivate p;
     deformationCount := deformationCount p;
     supportsStringConversion := supportsStringConversion p;
     displayScale := displayScale p; unit := unit p;
     customMinDisplay := customMinDisplay p;
     customMaxDisplay := customMaxDisplay p;
     customDefaultDisplay := customDefaultDisplay p;
     discreteValues := discreteValues p; decimalPlaces := decimalPlaces p;
     svA := svA p; svB := svB p; svC := svC p; svD := svD p; exA := exA p;
     exB := exB p |}.

Definition set_canExtend (v : bool) (p : ParamMetaData) : ParamMetaData :=
  {| type := type p; name := name p; minVal := minVal p; maxVal := maxVal p;
     defaultVal := defaultVal p; canExtend := v; canDeform := canDeform p;
     canAbsolute := canAbsolute p; canTemposync := canTemposync p;
     canDeactivate := canDeactivate p;
     deformationCount := deformationCount p;
     supportsStringConversion := supportsStringConversion p;
     displayScale := displayScale p; unit := unit p;
     customMinDisplay := customMinDisplay p;
     customMaxDisplay := customMaxDisplay p;
     customDefaultDisplay := customDefaultDisplay p;
     discreteValues := discreteValues p; decimalPlaces := decimalPlaces p;
     svA := svA p; svB := svB p; svC := svC p; svD := svD p; exA := exA p;
     exB := exB p |}.

Definition set_canDeform (v : bool) (p : ParamMetaData) : ParamMetaData :=
  {| type := type p; name := name p; minVal := minVal p; maxVal := maxVal p;
     defaultVal := defaultVal p; canExtend := canExtend p; canDeform := v;
     canAbsolute := canAbsolute p; canTemposync := canTemposync p;
     canDeactivate := canDeactivate p;
     deformationCount := deformationCount p;
     supportsStringConversion := supportsStringConversion p;
     displayScale := displayScale p; unit := unit p;
     customMinDisplay := customMinDisplay p;
     customMaxDisplay := customMaxDisplay p;
     customDefaultDisplay := customDefaultDisplay p;
     discreteValues := discreteValues p; decimalPlaces := decimalPlaces p;
     svA := svA p; svB := svB p; svC := svC p; svD := svD p; exA := exA p;
     exB := exB p |}.

Definition set_canAbsolute (v : bool) (p : ParamMetaData) : ParamMetaData :=
  {| type := type p; name := name p; minVal := minVal p; maxVal := maxVal p;
     defaultVal := defaultVal p; canExtend := canExtend p;
     canDeform := canDeform p; canAbsolute := v;
     canTemposync := canTemposync p; canDeactivate := canDeactivate p;
     deformationCount := deformationCount p;
     supportsStringConversion := supportsStringConversion p;
     displayScale := displayScale p; unit := unit p;
     customMinDisplay := customMinDisplay p;
     customMaxDisplay := customMaxDisplay p;
     customDefaultDisplay := customDefaultDisplay p;
     discreteValues := discreteValues p; decimalPlaces := decimalPlaces p;
     svA := svA p; svB := svB p; svC := svC p; svD := svD p; exA := exA p;
     exB := exB p |}.

Definition set_canTemposync (v : bool) (p : ParamMetaData) : ParamMetaData :=
  {| type := type p; name := name p; minVal := minVal p; maxVal := maxVal p;
     defaultVal := defaultVal p; canExtend := canExtend p;
     canDeform := canDeform p; canAbsolute := canAbsolute p;
     canTemposync := v; canDeactivate := canDeactivate p;
     deformationCount := deformationCount p;
     supportsStringConversion := supportsStringConversion p;
     displayScale := displayScale p; unit := unit p;
     customMinDisplay := customMinDisplay p;
     customMaxDisplay := customMaxDisplay p;
     customDefaultDisplay := customDefaultDisplay p;
     discreteValues := discreteValues p; decimalPlaces := decimalPlaces p;
     svA := svA p; svB := svB p; svC := svC p; svD := svD p; exA := exA p;
     exB := exB p |}.

Definition set_canDeactivate (v : bool) (p : ParamMetaData) : ParamMetaData :=
  {| type := type p; name := name p; minVal := minVal p; maxVal := maxVal p;
     defaultVal := defaultVal p; canExtend := canExtend p;
     canDeform := canDeform p; canAbsolute := canAbsolute p;
     canTemposync := canTemposync p; canDeactivate := v;
     deformationCount := deformationCount p;
     supportsStringConversion := supportsStringConversion p;
     displayScale := displayScale p; unit := unit p;
     customMinDisplay := customMinDisplay p;
     customMaxDisplay := customMaxDisplay p;
     customDefaultDisplay := customDefaultDisplay p;
     discreteValues := discreteValues p; decimalPlaces := decimalPlaces p;
     svA := svA p; svB := svB p; svC := svC p; svD := svD p; exA := exA p;
     exB := exB p |}.

Definition set_deformationCount (v : Z) (p : ParamMetaData) : ParamMetaData :=
  {| type := type p; name := name p; minVal := minVal p; maxVal := maxVal p;
     defaultVal := defaultVal p; canExtend := canExtend p;
     canDeform := canDeform p; canAbsolute := canAbsolute p;
     canTemposync := canTemposync p; canDeactivate := canDeactivate p;
     deformationCount := v;
     supportsStringConversion := supportsStringConversion p;
     displayScale := displayScale p; unit := unit p;
     customMinDisplay := customMinDisplay p;
     customMaxDisplay := customMaxDisplay p;
     customDefaultDisplay := customDefaultDisplay p;
     discreteValues := discreteValues p; decimalPlaces := decimalPlaces p;
     svA := svA p; svB := svB p; svC := svC p; svD := svD p; exA := exA p;
     exB := exB p |}.

Definition set_supportsStringConversion (v : bool) (p : ParamMetaData) : ParamMetaData :=
  {| type := type p; name := name p; minVal := minVal p; maxVal := maxVal p;
     defaultVal := defaultVal p; canExtend := canExtend p;
     canDeform := canDeform p; canAbsolute := canAbsolute p;
     canTemposync := canTemposync p; canDeactivate := canDeactivate p;
     deformationCount := deformationCount p; supportsStringConversion := v;
     displayScale := displayScale p; unit := unit p;
     customMinDisplay := customMinDisplay p;
     customMaxDisplay := customMaxDisplay p;
     customDefaultDisplay := customDefaultDisplay p;
     discreteValues := discreteValues p; decimalPlaces := decimalPlaces p;
     svA := svA p; svB := svB p; svC := svC p; svD := svD p; exA := exA p;
     exB := exB p |}.

Definition set_displayScale (v : DisplayScale) (p : ParamMetaData) : ParamMetaData :=
  {| type := type p; name := name p; minVal := minVal p; maxVal := maxVal p;
     defaultVal := defaultVal p; canExtend := canExtend p;
     canDeform := canDeform p; canAbsolute := canAbsolute p;
     canTemposync := canTemposync p; canDeactivate := canDeactivate p;
     deformationCount := deformationCount p;
     supportsStringConversion := supportsStringConversion p;
     displayScale := v; unit := unit p;
     customMinDisplay := customMinDisplay p;
     customMaxDisplay := customMaxDisplay p;
     customDefaultDisplay := customDefaultDisplay p;
     discreteValues := discreteValues p; decimalPlaces := decimalPlaces p;
     svA := svA p; svB := svB p; svC := svC p; svD := svD p; exA := exA p;
     exB := exB p |}.

Definition set_unit (v : string) (p : ParamMetaData) : ParamMetaData :=
  {| type := type p; name := name p; minVal := minVal p; maxVal := maxVal p;
     defaultVal := defaultVal p; canExtend := canExtend p;
     canDeform := canDeform p; canAbsolute := canAbsolute p;
     canTemposync := canTemposync p; canDeactivate := canDeactivate p;
     deformationCount := deformationCount p;
     supportsStringConversion := supportsStringConversion p;
     displayScale := displayScale p; unit := v;
     customMinDisplay := customMinDisplay p;
     customMaxDisplay := customMaxDisplay p;
     customDefaultDisplay := customDefaultDisplay p;
     discreteValues := discreteValues p; decimalPlaces := decimalPlaces p;
     svA := svA p; svB := svB p; svC := svC p; svD := svD p; exA := exA p;
     exB := exB p |}.

Definition set_customMinDisplay (v : string) (p : ParamMetaData) : ParamMetaData :=
  {| type := type p; name := name p; minVal := minVal p; maxVal := maxVal p;
     defaultVal := defaultVal p; canExtend := canExtend p;
     canDeform := canDeform p; canAbsolute := canAbsolute p;
     canTemposync := canTemposync p; canDeactivate := canDeactivate p;
     deformationCount := deformationCount p;
     supportsStringConversion := supportsStringConversion p;
     displayScale := displayScale p; unit := unit p; customMinDisplay := v;
     customMaxDisplay := customMaxDisplay p;
     customDefaultDisplay := customDefaultDisplay p;
     discreteValues := discreteValues p; decimalPlaces := decimalPlaces p;
     svA := svA p; svB := svB p; svC := svC p; svD := svD p; exA := exA p;
     exB := exB p |}.

Definition set_customMaxDisplay (v : string) (p : ParamMetaData) : ParamMetaData :=
  {| type := type p; name := name p; minVal := minVal p; maxVal := maxVal p;
     defaultVal := defaultVal p; canExtend := canExtend p;
     canDeform := canDeform p; canAbsolute := canAbsolute p;
     canTemposync := canTemposync p; canDeactivate := canDeactivate p;
     deformationCount := deformationCount p;
     supportsStringConversion := supportsStringConversion p;
     displayScale := displayScale p; unit := unit p;
     customMinDisplay := customMinDisplay p; customMaxDisplay := v;
     customDefaultDisplay := customDefaultDisplay p;
     discreteValues := discreteValues p; decimalPlaces := decimalPlaces p;
     svA := svA p; svB := svB p; svC := svC p; svD := svD p; exA := exA p;
     exB := exB p |}.

Definition set_customDefaultDisplay (v : string) (p : ParamMetaData) : ParamMetaData :=
  {| type := type p; name := name p; minVal := minVal p; maxVal := maxVal p;
     defaultVal := defaultVal p; canExtend := canExtend p;
     canDeform := canDeform p; canAbsolute := canAbsolute p;
     canTemposync := canTemposync p; canDeactivate := canDeactivate p;
     deformationCount := deformationCount p;
     supportsStringConversion := supportsStringConversion p;
     displayScale := displayScale p; unit := unit p;
     customMinDisplay := customMinDisplay p;
     customMaxDisplay := customMaxDisplay p; customDefaultDisplay := v;
     discreteValues := discreteValues p; decimalPlaces := decimalPlaces p;
     svA := svA p; svB := svB p; svC := svC p; svD := svD p; exA := exA p;
     exB := exB p |}.

Definition set_discreteValues (v : list (Z * string)) (p : ParamMetaData) : ParamMetaData :=
  {| type := type p; name := name p; minVal := minVal p; maxVal := maxVal p;
     defaultVal := defaultVal p; canExtend := canExtend p;
     canDeform := canDeform p; canAbsolute := canAbsolute p;
     canTemposync := canTemposync p; canDeactivate := canDeactivate p;
     deformationCount := deformationCount p;
     supportsStringConversion := supportsStringConversion p;
     displayScale := displayScale p; unit := unit p;
     customMinDisplay := customMinDisplay p;
     customMaxDisplay := customMaxDisplay p;
     customDefaultDisplay := customDefaultDisplay p; discreteValues := v;
     decimalPlaces := decimalPlaces p; svA := svA p; svB := svB p;
     svC := svC p; svD := svD p; exA := exA p; exB := exB p |}.

Definition set_decimalPlaces (v : Z) (p : ParamMetaData) : ParamMetaData :=
  {| type := type p; name := name p; minVal := minVal p; maxVal := maxVal p;
     defaultVal := defaultVal p; canExtend := canExtend p;
     canDeform := canDeform p; canAbsolute := canAbsolute p;
     canTemposync := canTemposync p; canDeactivate := canDeactivate p;
     deformationCount := deformationCount p;
     supportsStringConversion := supportsStringConversion p;
     displayScale := displayScale p; unit := unit p;
     customMinDisplay := customMinDisplay p;
     customMaxDisplay := customMaxDisplay p;
     customDefaultDisplay := customDefaultDisplay p;
     discreteValues := discreteValues p; decimalPlaces := v; svA := svA p;
     svB := svB p; svC := svC p; svD := svD p; exA := exA p; exB := exB p |}.

Definition set_svA (v : float) (p : ParamMetaData) : ParamMetaData :=
  {| type := type p; name := name p; minVal := minVal p; maxVal := maxVal p;
     defaultVal := defaultVal p; canExtend := canExtend p;
     canDeform := canDeform p; canAbsolute := canAbsolute p;
     canTemposync := canTemposync p; canDeactivate := canDeactivate p;
     deformationCount := deformationCount p;
     supportsStringConversion := supportsStringConversion p;
     displayScale := displayScale p; unit := unit p;
     customMinDisplay := customMinDisplay p;
     customMaxDisplay := customMaxDisplay p;
     customDefaultDisplay := customDefaultDisplay p;
     discreteValues := discreteValues p; decimalPlaces := decimalPlaces p;
     svA := v; svB := svB p; svC := svC p; svD := svD p; exA := exA p;
     exB := exB p |}.

Definition set_svB (v : float) (p : ParamMetaData) : ParamMetaData :=
  {| type := type p; name := name p; minVal := minVal p; maxVal := maxVal p;
     defaultVal := defaultVal p; canExtend := canExtend p;
     canDeform := canDeform p; canAbsolute := canAbsolute p;
     canTemposync := canTemposync p; canDeactivate := canDeactivate p;
     deformationCount := deformationCount p;
     supportsStringConversion := supportsStringConversion p;
     displayScale := displayScale p; unit := unit p;
     customMinDisplay := customMinDisplay p;
     customMaxDisplay := customMaxDisplay p;
     customDefaultDisplay := customDefaultDisplay p;
     discreteValues := discreteValues p; decimalPlaces := decimalPlaces p;
     svA := svA p; svB := v; svC := svC p; svD := svD p; exA := exA p;
     exB := exB p |}.

Definition set_svC (v : float) (p : ParamMetaData) : ParamMetaData :=
  {| type := type p; name := name p; minVal := minVal p; maxVal := maxVal p;
     defaultVal := defaultVal p; canExtend := canExtend p;
     canDeform := canDeform p; canAbsolute := canAbsolute p;
     canTemposync := canTemposync p; canDeactivate := canDeactivate p;
     deformationCount := deformationCount p;
     supportsStringConversion := supportsStringConversion p;
     displayScale := displayScale p; unit := unit p;
     customMinDisplay := customMinDisplay p;
     customMaxDisplay := customMaxDisplay p;
     customDefaultDisplay := customDefaultDisplay p;
     discreteValues := discreteValues p; decimalPlaces := decimalPlaces p;
     svA := svA p; svB := svB p; svC := v; svD := svD p; exA := exA p;
     exB := exB p |}.

Definition set_exA (v : float) (p : ParamMetaData) : ParamMetaData :=
  {| type := type p; name := name p; minVal := minVal p; maxVal := maxVal p;
     defaultVal := defaultVal p; canExtend := canExtend p;
     canDeform := canDeform p; canAbsolute := canAbsolute p;
     canTemposync := canTemposync p; canDeactivate := canDeactivate p;
     deformationCount := deformationCount p;
     supportsStringConversion := supportsStringConversion p;
     displayScale := displayScale p; unit := unit p;
     customMinDisplay := customMinDisplay p;
     customMaxDisplay := customMaxDisplay p;
     customDefaultDisplay := customDefaultDisplay p;
     discreteValues := discreteValues p; decimalPlaces := decimalPlaces p;
     svA := svA p; svB := svB p; svC := svC p; svD := svD p; exA := v;
     exB := exB p |}.

Definition set_exB (v : float) (p : ParamMetaData) : ParamMetaData :=
  {| type := type p; name := name p; minVal := minVal p; maxVal := maxVal p;
     defaultVal := defaultVal p; canExtend := canExtend p;
     canDeform := canDeform p; canAbsolute := canAbsolute p;
     canTemposync := canTemposync p; canDeactivate := canDeactivate p;
     deformationCount := deformationCount p;
     supportsStringConversion := supportsStringConversion p;
     displayScale := displayScale p; unit := unit p;
     customMinDisplay := customMinDisplay p;
     customMaxDisplay := customMaxDisplay p;
     customDefaultDisplay := customDefaultDisplay p;
     discreteValues := discreteValues p; decimalPlaces := decimalPlaces p;
     svA := svA p; svB := svB p; svC := svC p; svD := svD p; exA := exA p;
     exB := v |}.

Definition set_isHighPrecision (v : bool) (s : FeatureState) : FeatureState :=
  {| isHighPrecision := v; isExtended := isExtended s;
     isAbsolute := isAbsolute s; isTemposynced := isTemposynced s |}.

Definition set_isExtended (v : bool) (s : FeatureState) : FeatureState :=
  {| isHighPrecision := isHighPrecision s; isExtended := v;
     isAbsolute := isAbsolute s; isTemposynced := isTemposynced s |}.

Definition set_isAbsolute (v : bool) (s : FeatureState) : FeatureState :=
  {| isHighPrecision := isHighPrecision s; isExtended := isExtended s;
     isAbsolute := v; isTemposynced := isTemposynced s |}.

Definition set_isTemposynced (v : bool) (s : FeatureState) : FeatureState :=
  {| isHighPrecision := isHighPrecision s; isExtended := isExtended s;
     isAbsolute := isAbsolute s; isTemposynced := v |}.

(* ================================================================== *)
(** ** The configuration calls

    The "with..." members are not [const]: each is modelled as a function
    from the receiver [*this] and the arguments to the pair of the receiver
    after the call and the returned object. *)

Section Methods.

(** *** [FeatureState] *)

Definition withHighPrecision (this : FeatureState) (e : bool)
  : FeatureState * FeatureState :=
  let res := this in
  let res := set_isHighPrecision e res in
  (this, res).

Definition withExtended (this : FeatureState) (e : bool)
  : FeatureState * FeatureState :=
  let res := this in
  let res := set_isExtended e res in
  (this, res).

(** The assignment is to the member of [*this], not of [res]. *)
Definition withAbsolute (this : FeatureState) (e : bool)
  : FeatureState * FeatureState :=
  let res := this in
  let this := set_isAbsolute e this in
  (this, res).

Definition withTemposync (this : FeatureState) (e : bool)
  : FeatureState * FeatureState :=
  let res := this in
  let res := set_isTemposynced e res in
  (this, res).

(** *** [ParamMetaData] *)

Definition withType (this : ParamMetaData) (t : Type_)
  : ParamMetaData * ParamMetaData :=
  let res := this in
  let res := set_type t res in
  (this, res).

Definition withName (this : ParamMetaData) (t : string)
  : ParamMetaData * ParamMetaData :=
  let res := this in
  let res := set_name t res in
  (this, res).

(** The default is clamped to the range of the receiver, the one before
    the call. *)
Definition withRange (this : ParamMetaData) (mn mx : float)
  : ParamMetaData * ParamMetaData :=
  let res := this in
  let res := set_minVal mn res in
  let res := set_maxVal mx res in
  let res :=
    set_defaultVal (clamp (defaultVal this) (minVal this) (maxVal this))
      res in
  (this, res).

Definition withDefault (this : ParamMetaData) (t : float)
  : ParamMetaData * ParamMetaData :=
  let res := this in
  let res := set_defaultVal t res in
  (this, res).

Definition extendable (this : ParamMetaData) (b : bool)
  : ParamMetaData * ParamMetaData :=
  let res := this in
  let res := set_canExtend b res in
  (this, res).

Definition withExtendFactors (this : ParamMetaData) (A B : float)
  : ParamMetaData * ParamMetaData :=
  let res := this in
  let res := set_exA A res in
  let res := set_exB B res in
  (this, res).

Definition deformable (this : ParamMetaData) (b : bool)
  : ParamMetaData * ParamMetaData :=
  let res := this in
  let res := set_canDeform b res in
  (this, res).

Definition withDeformationCount (this : ParamMetaData) (c : Z)
  : ParamMetaData * ParamMetaData :=
  let res := this in
  let res := set_deformationCount c res in
  (this, res).

Definition absolutable (this : ParamMetaData) (b : bool)
  : ParamMetaData * ParamMetaData :=
  let res := this in
  let res := set_canAbsolute b res in
  (this, res).

Definition temposyncable (this : ParamMetaData) (b : bool)
  : ParamMetaData * ParamMetaData :=
  let res := this in
  let res := set_canTemposync b res in
  (this, res).

Definition deactivatable (this : ParamMetaData) (b : bool)
  : ParamMetaData * ParamMetaData :=
  let res := this in
  let res := set_canDeactivate b res in
  (this, res).

Definition withATwoToTheBPlusCFormatting (this : ParamMetaData)
    (A B C : float) (units : string) : ParamMetaData * ParamMetaData :=
  let res := this in
  let res := set_svA A res in
  let res := set_svB B res in
  let res := set_svC C res in
  let res := set_unit units res in
  let res := set_displayScale A_TWO_TO_THE_B res in
  let res := set_supportsStringConversion true res in
  (this, res).

Definition withATwoToTheBFormatting (this : ParamMetaData)
    (A B : float) (units : string) : ParamMetaData * ParamMetaData :=
  withATwoToTheBPlusCFormatting this A B f0 units.

(** [1.0 / 12.0] is a double, converted to the float parameter. *)
Definition withSemitoneZeroAt400Formatting (this : ParamMetaData)
  : ParamMetaData * ParamMetaData :=
  withATwoToTheBFormatting this (f_of_int 440)
    (demote (ddiv (d_of_int 1) (d_of_int 12))) "Hz".

Definition withLog2SecondsFormatting (this : ParamMetaData)
  : ParamMetaData * ParamMetaData :=
  withATwoToTheBFormatting this (f_of_int 1) (f_of_int 1) "s".

Definition withLinearScaleFormatting (this : ParamMetaData)
    (units : string) (scale : float) : ParamMetaData * ParamMetaData :=
  let res := this in
  let res := set_svA scale res in
  let res := set_unit units res in
  let res := set_displayScale LINEAR res in
  let res := set_supportsStringConversion true res in
  (this, res).

Definition withUnorderedMapFormatting (this : ParamMetaData)
    (map : list (Z * string)) : ParamMetaData * ParamMetaData :=
  let res := this in
  let res := set_discreteValues map res in
  let res := set_displayScale UNORDERED_MAP res in
  let res := set_supportsStringConversion true res in
  (this, res).

Definition withDecimalPlaces (this : ParamMetaData) (d : Z)
  : ParamMetaData * ParamMetaData :=
  let res := this in
  let res := set_decimalPlaces d res in
  (this, res).

Definition withCustomMaxDisplay (this : ParamMetaData) (v : string)
  : ParamMetaData * ParamMetaData :=
  let res := this in
  let res := set_customMaxDisplay v res in
  (this, res).

Definition withCustomMinDisplay (this : ParamMetaData) (v : string)
  : ParamMetaData * ParamMetaData :=
  let res := this in
  let res := set_customMinDisplay v res in
  (this, res).

Definition withCustomDefaultDisplay (this : ParamMetaData) (v : string)
  : ParamMetaData * ParamMetaData :=
  let res := this in
  let res := set_customDefaultDisplay v res in
  (this, res).

(** *** Presets: chains of calls on temporaries

    [c |> m] calls [m] on the temporary [t] a previous call returned;
    the temporary is discarded, the first receiver is threaded through. *)

Definition chain {S : Type} (c : S * S) (m : S -> S * S) : S * S :=
  (fst c, snd (m (snd c))).

Notation "c |> m" := (chain c m) (at level 50, left associativity).

Definition asPercent (this : ParamMetaData)
  : ParamMetaData * ParamMetaData :=
  withRange this f0 (f_of_int 1)
    |> (fun t => withDefault t f0)
    |> (fun t => withType t FLOAT)
    |> (fun t => withLinearScaleFormatting t "%" (f_of_int 100))
    |> (fun t => withDecimalPlaces t 2).

Definition asPercentExtendableToBipolar (this : ParamMetaData)
  : ParamMetaData * ParamMetaData :=
  asPercent this
    |> (fun t => extendable t true)
    |> (fun t => withExtendFactors t (f_of_int 2) (f_of_int (-1))).

Definition asPercentBipolar (this : ParamMetaData)
  : ParamMetaData * ParamMetaData :=
  withRange this (f_of_int (-1)) (f_of_int 1)
    |> (fun t => withDefault t f0)
    |> (fun t => withType t FLOAT)
    |> (fun t => withLinearScaleFormatting t "%" (f_of_int 100))
    |> (fun t => withDecimalPlaces t 2).

Definition asDecibelNarrow (this : ParamMetaData)
  : ParamMetaData * ParamMetaData :=
  withRange this (f_of_int (-24)) (f_of_int 24)
    |> (fun t => withDefault t f0)
    |> (fun t => withType t FLOAT)
    |> (fun t => withLinearScaleFormatting t "dB" (f_of_int 1)).

Definition asDecibel (this : ParamMetaData)
  : ParamMetaData * ParamMetaData :=
  withRange this (f_of_int (-48)) (f_of_int 48)
    |> (fun t => withDefault t f0)
    |> (fun t => withType t FLOAT)
    |> (fun t => withLinearScaleFormatting t "dB" (f_of_int 1)).

Definition asMIDIPitch (this : ParamMetaData)
  : ParamMetaData * ParamMetaData :=
  withType this FLOAT
    |> (fun t => withRange t f0 (f_of_int 127))
    |> (fun t => withDefault t (f_of_int 60))
    |> (fun t => withLinearScaleFormatting t "semitones" (f_of_int 1)).

Definition asMIDINote (this : ParamMetaData)
  : ParamMetaData * ParamMetaData :=
  withType this INT
    |> (fun t => withRange t (f_of_int 0) (f_of_int 127))
    |> (fun t => withDefault t (f_of_int 60))
    |> (fun t => withLinearScaleFormatting t "semitones" (f_of_int 1))
    |> (fun t => withDecimalPlaces t 0).

Definition asLfoRate (this : ParamMetaData)
  : ParamMetaData * ParamMetaData :=
  withType this FLOAT
    |> (fun t => withRange t (f_of_int (-7)) (f_of_int 9))
    |> (fun t => temposyncable t true)
    |> (fun t => withATwoToTheBFormatting t (f_of_int 1) (f_of_int 1) "Hz").

Definition asEnvelopeTime (this : ParamMetaData)
  : ParamMetaData * ParamMetaData :=
  withType this FLOAT
    |> (fun t => withRange t (f_of_int (-8)) (f_of_int 5))
    |> (fun t => withDefault t (f_of_int (-1)))
    |> (fun t => temposyncable t true)
    |> (fun t => withATwoToTheBFormatting t (f_of_int 1) (f_of_int 1) "s").

Definition asAudibleFrequency (this : ParamMetaData)
  : ParamMetaData * ParamMetaData :=
  withType this FLOAT
    |> (fun t => withRange t (f_of_int (-60)) (f_of_int 70))
    |> (fun t => withDefault t (f_of_int 0))
    |> (fun t => withSemitoneZeroAt400Formatting t).

End Methods.

(* ================================================================== *)
(** ** Literals of the header *)

Definition d_0_005 : double := Eval vm_compute in d_lit 5 1000.
Definition d_0_99 : double := Eval vm_compute in d_lit 99 100.
Definition d_0_5 : double := Eval vm_compute in d_lit 1 2.
Definition d_0_01 : double := Eval vm_compute in d_lit 1 100.
Definition d_0_02 : double := Eval vm_compute in d_lit 2 100.
Definition d_1_3 : double := Eval vm_compute in d_lit 13 10.
Definition d_1_4 : double := Eval vm_compute in d_lit 14 10.
Definition d_1 : double := Eval vm_compute in d_of_int 1.
Definition d_2 : double := Eval vm_compute in d_of_int 2.
Definition d_3 : double := Eval vm_compute in d_of_int 3.
Definition d_0 : double := S754_zero false.
Definition f2 : float := Eval vm_compute in f_of_int 2.
Definition f3 : float := Eval vm_compute in f_of_int 3.

(** [!s.empty()] *)
Definition nonempty (s : string) : bool :=
  match s with
  | EmptyString => false
  | String _ _ => true
  end.

(** [discreteValues.find(iv)] followed by [discreteValues.at(iv)]. *)
Fixpoint find_at (iv : Z) (m : list (Z * string)) : option string :=
  match m with
  | [] => None
  | (k, s) :: rest => if k =? iv then Some s else find_at iv rest
  end.

(* ================================================================== *)
(** ** The conversions *)

Section Conversions.

Variable E : Env.

(** [std::stof(std::string(v))] as a step that may throw. *)
Definition call_stof (v : string) : result float :=
  match stof E v with
  | Some r => Ok r
  | None => Fail StdException
  end.

Definition naturalToNormalized01 (p : ParamMetaData) (naturalValue : float)
  : result float :=
  v <- match type p with
       | FLOAT =>
           assert_ (NDEBUG E) (ne (maxVal p) (minVal p)) ;;;
           ret (fdiv (fsub naturalValue (minVal p))
                     (fsub (maxVal p) (minVal p)))
       | INT =>
           assert_ (NDEBUG E) (ne (maxVal p) (minVal p)) ;;;
           ret (demote
                  (dadd d_0_005
                     (ddiv
                        (dmul d_0_99
                           (promote (fsub naturalValue (minVal p))))
                        (promote (fsub (maxVal p) (minVal p))))))
       | BOOL =>
           assert_ (NDEBUG E)
             (eq (maxVal p) (f_of_int 1) && eq (minVal p) (f_of_int 0)) ;;;
           ret (if gt (promote naturalValue) d_0_5 then f1 else f0)
       | NONE =>
           assert_ (NDEBUG E) false ;;;
           ret f0
       end ;;
  ret (clamp v f0 f1).

Definition normalized01ToNatural (p : ParamMetaData)
    (normalizedValue : float) : result float :=
  assert_ (NDEBUG E)
    (ge normalizedValue f0 && le normalizedValue f1) ;;;
  assert_ (NDEBUG E) (ne (maxVal p) (minVal p)) ;;;
  let normalizedValue := clamp normalizedValue f0 f1 in
  match type p with
  | FLOAT =>
      ret (fadd (fmul normalizedValue (fsub (maxVal p) (minVal p)))
                (minVal p))
  | INT =>
      i <- cast_int
             (dadd
                (dmul
                   (dmul (ddiv d_1 d_0_99)
                         (dsub (promote normalizedValue) d_0_005))
                   (promote (fsub (maxVal p) (minVal p))))
                d_0_5) ;;
      ret (fadd (f_of_int i) (minVal p))
  | BOOL =>
      assert_ (NDEBUG E)
        (eq (maxVal p) (f_of_int 1) && eq (minVal p) (f_of_int 0)) ;;;
      ret (if gt (promote normalizedValue) d_0_5
           then maxVal p else minVal p)
  | NONE =>
      assert_ (NDEBUG E) false ;;;
      ret f0
  end.

(** *** [temposyncNotation] *)

(** [snprintf(tmp, 1024, "%d whole triplets",
              (int)floor(q * 3.0 / 2.0 + 0.02))] *)
Definition whole_triplets (q : float) : result string :=
  n <- cast_int
         (floor (dadd (ddiv (dmul (promote q) d_3) d_2) d_0_02)) ;;
  ret (Fmt.dec n ++ " whole triplets").

Definition temposyncNotation (p : ParamMetaData) (f : float)
  : result string :=
  let '(a, b) := modff f in
  let '(a, b) :=
    if ge b (f_of_int 0)
    then (demote (dadd (promote a) d_1), demote (dsub (promote b) d_1))
    else (a, b) in
  if ge f (f_of_int 1) then
    let q := powf E f2 (fsub f (f_of_int 1)) in
    let nn := "whole" in
    if ge q (f_of_int 3) then
      if lt (fabs (dsub (promote q) (floor (dadd (promote q) d_0_01))))
            d_0_01
      then
        n <- cast_int (floor (dadd (promote q) d_0_01)) ;;
        ret (Fmt.dec n ++ " whole notes")
      else
        (* this is the triplet case *)
        whole_triplets q
    else
      let '(nn, q) :=
        if ge q (f_of_int 2)
        then ("double whole", fdiv q (f_of_int 2))
        else (nn, q) in
      if lt (promote q) d_1_3 then
        ret (nn ++ " " ++ "note")
      else if lt (promote q) d_1_4 then
        if String.eqb nn "whole" then
          ret ("double whole" ++ " " ++ "triplet")
        else
          let q := demote (pow E d_2 (promote (fsub f (f_of_int 1)))) in
          whole_triplets q
      else
        ret (nn ++ " " ++ "dotted")
  else
    let d := demote (pow E d_2 (promote (neg (fsub a (f_of_int 2))))) in
    let q := demote (pow E d_2 (promote (fadd b (f_of_int 1)))) in
    let '(t, d) :=
      if lt (promote q) d_1_3 then ("note", d)
      else if lt (promote q) d_1_4 then ("triplet", fdiv d (f_of_int 2))
      else ("dotted", d) in
    nn <- (if eq d (f_of_int 1) then ret "whole"
           else n <- cast_int d ;; ret ("1/" ++ Fmt.dec n)) ;;
    ret (nn ++ " " ++ t).

(** *** [valueToString] *)

(** [fs.isHighPrecision ? (decimalPlaces + 4) : decimalPlaces] *)
Definition precision (p : ParamMetaData) (fs : FeatureState) : Z :=
  if isHighPrecision fs then decimalPlaces p + 4 else decimalPlaces p.

(** [fmt::format("{:.{}f} {:s}", x, dp, unit)] *)
Definition format_with_unit (x : spec_float) (dp : Z) (u : string)
  : result string :=
  s <- Fmt.format_f x dp ;;
  ret (s ++ " " ++ u).

Definition valueToString (p : ParamMetaData) (val : float)
    (fs : FeatureState) : result (option string) :=
  match type p with
  | BOOL =>
      if lt val (f_of_int 0)
      then ret (Some (if nonempty (customMinDisplay p)
                      then customMinDisplay p else "Off"))
      else ret (Some (if nonempty (customMaxDisplay p)
                      then customMaxDisplay p else "On"))
  | INT =>
      iv <- cast_int (roundf val) ;;
      match displayScale p with
      | UNORDERED_MAP => ret (find_at iv (discreteValues p))
      | _ => ret None
      end
  | _ =>
      if nonempty (customMinDisplay p) && eq val (minVal p)
      then ret (Some (customMinDisplay p))
      else if nonempty (customMaxDisplay p) && eq val (maxVal p)
      then ret (Some (customMaxDisplay p))
      else if nonempty (customDefaultDisplay p) && eq val (defaultVal p)
      then ret (Some (customDefaultDisplay p))
      else
        let val := if isExtended fs
                   then fadd (fmul (exA p) val) (exB p) else val in
        if isTemposynced fs then
          s <- temposyncNotation p val ;;
          ret (Some s)
        else
          (* float cases *)
          match displayScale p with
          | LINEAR =>
              if eq val (minVal p) && nonempty (customMinDisplay p)
              then ret (Some (customMinDisplay p))
              else if eq val (maxVal p) && nonempty (customMaxDisplay p)
              then ret (Some (customMinDisplay p))
              else
                s <- format_with_unit (fmul (svA p) val)
                       (precision p fs) (unit p) ;;
                ret (Some s)
          | A_TWO_TO_THE_B =>
              if eq val (minVal p) && nonempty (customMinDisplay p)
              then ret (Some (customMinDisplay p))
              else if eq val (maxVal p) && nonempty (customMaxDisplay p)
              then ret (Some (customMinDisplay p))
              else
                s <- format_with_unit
                       (dmul (promote (svA p))
                          (pow E d_2
                             (promote
                                (fadd (fmul (svB p) val) (svC p)))))
                       (precision p fs) (unit p) ;;
                ret (Some s)
          | _ => ret None
          end
  end.

Definition valueToAlternateString (p : ParamMetaData) (val : float)
  : result (option string) :=
  ret None.

(** *** [valueFromString]

    [errMsg] is passed by reference: it goes in and comes back with the
    returned optional. *)

(** The lambda [rangeMsg]. *)
Definition rangeMsg (p : ParamMetaData) : result string :=
  nv <- valueToString p (minVal p) FeatureState_default ;;
  xv <- valueToString p (maxVal p) FeatureState_default ;;
  match nv, xv with
  | Some n, Some x => ret (n ++ " < val < " ++ x)
  | _, _ => ret "Invalid input"
  end.

(** [errMsg = rangeMsg(); return std::nullopt;] *)
Definition fail_with_range (p : ParamMetaData)
  : result (option float * string) :=
  em <- rangeMsg p ;;
  ret (None, em).

Definition valueFromString (p : ParamMetaData) (v : string)
    (errMsg : string) : result (option float * string) :=
  match type p with
  | BOOL => ret (None, errMsg)
  | INT => ret (None, errMsg)
  | _ =>
      if nonempty (customMinDisplay p) && String.eqb v (customMinDisplay p)
      then ret (Some (minVal p), errMsg)
      else if nonempty (customMaxDisplay p)
              && String.eqb v (customMaxDisplay p)
      then ret (Some (maxVal p), errMsg)
      else
        match displayScale p with
        | LINEAR =>
            try_catch
              (r <- call_stof v ;;
               assert_ (NDEBUG E) (ne (svA p) (f_of_int 0)) ;;;
               let r := fdiv r (svA p) in
               if lt r (minVal p) || gt r (maxVal p)
               then fail_with_range p
               else ret (Some r, errMsg))
              (fail_with_range p)
        | A_TWO_TO_THE_B =>
            try_catch
              (r <- call_stof v ;;
               assert_ (NDEBUG E) (ne (svA p) (f_of_int 0)) ;;;
               assert_ (NDEBUG E) (ne (svB p) (f_of_int 0)) ;;;
               if lt r (f_of_int 0)
               then fail_with_range p
               else
                 (* v = svA 2^(svB r + svC)
                    log2(v / svA) = svB r + svC
                    (log2(v/svA) - svC)/svB = r *)
                 let r :=
                   demote
                     (ddiv
                        (dsub (log2 E (promote (fdiv r (svA p))))
                              (promote (svC p)))
                        (promote (svB p))) in
                 if lt r (minVal p) || gt r (maxVal p)
                 then fail_with_range p
                 else ret (Some r, errMsg))
              (fail_with_range p)
        | _ => ret (None, errMsg)
        end
  end.

(** *** [modulationNaturalToString] *)

Definition base_or_error (v2s : option string) : string :=
  match v2s with
  | Some s => s
  | None => "-ERROR-"
  end.

Definition modulationNaturalToString (p : ParamMetaData)
    (naturalBaseVal modulationNatural : float) (isBipolar : bool)
    (fs : FeatureState) : result (option ModulationDisplay) :=
  if negb (Type_eqb (type p) FLOAT) then ret None
  else
    match displayScale p with
    | LINEAR =>
        assert_ (NDEBUG E)
          (le (fabs modulationNatural) (fsub (maxVal p) (minVal p))) ;;;
        (* OK this is super easy. It's just linear! *)
        let du := modulationNatural in
        let dd := neg modulationNatural in
        let dp := precision p fs in
        r_value <- format_with_unit (fmul (svA p) du) dp (unit p) ;;
        r_summary <-
          (if isBipolar then
             if gt du (f_of_int 0) then
               s <- format_with_unit (fmul (svA p) du) dp (unit p) ;;
               ret ("+/- " ++ s)
             else
               s <- format_with_unit (fmul (neg (svA p)) du) dp (unit p) ;;
               ret ("-/+ " ++ s)
           else format_with_unit (fmul (svA p) du) dp (unit p)) ;;
        r_changeUp <- Fmt.format_f (fmul (svA p) du) dp ;;
        r_changeDown <-
          (if isBipolar then Fmt.format_f (fmul (svA p) dd) dp
           else ret "") ;;
        r_valUp <-
          Fmt.format_f (fmul (svA p) (fadd naturalBaseVal du)) dp ;;
        r_valDown <-
          (if isBipolar
           then Fmt.format_f (fmul (svA p) (fadd naturalBaseVal du)) dp
           else ret "") ;;
        (* TODO pass this on not create *)
        v2s <- valueToString p naturalBaseVal fs ;;
        ret (Some {| value := r_value; summary := r_summary;
                     baseValue := base_or_error v2s;
                     valUp := r_valUp; valDown := r_valDown;
                     changeUp := r_changeUp;
                     changeDown := r_changeDown |})
    | A_TWO_TO_THE_B =>
        let nvu := fadd naturalBaseVal modulationNatural in
        let nvd := fsub naturalBaseVal modulationNatural in
        let scv := dmul (promote (svA p))
                     (pow E d_2 (promote (fmul (svB p) naturalBaseVal))) in
        let svu := dmul (promote (svA p))
                     (pow E d_2 (promote (fmul (svB p) nvu))) in
        let svd := dmul (promote (svA p))
                     (pow E d_2 (promote (fmul (svB p) nvd))) in
        let du := dsub svu scv in
        let dd := dsub scv svd in
        let dp := precision p fs in
        r_value <- format_with_unit du dp (unit p) ;;
        r_summary <-
          (if isBipolar then
             if gt du d_0 then
               s <- format_with_unit du dp (unit p) ;;
               ret ("+/- " ++ s)
             else
               s <- format_with_unit (neg du) dp (unit p) ;;
               ret ("-/+ " ++ s)
           else format_with_unit du dp (unit p)) ;;
        r_changeUp <- Fmt.format_f du dp ;;
        r_changeDown <-
          (if isBipolar then Fmt.format_f dd dp else ret "") ;;
        r_valUp <- Fmt.format_f nvu dp ;;
        r_valDown <-
          (if isBipolar then Fmt.format_f nvd dp else ret "") ;;
        v2s <- valueToString p naturalBaseVal fs ;;
        ret (Some {| value := r_value; summary := r_summary;
                     baseValue := base_or_error v2s;
                     valUp := r_valUp; valDown := r_valDown;
                     changeUp := r_changeUp;
                     changeDown := r_changeDown |})
    | _ => ret None
    end.

(** *** [modulationNaturalFromString] *)


End Conversions.

(* ================================================================== *)
(** ** An environment to run the header in

    The closed examples below need the library functions at a few
    arguments.  [Reference.env] supplies them where their value is fixed by
    their standards: [std::stof] on decimal text and on "inf" and "nan"
    (correctly rounded, parsing the longest numeric prefix), [pow], [powf]
    and [log2] where the result is an exact power of two or the exponent of
    one, which an IEEE-754 library returns exactly.  At other arguments the
    three library functions return NaN and [fmt_default] the empty text:
    none of the examples reaches them, and no theorem depends on this
    environment except through those examples. *)

Module Reference.

Definition is_space (c : ascii) : bool :=
  let n := nat_of_ascii c in
  (n =? 32)%nat || ((9 <=? n)%nat && (n <=? 13)%nat).

Definition digit_of (c : ascii) : option Z :=
  let n := Z.of_nat (nat_of_ascii c) in
  if (48 <=? n) && (n <=? 57) then Some (n - 48) else None.

Definition lower (c : ascii) : ascii :=
  let n := nat_of_ascii c in
  if ((65 <=? n) && (n <=? 90))%nat then ascii_of_nat (n + 32) else c.

Fixpoint skip_spaces (s : string) : string :=
  match s with
  | String c r => if is_space c then skip_spaces r else s
  | EmptyString => s
  end.

(** Is [pre] (lower case) a prefix of [s], ignoring the case of [s]. *)
Fixpoint prefix_ci (pre s : string) : bool :=
  match pre, s with
  | EmptyString, _ => true
  | String a p, String b r => Ascii.eqb a (lower b) && prefix_ci p r
  | String _ _, EmptyString => false
  end.

(** Read decimal digits: the number read so far, how many were read, and
    the rest of the text. *)
Fixpoint digits (s : string) (acc : Z) (n : Z) : Z * Z * string :=
  match s with
  | String c r =>
      match digit_of c with
      | Some d => digits r (10 * acc + d) (n + 1)
      | None => (acc, n, s)
      end
  | EmptyString => (acc, n, s)
  end.

Definition read_sign (s : string) : bool * string :=
  match s with
  | String "-" r => (true, r)
  | String "+" r => (false, r)
  | _ => (false, s)
  end.

(** The exponent part, when one is present and well formed. *)
Definition read_exponent (s : string) : Z :=
  match s with
  | String c r =>
      if Ascii.eqb (lower c) "e" then
        let '(neg_e, r) := read_sign r in
        let '(e, n, _) := digits r 0 0 in
        if n =? 0 then 0 else if neg_e then - e else e
      else 0
  | EmptyString => 0
  end.

(** The float nearest to [(-1)^s * n * 10^k]. *)
Definition round_decimal (s : bool) (n k : Z) : float :=
  match n with
  | Zpos m =>
      match k with
      | Zneg j =>
          fdiv (S754_finite s m 0)
               (S754_finite false (Z.to_pos (10 ^ Zpos j)) 0)
      | _ => binary_normalize 24 128
               (if s then - (n * 10 ^ k) else n * 10 ^ k) 0 s
      end
  | _ => S754_zero s
  end.

Definition stof_decimal (text : string) : option float :=
  let '(s, r) := read_sign (skip_spaces text) in
  if prefix_ci "nan" r then Some S754_nan
  else if prefix_ci "inf" r then Some (S754_infinity s)
  else
    let '(ip, n1, r1) := digits r 0 0 in
    let '(m, n2, r2) :=
      match r1 with
      | String "." r' => digits r' ip 0
      | _ => (ip, 0, r1)
      end in
    if n1 + n2 =? 0 then None (* std::invalid_argument *)
    else
      let x := round_decimal s m (read_exponent r2 - n2) in
      match x with
      | S754_infinity _ => None (* std::out_of_range *)
      | S754_zero _ => if m =? 0 then Some x else None
      | _ => Some x
      end.

(** Is [x] an integer; which one. *)
Definition integer_of (x : spec_float) : option Z :=
  match x with
  | S754_zero _ => Some 0
  | S754_finite s m e =>
      match e with
      | Zneg k =>
          if Zpos m mod 2 ^ Zpos k =? 0 then Some (trunc_Z s m e)
          else None
      | _ => Some (trunc_Z s m e)
      end
  | _ => None
  end.

(** [2^y] at precision [prec], for an integer [y]. *)
Definition pow2 (prec emax : Z) (b y : spec_float) : spec_float :=
  match integer_of y with
  | Some n =>
      if eq b (binary_normalize prec emax 2 0 false)
      then SFldexp prec emax (binary_normalize prec emax 1 0 false) n
      else if n =? 0 then binary_normalize prec emax 1 0 false
      else S754_nan
  | None => S754_nan
  end.

(** Is the positive [m] a power of two; its exponent. *)
Definition log2_pos (m : positive) : option Z :=
  if Zpos m =? 2 ^ Z.log2 (Zpos m) then Some (Z.log2 (Zpos m)) else None.

Definition log2_exact (x : double) : double :=
  match x with
  | S754_zero _ => S754_infinity true
  | S754_infinity false => x
  | S754_finite false m e =>
      match log2_pos m with
      | Some j => d_of_int (j + e)
      | None => S754_nan
      end
  | _ => S754_nan
  end.

Definition env (ndebug : bool) : Env :=
  {| NDEBUG := ndebug;
     stof := stof_decimal;
     pow := pow2 53 1024;
     powf := pow2 24 128;
     log2 := log2_exact;
     fmt_default := fun _ => "" |}.

End Reference.

(* ================================================================== *)
(** * Properties *)

(** ** The descriptors of the examples *)

Definition percent : ParamMetaData :=
  Eval vm_compute in snd (asPercent ParamMetaData_default).
Definition percentBipolar : ParamMetaData :=
  Eval vm_compute in snd (asPercentBipolar ParamMetaData_default).
Definition lfoRate : ParamMetaData :=
  Eval vm_compute in snd (asLfoRate ParamMetaData_default).
Definition midiNote : ParamMetaData :=
  Eval vm_compute in snd (asMIDINote ParamMetaData_default).
(** A slot marked unused: [ParamMetaData().withType(NONE)]. *)
Definition unusedSlot : ParamMetaData :=
  Eval vm_compute in snd (withType ParamMetaData_default NONE).

(** ** Reasoning about outcomes *)

Lemma bind_Ok_inv {A B : Type} (r : result A) (k : A -> result B) (b : B) :
  bind r k = Ok b -> exists a, r = Ok a /\ k a = Ok b.
Proof.
  destruct r as [a | f]; simpl; intros H.
  - exists a; split; [reflexivity | exact H].
  - discriminate H.
Qed.

Lemma format_f_Ok (x : spec_float) (dp : Z) :
  0 <= dp -> Fmt.format_f x dp = Ok (Fmt.fixed x dp).
Proof.
  intros H. unfold Fmt.format_f.
  destruct (dp <? 0) eqn:Hlt; [apply Z.ltb_lt in Hlt; lia | reflexivity].
Qed.

Lemma format_with_unit_Ok (x : spec_float) (dp : Z) (u : string) :
  0 <= dp -> format_with_unit x dp u = Ok (Fmt.fixed x dp ++ " " ++ u).
Proof.
  intros H. unfold format_with_unit. rewrite (format_f_Ok x dp H).
  reflexivity.
Qed.

(** Replace a closed term by its value. *)
Ltac vm_eval t :=
  let v := eval vm_compute in t in
  replace t with v by (vm_compute; reflexivity).

(** Decide a branch whose condition does not involve the environment. *)
Ltac eval_if E :=
  match goal with
  | |- context [if ?c then _ else _] =>
      lazymatch c with context [E] => fail | _ => idtac end;
      vm_eval c; cbv iota
  end.

Lemma precision_nonneg (p : ParamMetaData) (fs : FeatureState) :
  0 <= decimalPlaces p -> 0 <= precision p fs.
Proof.
  intros H. unfold precision. destruct (isHighPrecision fs); lia.
Qed.

(* ------------------------------------------------------------------ *)
(** ** The configuration calls leave their receiver alone, but one *)

(** Every "with..." call of [FeatureState] other than [withAbsolute]
    returns a copy with the flag set and does not touch the receiver. *)
Lemma FeatureState_with_frame (fs : FeatureState) (e : bool) :
  (fst (withHighPrecision fs e) = fs
   /\ isHighPrecision (snd (withHighPrecision fs e)) = e)
  /\ (fst (withExtended fs e) = fs
      /\ isExtended (snd (withExtended fs e)) = e)
  /\ (fst (withTemposync fs e) = fs
      /\ isTemposynced (snd (withTemposync fs e)) = e).
Proof. repeat split. Qed.

(** The "with..." calls of [ParamMetaData] return a copy with the field
    set and do not touch the receiver. *)
Lemma ParamMetaData_with_frame (p : ParamMetaData) :
  (forall t, fst (withType p t) = p /\ type (snd (withType p t)) = t)
  /\ (forall n, fst (withName p n) = p /\ name (snd (withName p n)) = n)
  /\ (forall mn mx, fst (withRange p mn mx) = p
        /\ minVal (snd (withRange p mn mx)) = mn
        /\ maxVal (snd (withRange p mn mx)) = mx)
  /\ (forall d, fst (withDefault p d) = p
        /\ defaultVal (snd (withDefault p d)) = d)
  /\ (forall b, fst (extendable p b) = p
        /\ canExtend (snd (extendable p b)) = b)
  /\ (forall A B, fst (withExtendFactors p A B) = p
        /\ exA (snd (withExtendFactors p A B)) = A
        /\ exB (snd (withExtendFactors p A B)) = B)
  /\ (forall b, fst (deformable p b) = p
        /\ canDeform (snd (deformable p b)) = b)
  /\ (forall c, fst (withDeformationCount p c) = p
        /\ deformationCount (snd (withDeformationCount p c)) = c)
  /\ (forall b, fst (absolutable p b) = p
        /\ canAbsolute (snd (absolutable p b)) = b)
  /\ (forall b, fst (temposyncable p b) = p
        /\ canTemposync (snd (temposyncable p b)) = b)
  /\ (forall b, fst (deactivatable p b) = p
        /\ canDeactivate (snd (deactivatable p b)) = b)
  /\ (forall d, fst (withDecimalPlaces p d) = p
        /\ decimalPlaces (snd (withDecimalPlaces p d)) = d)
  /\ (forall v, fst (withCustomMinDisplay p v) = p
        /\ customMinDisplay (snd (withCustomMinDisplay p v)) = v)
  /\ (forall v, fst (withCustomMaxDisplay p v) = p
        /\ customMaxDisplay (snd (withCustomMaxDisplay p v)) = v)
  /\ (forall v, fst (withCustomDefaultDisplay p v) = p
        /\ customDefaultDisplay (snd (withCustomDefaultDisplay p v)) = v).
Proof. repeat split. Qed.

(** C2, at [withAbsolute]: the call assigns [isAbsolute] of the receiver
    and returns the copy taken before the assignment.  So for every [fs]
    and [e] the receiver ends with [isAbsolute = e] and the returned copy
    is the old [fs]; from the default state and [e = true] the receiver is
    modified and the returned copy still has [isAbsolute = false]. *)
Theorem withAbsolute_assigns_receiver :
  (forall (fs : FeatureState) (e : bool),
      withAbsolute fs e = (set_isAbsolute e fs, fs))
  /\ fst (withAbsolute FeatureState_default true) <> FeatureState_default
  /\ isAbsolute (snd (withAbsolute FeatureState_default true)) = false.
Proof.
  split; [reflexivity | split; [discriminate | reflexivity]].
Qed.

(* ------------------------------------------------------------------ *)
(** ** Descriptors of type NONE *)

(** [valueToString] has no case for NONE: such a descriptor is formatted
    as a float. *)
Lemma valueToString_unusedSlot_formats (E : Env) (val : float) :
  exists s, valueToString E unusedSlot val FeatureState_default
            = Ok (Some s).
Proof.
  eexists. unfold valueToString, unusedSlot; simpl.
  rewrite !andb_false_r. reflexivity.
Qed.

(** C1, at an unused slot: [valueToString] returns the text "0.00 " for
    the value 0 instead of no string; [naturalToNormalized01] stops at its
    [assert(false)] when assertions are compiled in and returns 0 when
    they are compiled out. *)
Theorem NONE_valueToString_returns_text :
  valueToString (Reference.env false) unusedSlot f0 FeatureState_default
  = Ok (Some "0.00 ")
  /\ naturalToNormalized01 (Reference.env false) unusedSlot f0
     = Fail AssertionFailed
  /\ naturalToNormalized01 (Reference.env true) unusedSlot f0 = Ok f0.
Proof. repeat split. Qed.

(* ------------------------------------------------------------------ *)
(** ** [temposyncNotation] *)

Definition d_8 : double := Eval vm_compute in d_of_int 8.

(** The quarter-note family: the duration token "1/4" followed by one of
    the three modifiers. *)
Definition quarter_note_family (s : string) : Prop :=
  s = "1/4 note" \/ s = "1/4 triplet" \/ s = "1/4 dotted".

(** C9 as stated fails: [temposyncNotation(-2)] is "1/8 note", not a text
    of the quarter-note family. *)
Lemma temposyncNotation_minus_two_not_quarter :
  ~ (exists s,
        temposyncNotation (Reference.env false) ParamMetaData_default
          (f_of_int (-2)) = Ok s
        /\ quarter_note_family s).
Proof.
  intros [s [Hs Hq]].
  vm_compute in Hs. injection Hs as <-.
  destruct Hq as [H | [H | H]]; discriminate H.
Qed.

(** C9, amended: [temposyncNotation] depends on its float argument only
    (not on the descriptor it is called on), and with a [pow] that is exact
    at [2^3] and [2^0] it maps -2 to "1/8 note". *)
Theorem temposyncNotation_pure_minus_two_eighth :
  forall (E : Env) (p q : ParamMetaData),
    (forall f, temposyncNotation E p f = temposyncNotation E q f)
    /\ (pow E d_2 d_3 = d_8 -> pow E d_2 d_0 = d_1 ->
        temposyncNotation E p (f_of_int (-2)) = Ok "1/8 note").
Proof.
  intros E p q. split; [reflexivity |].
  intros H3 H0. unfold temposyncNotation.
  vm_eval (modff (f_of_int (-2))). cbv beta iota zeta.
  eval_if E. eval_if E.
  repeat match goal with
         | |- context [pow E d_2 ?y] =>
             lazymatch y with
             | S754_zero _ => fail
             | S754_finite _ _ _ => fail
             | _ => vm_eval y
             end
         end.
  unfold d_3, d_0 in H3, H0. rewrite H3, H0. reflexivity.
Qed.

Lemma temposyncNotation_pure_minus_two_eighth_witness :
  pow (Reference.env false) d_2 d_3 = d_8
  /\ pow (Reference.env false) d_2 d_0 = d_1
  /\ temposyncNotation (Reference.env false) percent (f_of_int (-2))
     = Ok "1/8 note".
Proof.
  split; [reflexivity | split; [reflexivity |]].
  apply (temposyncNotation_pure_minus_two_eighth
           (Reference.env false) percent percent); reflexivity.
Defined.

(* ------------------------------------------------------------------ *)
(** ** [modulationNaturalToString], Linear: the bipolar summary *)

(** Does [s] begin with [pre]. *)
Fixpoint starts_with (pre s : string) : bool :=
  match pre, s with
  | EmptyString, _ => true
  | String a pre', String b s' => Ascii.eqb a b && starts_with pre' s'
  | String _ _, EmptyString => false
  end.

(** The summary of a bipolar Linear modulation display begins with
    [pre]. *)
Definition bipolar_summary_begins (E : Env) (p : ParamMetaData)
    (base delta : float) (fs : FeatureState) (pre : string) : Prop :=
  exists r, modulationNaturalToString E p base delta true fs = Ok (Some r)
            /\ starts_with pre (summary r) = true.

(** C8 as stated fails at an up-delta of zero, where it asks for "+/-":
    for the bipolar percent descriptor, base 0 and delta 0 (within the
    range width 2) the summary is "-/+ -0.00 %". *)
Lemma bipolar_summary_zero_delta_is_minus_plus :
  type percentBipolar = FLOAT
  /\ displayScale percentBipolar = LINEAR
  /\ le (fabs f0) (fsub (maxVal percentBipolar) (minVal percentBipolar))
     = true
  /\ ge f0 (f_of_int 0) = true
  /\ ~ bipolar_summary_begins (Reference.env false) percentBipolar f0 f0
         FeatureState_default "+/-"
  /\ modulationNaturalToString (Reference.env false) percentBipolar f0 f0
       true FeatureState_default
     = Ok (Some {| value := "0.00 %"; summary := "-/+ -0.00 %";
                   baseValue := "0.00 %"; valUp := "0.00";
                   valDown := "0.00"; changeUp := "0.00";
                   changeDown := "-0.00" |}).
Proof.
  repeat split.
  intros [r [Hr Hp]]. vm_compute in Hr. injection Hr as <-.
  vm_compute in Hp. discriminate Hp.
Qed.

(** C8, amended: for a Float descriptor with Linear display scale and
    non-negative [decimalPlaces], a delta with |delta| <= maxVal - minVal
    and a base value that [valueToString] can render, the bipolar summary
    begins with "+/- " when the up-delta is strictly positive and with
    "-/+ " otherwise, an up-delta of zero included. *)
Theorem bipolar_summary_sign :
  forall (E : Env) (p : ParamMetaData) (base delta : float)
         (fs : FeatureState) (v2s : option string),
    type p = FLOAT ->
    displayScale p = LINEAR ->
    0 <= decimalPlaces p ->
    le (fabs delta) (fsub (maxVal p) (minVal p)) = true ->
    valueToString E p base fs = Ok v2s ->
    bipolar_summary_begins E p base delta fs
      (if gt delta (f_of_int 0) then "+/- " else "-/+ ").
Proof.
  intros E p base delta fs v2s Ht Hs Hdp Hle Hv.
  pose proof (precision_nonneg p fs Hdp) as Hp.
  unfold bipolar_summary_begins, modulationNaturalToString.
  rewrite Ht, Hs; simpl negb; cbv iota.
  unfold assert_. rewrite Hle, orb_true_r. unfold bind at 1.
  rewrite !format_with_unit_Ok, !format_f_Ok, Hv by exact Hp.
  destruct (gt delta (f_of_int 0)); simpl; eexists;
    (split; [reflexivity | reflexivity]).
Qed.

Lemma bipolar_summary_sign_witness :
  bipolar_summary_begins (Reference.env false) percentBipolar f0
    (f_lit 1 2) FeatureState_default "+/- ".
Proof.
  apply (bipolar_summary_sign (Reference.env false) percentBipolar f0
           (f_lit 1 2) FeatureState_default (Some "0.00 %"));
    [reflexivity | reflexivity | vm_compute; discriminate
     | reflexivity | reflexivity].
Defined.

(* ------------------------------------------------------------------ *)
(** ** [valueToString] on float descriptors always renders *)

Lemma valueToString_float_renders (E : Env) (p : ParamMetaData)
    (val : float) (fs : FeatureState) :
  type p = FLOAT ->
  displayScale p = LINEAR \/ displayScale p = A_TWO_TO_THE_B ->
  isTemposynced fs = false ->
  0 <= decimalPlaces p ->
  exists s, valueToString E p val fs = Ok (Some s).
Proof.
  intros Ht Hs Hts Hdp.
  pose proof (precision_nonneg p fs Hdp) as Hp.
  unfold valueToString. rewrite Ht, Hts.
  destruct Hs as [Hs | Hs]; rewrite Hs;
    repeat match goal with
           | |- context [if ?c then ret (Some ?s) else _] =>
               destruct c; [exists s; reflexivity |]
           end;
    rewrite format_with_unit_Ok by exact Hp; eexists; reflexivity.
Qed.

(* ------------------------------------------------------------------ *)
(** ** [valueFromString]: the range message *)

(** The text is one of the configured custom boundary texts. *)
Definition custom_text (p : ParamMetaData) (v : string) : bool :=
  (nonempty (customMinDisplay p) && String.eqb v (customMinDisplay p))
  || (nonempty (customMaxDisplay p) && String.eqb v (customMaxDisplay p)).

(** The coefficient [assert]s of [valueFromString] pass or are compiled
    out. *)
Definition coefficients_asserted (E : Env) (p : ParamMetaData) : bool :=
  NDEBUG E
  || (ne (svA p) (f_of_int 0)
      && match displayScale p with
         | A_TWO_TO_THE_B => ne (svB p) (f_of_int 0)
         | _ => true
         end).

(** The parsed-and-inverted value: what [valueFromString] computes from
    the number [r] that [std::stof] read. *)
Definition inverted (E : Env) (p : ParamMetaData) (r : float) : float :=
  match displayScale p with
  | LINEAR => fdiv r (svA p)
  | A_TWO_TO_THE_B =>
      demote (ddiv (dsub (log2 E (promote (fdiv r (svA p))))
                         (promote (svC p)))
                   (promote (svB p)))
  | _ => r
  end.

(** [r < minVal || r > maxVal] *)
Definition outside_range (p : ParamMetaData) (r : float) : bool :=
  lt r (minVal p) || gt r (maxVal p).

(** The text is not numeric, or its parsed-and-inverted value is outside
    the range. *)
Definition unparsable_or_outside (E : Env) (p : ParamMetaData) (v : string)
  : Prop :=
  match stof E v with
  | None => True
  | Some r => outside_range p (inverted E p r) = true
  end.

(** No value, and the message made of the two formatted bounds. *)
Definition fails_with_range_message (E : Env) (p : ParamMetaData)
    (v errMsg : string) : Prop :=
  exists nv xv,
    valueToString E p (minVal p) FeatureState_default = Ok (Some nv)
    /\ valueToString E p (maxVal p) FeatureState_default = Ok (Some xv)
    /\ valueFromString E p v errMsg = Ok (None, nv ++ " < val < " ++ xv).

(** The percent descriptor with "Off" shown at its minimum. *)
Definition percentOff : ParamMetaData :=
  Eval vm_compute in snd (withCustomMinDisplay percent "Off").

(** C5 as stated fails on a text that is a configured custom boundary
    text: "Off" is not numeric, and [valueFromString] returns [minVal] for
    it, with the message untouched. *)
Lemma valueFromString_custom_text_is_accepted :
  type percentOff = FLOAT
  /\ displayScale percentOff = LINEAR
  /\ stof (Reference.env false) "Off" = None
  /\ unparsable_or_outside (Reference.env false) percentOff "Off"
  /\ valueFromString (Reference.env false) percentOff "Off" ""
     = Ok (Some (minVal percentOff), "")
  /\ ~ fails_with_range_message (Reference.env false) percentOff "Off" "".
Proof.
  repeat split.
  intros [nv [xv [_ [_ H]]]]. vm_compute in H. discriminate H.
Qed.

Lemma rangeMsg_float (E : Env) (p : ParamMetaData) :
  type p = FLOAT ->
  displayScale p = LINEAR \/ displayScale p = A_TWO_TO_THE_B ->
  0 <= decimalPlaces p ->
  exists nv xv,
    valueToString E p (minVal p) FeatureState_default = Ok (Some nv)
    /\ valueToString E p (maxVal p) FeatureState_default = Ok (Some xv)
    /\ fail_with_range E p = Ok (None, nv ++ " < val < " ++ xv).
Proof.
  intros Ht Hs Hdp.
  destruct (valueToString_float_renders E p (minVal p) FeatureState_default
              Ht Hs eq_refl Hdp) as [nv Hn].
  destruct (valueToString_float_renders E p (maxVal p) FeatureState_default
              Ht Hs eq_refl Hdp) as [xv Hx].
  exists nv, xv. split; [exact Hn | split; [exact Hx |]].
  unfold fail_with_range, rangeMsg. rewrite Hn, Hx. reflexivity.
Qed.

(** C5, amended: for a Float descriptor with Linear or PowerOfTwo display
    scale, non-negative [decimalPlaces] and coefficients that pass the
    [assert]s, and a text that is not one of the configured custom
    boundary texts: if the text is not numeric, or its parsed-and-inverted
    value is below [minVal] or above [maxVal], then [valueFromString]
    returns no value and sets the message to
    [valueToString(minVal) < val < valueToString(maxVal)]; the message is
    the same in both cases. *)
Theorem valueFromString_range_message :
  forall (E : Env) (p : ParamMetaData) (v errMsg : string),
    type p = FLOAT ->
    displayScale p = LINEAR \/ displayScale p = A_TWO_TO_THE_B ->
    0 <= decimalPlaces p ->
    coefficients_asserted E p = true ->
    custom_text p v = false ->
    unparsable_or_outside E p v ->
    fails_with_range_message E p v errMsg.
Proof.
  intros E p v errMsg Ht Hs Hdp Hco Hcu Hout.
  destruct (rangeMsg_float E p Ht Hs Hdp) as [nv [xv [Hn [Hx Hf]]]].
  exists nv, xv. split; [exact Hn | split; [exact Hx |]].
  unfold custom_text in Hcu. apply orb_false_elim in Hcu.
  destruct Hcu as [Hmin Hmax].
  unfold valueFromString. rewrite Ht, Hmin, Hmax.
  unfold unparsable_or_outside, inverted, outside_range in Hout.
  unfold coefficients_asserted in Hco.
  unfold call_stof, assert_.
  destruct Hs as [Hs | Hs]; rewrite Hs in *;
    destruct (stof E v) as [r |]; simpl in *;
    try (rewrite Hf; reflexivity).
  - (* Linear, numeric *)
    rewrite andb_true_r in Hco. rewrite Hco; simpl.
    rewrite Hout, Hf. reflexivity.
  - (* PowerOfTwo, numeric *)
    destruct (NDEBUG E); simpl in *.
    + destruct (lt r (S754_zero false)); [rewrite Hf; reflexivity |].
      rewrite Hout, Hf. reflexivity.
    + apply andb_prop in Hco. destruct Hco as [HA HB].
      rewrite HA, HB; simpl.
      destruct (lt r (S754_zero false)); [rewrite Hf; reflexivity |].
      rewrite Hout, Hf. reflexivity.
Qed.

Lemma valueFromString_range_message_witness :
  fails_with_range_message (Reference.env false) percentBipolar "500 %" "".
Proof.
  apply (valueFromString_range_message (Reference.env false)
           percentBipolar "500 %" "");
    [reflexivity | left; reflexivity | vm_compute; discriminate
     | reflexivity | reflexivity | reflexivity].
Defined.

(* ------------------------------------------------------------------ *)
(** ** [valueFromString]: what the range check lets through *)

(** A value that [valueFromString] returns is a boundary reached through
    its custom text, or a parsed value that is neither below [minVal] nor
    above [maxVal]. *)
Lemma valueFromString_passes_range_check (E : Env) (p : ParamMetaData)
    (v errMsg errMsg' : string) (r : float) :
  valueFromString E p v errMsg = Ok (Some r, errMsg') ->
  (custom_text p v = true /\ (r = minVal p \/ r = maxVal p))
  \/ (lt r (minVal p) = false /\ gt r (maxVal p) = false).
Proof.
  unfold valueFromString, custom_text.
  destruct (type p); try discriminate;
    (destruct (nonempty (customMinDisplay p)
               && String.eqb v (customMinDisplay p));
     [intros H; injection H as <- _; left; split; [reflexivity | now left]
     |]);
    (destruct (nonempty (customMaxDisplay p)
               && String.eqb v (customMaxDisplay p));
     [intros H; injection H as <- _; left; split; [reflexivity | now right]
     |]);
    unfold try_catch, fail_with_range, call_stof, assert_;
    (destruct (displayScale p); try discriminate;
     destruct (stof E v) as [r0 |]; simpl;
     repeat match goal with
            | |- context [rangeMsg E p] => destruct (rangeMsg E p); simpl
            | |- context [NDEBUG E || ?c] => destruct (NDEBUG E || c); simpl
            | |- context [if lt ?a ?b || gt ?c ?d then _ else _] =>
                destruct (lt a b) eqn:?; destruct (gt c d) eqn:?; simpl
            | |- context [if lt ?a ?b then _ else _] =>
                destruct (lt a b) eqn:?; simpl
            | |- context [match ?f with AssertionFailed => _ | _ => _ end] =>
                destruct f; simpl
            end;
     try discriminate;
     intros H; injection H as <- _; right; split; assumption).
Qed.

(** C10, at the text "nan" on the percent descriptor: [std::stof] reads a
    NaN, both comparisons of the range check are false on it, and
    [valueFromString] returns the NaN, which is not within
    [minVal, maxVal]. *)
Theorem valueFromString_nan_escapes_range_check :
  valueFromString (Reference.env false) percent "nan" ""
  = Ok (Some S754_nan, "")
  /\ le (minVal percent) S754_nan = false
  /\ le S754_nan (maxVal percent) = false.
Proof. repeat split. Qed.

(* ------------------------------------------------------------------ *)
(** ** [modulationNaturalToString]: [valUp] and [valDown] *)

(** The display value of a natural value: the forward transform of
    [valueToString]. *)
Definition display_value (E : Env) (p : ParamMetaData) (x : float)
  : spec_float :=
  match displayScale p with
  | LINEAR => fmul (svA p) x
  | A_TWO_TO_THE_B =>
      dmul (promote (svA p))
           (pow E d_2 (promote (fadd (fmul (svB p) x) (svC p))))
  | _ => x
  end.

(** [valUp] and [valDown] are both the formatted display value of
    [base + delta]. *)
Definition up_down_report_transformed_sum (E : Env) (p : ParamMetaData)
    (base delta : float) (isBipolar : bool) (fs : FeatureState) : Prop :=
  exists r,
    modulationNaturalToString E p base delta isBipolar fs = Ok (Some r)
    /\ valUp r
       = Fmt.fixed (display_value E p (fadd base delta)) (precision p fs)
    /\ valDown r
       = Fmt.fixed (display_value E p (fadd base delta)) (precision p fs).

(** C6 as stated fails twice.  Linear, not bipolar: [valDown] is left
    empty (percent descriptor, base 0.5, delta 0.25).  PowerOfTwo: [valUp]
    and [valDown] format the natural values [base + delta] and
    [base - delta], not a display value (LFO rate descriptor, base 0,
    delta 3: "3.00" and "-3.00", where the display value of [base + delta]
    is 8.00). *)
Lemma up_down_not_transformed_sum :
  ~ up_down_report_transformed_sum (Reference.env false) percent
      (f_lit 1 2) (f_lit 1 4) false FeatureState_default
  /\ ~ up_down_report_transformed_sum (Reference.env false) lfoRate
        f0 (f_of_int 3) true FeatureState_default
  /\ (exists r,
         modulationNaturalToString (Reference.env false) percent
           (f_lit 1 2) (f_lit 1 4) false FeatureState_default = Ok (Some r)
         /\ valUp r = "75.00" /\ valDown r = "")
  /\ (exists r,
         modulationNaturalToString (Reference.env false) lfoRate
           f0 (f_of_int 3) true FeatureState_default = Ok (Some r)
         /\ valUp r = "3.00" /\ valDown r = "-3.00"
         /\ Fmt.fixed (display_value (Reference.env false) lfoRate
                         (fadd f0 (f_of_int 3)))
                      (precision lfoRate FeatureState_default) = "8.00").
Proof.
  split; [| split; [| split]].
  - intros [r [Hr [_ Hd]]]. vm_compute in Hr. injection Hr as <-.
    vm_compute in Hd. discriminate Hd.
  - intros [r [Hr [Hu _]]]. vm_compute in Hr. injection Hr as <-.
    vm_compute in Hu. discriminate Hu.
  - eexists. split; [vm_compute; reflexivity | split; reflexivity].
  - eexists. split; [vm_compute; reflexivity | repeat split].
Qed.

(** C6, amended: for a Float descriptor with non-negative [decimalPlaces]
    and a base value that [valueToString] can render,
    [modulationNaturalToString] returns a display in which, for the Linear
    scale (with |delta| <= maxVal - minVal), [valUp] is the formatted
    [svA * (base + delta)] and [valDown] is the same text when bipolar and
    empty when not; for the PowerOfTwo scale [valDown] is likewise empty
    when not bipolar. *)
Theorem linear_valUp_valDown :
  forall (E : Env) (p : ParamMetaData) (base delta : float)
         (isBipolar : bool) (fs : FeatureState) (v2s : option string),
    type p = FLOAT ->
    0 <= decimalPlaces p ->
    valueToString E p base fs = Ok v2s ->
    (displayScale p = LINEAR ->
     le (fabs delta) (fsub (maxVal p) (minVal p)) = true ->
     exists r,
       modulationNaturalToString E p base delta isBipolar fs = Ok (Some r)
       /\ valUp r
          = Fmt.fixed (fmul (svA p) (fadd base delta)) (precision p fs)
       /\ valDown r = (if isBipolar then valUp r else ""))
    /\ (displayScale p = A_TWO_TO_THE_B ->
        exists r,
          modulationNaturalToString E p base delta isBipolar fs
          = Ok (Some r)
          /\ (isBipolar = false -> valDown r = "")).
Proof.
  intros E p base delta isBipolar fs v2s Ht Hdp Hv.
  pose proof (precision_nonneg p fs Hdp) as Hp.
  unfold modulationNaturalToString. rewrite Ht; simpl negb; cbv iota.
  split; intros Hs; rewrite Hs.
  - intros Hle. unfold assert_. rewrite Hle, orb_true_r. unfold bind at 1.
    rewrite !format_with_unit_Ok, !format_f_Ok, Hv by exact Hp.
    destruct isBipolar, (gt delta (f_of_int 0)); simpl; eexists;
      (split; [reflexivity | split; reflexivity]).
  - rewrite !format_with_unit_Ok, !format_f_Ok, Hv by exact Hp.
    destruct isBipolar; simpl.
    + match goal with
      | |- context [if ?c then _ else _] => destruct c
      end; simpl; eexists; (split; [reflexivity | discriminate]).
    + eexists; split; [reflexivity | reflexivity].
Qed.

Lemma linear_valUp_valDown_witness :
  exists r,
    modulationNaturalToString (Reference.env false) percent
      (f_lit 1 2) (f_lit 1 4) true FeatureState_default = Ok (Some r)
    /\ valUp r
       = Fmt.fixed (fmul (svA percent) (fadd (f_lit 1 2) (f_lit 1 4)))
           (precision percent FeatureState_default)
    /\ valDown r = (if true then valUp r else "").
Proof.
  apply (linear_valUp_valDown (Reference.env false) percent
           (f_lit 1 2) (f_lit 1 4) true FeatureState_default
           (Some "50.00 %"));
    [reflexivity | vm_compute; discriminate | reflexivity
     | reflexivity | reflexivity].
Defined.

(* ------------------------------------------------------------------ *)
(** ** [modulationNaturalFromString], PowerOfTwo *)











(* ================================================================== *)
(** * The rounding of [SpecFloat] and the rational numbers *)

(* ------------------------------------------------------------------ *)
(** ** Float arithmetic at the bounds of a range *)

(** A finite, non-zero binary32 value. *)
Definition finite_float (x : spec_float) : bool :=
  match x with
  | S754_finite _ _ _ => valid_binary 24 128 x
  | _ => false
  end.

(** Zero or a finite value: neither NaN nor an infinity. *)
Definition finite_or_zero (x : spec_float) : bool :=
  match x with
  | S754_zero _ | S754_finite _ _ _ => true
  | _ => false
  end.

Lemma fsub_self (x : spec_float) :
  finite_or_zero x = true -> fsub x x = S754_zero false.
Proof.
  destruct x as [s | s | | s m e]; try discriminate; intros _.
  - destruct s; reflexivity.
  - unfold fsub, SFsub. rewrite Z.sub_diag. reflexivity.
Qed.

Lemma div_eucl_shift (m : positive) :
  Z.div_eucl (Z.shiftl (Zpos m) 24) (Zpos m) = (16777216, 0).
Proof.
  rewrite Z.shiftl_mul_pow2 by lia.
  pose proof (Z.div_mul (2 ^ 24) (Zpos m)) as Hq.
  pose proof (Z.mod_mul (2 ^ 24) (Zpos m)) as Hr.
  rewrite (Z.mul_comm (Zpos m)).
  unfold Z.div, Z.modulo in Hq, Hr.
  destruct (Z.div_eucl (2 ^ 24 * Zpos m) (Zpos m)) as [q r].
  rewrite Hq, Hr by lia. reflexivity.
Qed.

(** A finite value divided by itself is 1. *)
Lemma fdiv_self (s : bool) (m : positive) (e : Z) :
  fdiv (S754_finite s m e) (S754_finite s m e) = f1.
Proof.
  unfold fdiv, SFdiv, SFdiv_core_binary.
  replace (Zdigits2 (Zpos m) + e - (Zdigits2 (Zpos m) + e)) with 0 by lia.
  rewrite Z.sub_diag.
  change (Z.min (fexp 24 128 0) 0) with (-24).
  change (0 - -24) with 24.
  cbv iota. change IntDef.Z.div_eucl with Z.div_eucl.
  change IntDef.Z.shiftl with Z.shiftl.
  rewrite div_eucl_shift. rewrite xorb_nilpotent.
  unfold new_location. destruct (Z.even (Zpos m)); reflexivity.
Qed.

Lemma digits2_iter_xO (m p : positive) :
  digits2_pos (Pos.iter xO m p) = (digits2_pos m + p)%positive.
Proof.
  induction p as [| p IH] using Pos.peano_ind.
  - simpl. lia.
  - rewrite Pos.iter_succ. simpl. rewrite IH. lia.
Qed.

(** float to double on a finite binary32 value: the mantissa is shifted
    to 53 bits, the sign and the value are kept. *)
Lemma promote_finite (s : bool) (m : positive) (e : Z) :
  valid_binary 24 128 (S754_finite s m e) = true ->
  exists p,
    Zpos p = 53 - Zpos (digits2_pos m)
    /\ promote (S754_finite s m e)
       = S754_finite s (Pos.iter xO m p) (e - Zpos p).
Proof.
  intros Hv.
  unfold valid_binary, bounded, canonical_mantissa, fexp, emin in Hv.
  apply andb_prop in Hv. destruct Hv as [Hc Hb].
  apply Z.eqb_eq in Hc. apply Z.leb_le in Hb.
  assert (HD : Zpos (digits2_pos m) <= 24) by lia.
  assert (He : -149 <= e) by lia.
  destruct (53 - Zpos (digits2_pos m)) as [| p | p] eqn:Hn; try lia.
  exists p. split; [reflexivity |].
  unfold promote, binary_round.
  replace (fexp 53 1024 (Zpos (digits2_pos m) + e)) with (e - Zpos p)
    by (unfold fexp, emin; lia).
  unfold shl_align.
  replace (e - Zpos p - e) with (Zneg p) by lia.
  unfold binary_round_aux, shr_fexp.
  cbn [Zdigits2]. rewrite digits2_iter_xO.
  replace (fexp 53 1024 (Zpos (digits2_pos m + p) + (e - Zpos p))
           - (e - Zpos p)) with 0
    by (unfold fexp, emin; lia).
  cbn [shr shr_record_of_loc loc_of_shr_record shr_m round_nearest_even].
  cbn [Zdigits2]. rewrite digits2_iter_xO.
  replace (fexp 53 1024 (Zpos (digits2_pos m + p) + (e - Zpos p))
           - (e - Zpos p)) with 0
    by (unfold fexp, emin; lia).
  cbn [shr shr_record_of_loc shr_m].
  destruct (e - Zpos p <=? 1024 - 53) eqn:Hle; [reflexivity |].
  apply Z.leb_gt in Hle. lia.
Qed.

(** Two values whose difference is finite and not zero are different. *)
Lemma fsub_finite_ne (x y : spec_float) :
  finite_float (fsub x y) = true -> ne x y = true.
Proof.
  unfold ne, eq, SFeqb, SFcompare.
  destruct x as [sx | sx | | sx mx ex], y as [sy | sy | | sy my ey];
    try reflexivity;
    try (destruct sx, sy; (reflexivity || discriminate));
    try (destruct sx; (reflexivity || discriminate));
    try (destruct sy; (reflexivity || discriminate)).
  rewrite !Pos.compare_cont_spec.
  destruct sx, sy; try reflexivity;
    (destruct (Z.compare_spec ex ey); try reflexivity;
     destruct (Pos.compare_spec mx my); try reflexivity;
     subst; intros H;
     rewrite (fsub_self (S754_finite _ my ey) eq_refl) in H;
     discriminate H).
Qed.

(* ------------------------------------------------------------------ *)
(** ** Rounding to a binary format, over the rationals

    [SpecFloat] computes on mantissas and exponents.  This part gives
    its values as rationals and shows that [binary_round_aux], and the
    operations built on it, return the float nearest to the exact
    result (ties to even) within the range of the format. *)

(** Powers of two as rationals. *)
Definition bpow (e : Z) : Q := Qpower 2 e.

Lemma bpow_pos (e : Z) : (0 < bpow e)%Q.
Proof. apply Qpower_0_lt. reflexivity. Qed.

Lemma bpow_add (a b : Z) : (bpow (a + b) == bpow a * bpow b)%Q.
Proof. apply Qpower_plus. discriminate. Qed.

Lemma bpow_sub (a b : Z) : (bpow (a - b) == bpow a / bpow b)%Q.
Proof. apply Qpower_minus. discriminate. Qed.

Lemma bpow_le (a b : Z) : a <= b -> (bpow a <= bpow b)%Q.
Proof. intros H. apply Qpower_le_compat_l; [exact H | discriminate]. Qed.

Lemma bpow_lt (a b : Z) : a < b -> (bpow a < bpow b)%Q.
Proof. intros H. apply Qpower_lt_compat_l; [exact H | reflexivity]. Qed.

Lemma bpow_lt_inv (a b : Z) : (bpow a < bpow b)%Q -> a < b.
Proof. intros H. apply (Qpower_lt_compat_l_inv 2); [exact H | reflexivity]. Qed.

Lemma bpow_Z (e : Z) : 0 <= e -> (bpow e == inject_Z (2 ^ e))%Q.
Proof.
  intros H. unfold bpow. rewrite Zpower_Qpower by exact H. reflexivity.
Qed.

Lemma bpow_0 : (bpow 0 == 1)%Q.
Proof. reflexivity. Qed.

Lemma bpow_succ (e : Z) : (bpow (e + 1) == 2 * bpow e)%Q.
Proof. rewrite bpow_add. change (bpow 1) with 2%Q. ring. Qed.

Lemma bpow_pred (e : Z) : (bpow (e - 1) == (1 # 2) * bpow e)%Q.
Proof. rewrite bpow_sub. change (bpow 1) with 2%Q. field. Qed.

(** The number of binary digits. *)
Lemma digits2_pos_spec (p : positive) :
  2 ^ (Zpos (digits2_pos p) - 1) <= Zpos p < 2 ^ Zpos (digits2_pos p).
Proof.
  induction p as [p IH | p IH |]; cbn [digits2_pos].
  - rewrite Pos2Z.inj_succ.
    replace (Z.succ (Zpos (digits2_pos p)) - 1)
      with (Z.succ (Zpos (digits2_pos p) - 1)) by lia.
    rewrite !Z.pow_succ_r by lia. lia.
  - rewrite Pos2Z.inj_succ.
    replace (Z.succ (Zpos (digits2_pos p)) - 1)
      with (Z.succ (Zpos (digits2_pos p) - 1)) by lia.
    rewrite !Z.pow_succ_r by lia. lia.
  - simpl. lia.
Qed.

Lemma Zdigits2_spec (m : Z) :
  0 < m -> 2 ^ (Zdigits2 m - 1) <= m < 2 ^ Zdigits2 m.
Proof.
  destruct m as [| p | p]; try lia. intros _. apply digits2_pos_spec.
Qed.

Lemma Zdigits2_pos (m : Z) : 0 < m -> 0 < Zdigits2 m.
Proof. destruct m; simpl; lia. Qed.

(** The digit count is determined by the binade. *)
Lemma Zdigits2_unique (m d : Z) :
  0 < m -> 2 ^ (d - 1) <= m < 2 ^ d -> Zdigits2 m = d.
Proof.
  intros Hm [Hlo Hhi].
  pose proof (Zdigits2_spec m Hm) as [Dlo Dhi].
  pose proof (Zdigits2_pos m Hm) as Dpos.
  assert (Hd : 0 < d).
  { destruct (Z_lt_le_dec 0 d) as [H | H]; [exact H |].
    assert (2 ^ d <= 1).
    { destruct (Z.eq_dec d 0) as [-> | Hne]; [simpl; lia |].
      rewrite Z.pow_neg_r by lia. lia. }
    lia. }
  destruct (Z.lt_trichotomy (Zdigits2 m) d) as [H | [H | H]];
    [| exact H |].
  - assert (2 ^ Zdigits2 m <= 2 ^ (d - 1))
      by (apply Z.pow_le_mono_r; lia).
    lia.
  - assert (2 ^ d <= 2 ^ (Zdigits2 m - 1))
      by (apply Z.pow_le_mono_r; lia).
    lia.
Qed.

Lemma Zdigits2_mul_pow2 (m k : Z) :
  0 < m -> 0 <= k -> Zdigits2 (m * 2 ^ k) = Zdigits2 m + k.
Proof.
  intros Hm Hk.
  pose proof (Zdigits2_spec m Hm) as [Dlo Dhi].
  pose proof (Zdigits2_pos m Hm) as Dpos.
  assert (0 < 2 ^ k) by (apply Z.pow_pos_nonneg; lia).
  apply Zdigits2_unique; [nia |].
  replace (Zdigits2 m + k - 1) with (Zdigits2 m - 1 + k) by lia.
  rewrite !Z.pow_add_r by lia. nia.
Qed.

(** ** Positions between two consecutive integers *)

Definition located (m : Z) (l : location) (x : Q) : Prop :=
  match l with
  | loc_Exact => (x == inject_Z m)%Q
  | loc_Inexact Lt => (inject_Z m < x /\ x < inject_Z m + (1 # 2))%Q
  | loc_Inexact Eq => (x == inject_Z m + (1 # 2))%Q
  | loc_Inexact Gt => (inject_Z m + (1 # 2) < x /\ x < inject_Z m + 1)%Q
  end.

Lemma located_compat (m : Z) (l : location) (x y : Q) :
  (x == y)%Q -> located m l x -> located m l y.
Proof.
  intros H. destruct l as [| []]; simpl; rewrite H; auto.
Qed.

Lemma located_bounds (m : Z) (l : location) (x : Q) :
  located m l x -> (inject_Z m <= x /\ x < inject_Z m + 1)%Q.
Proof.
  destruct l as [| []]; simpl; intros H; lra.
Qed.

Lemma Qfloor_unique (m : Z) (x : Q) :
  (inject_Z m <= x)%Q -> (x < inject_Z m + 1)%Q -> Qfloor x = m.
Proof.
  intros Hlo Hhi.
  pose proof (Qfloor_le x) as Fl. pose proof (Qlt_floor x) as Fh.
  rewrite inject_Z_plus in Fh. change (inject_Z 1) with 1%Q in Fh.
  assert (H1 : (inject_Z (Qfloor x) < inject_Z (m + 1))%Q).
  { rewrite inject_Z_plus. change (inject_Z 1) with 1%Q. lra. }
  assert (H2 : (inject_Z m < inject_Z (Qfloor x + 1))%Q).
  { rewrite inject_Z_plus. change (inject_Z 1) with 1%Q. lra. }
  rewrite <- Zlt_Qlt in H1, H2. lia.
Qed.

Lemma located_floor (m : Z) (l : location) (x : Q) :
  located m l x -> Qfloor x = m.
Proof.
  intros H. apply located_bounds in H. apply Qfloor_unique; lra.
Qed.

(** One step of the right shift halves the value. *)
Definition located_rec (mrs : shr_record) (x : Q) : Prop :=
  located (shr_m mrs) (loc_of_shr_record mrs) x.

Lemma inject_Z_xI (p : positive) :
  (inject_Z (Zpos p~1) == 2 * inject_Z (Zpos p) + 1)%Q.
Proof.
  rewrite Pos2Z.inj_xI, inject_Z_plus, inject_Z_mult. reflexivity.
Qed.

Lemma inject_Z_xO (p : positive) :
  (inject_Z (Zpos p~0) == 2 * inject_Z (Zpos p))%Q.
Proof.
  rewrite Pos2Z.inj_xO, inject_Z_mult. reflexivity.
Qed.

Lemma shr_1_located (mrs : shr_record) (x : Q) :
  0 <= shr_m mrs ->
  located_rec mrs x ->
  located_rec (shr_1 mrs) (x / 2) /\ 0 <= shr_m (shr_1 mrs).
Proof.
  destruct mrs as [m r s]. unfold located_rec. cbn [shr_m].
  intros Hm H.
  assert (Hx : (x / 2 == x * (1 # 2))%Q) by (field).
  destruct m as [| [p | p |] | p]; try lia;
    destruct r, s; cbn [shr_1 loc_of_shr_record shr_m orb located] in *;
    (split; [| lia]);
    rewrite ?inject_Z_xI, ?inject_Z_xO in H;
    change (inject_Z 1) with 1%Q in *;
    change (inject_Z 0) with 0%Q in *;
    rewrite Hx; lra.
Qed.

Lemma bpow_split (a b c : Z) :
  a + b = c -> 0 <= a -> (bpow c == inject_Z (2 ^ a) * bpow b)%Q.
Proof.
  intros <- Ha. rewrite <- bpow_Z by lia. apply bpow_add.
Qed.

Lemma bpow_Zpos_xI (p : positive) :
  (bpow (Zpos p~1) == 2 * (bpow (Zpos p) * bpow (Zpos p)))%Q.
Proof.
  rewrite Pos2Z.inj_xI.
  replace (2 * Zpos p + 1) with (Zpos p + Zpos p + 1) by lia.
  rewrite bpow_succ, bpow_add. reflexivity.
Qed.

Lemma bpow_Zpos_xO (p : positive) :
  (bpow (Zpos p~0) == bpow (Zpos p) * bpow (Zpos p))%Q.
Proof.
  rewrite Pos2Z.inj_xO.
  replace (2 * Zpos p) with (Zpos p + Zpos p) by lia.
  apply bpow_add.
Qed.

Lemma iter_shr_1_located (p : positive) :
  forall (mrs : shr_record) (x : Q),
    0 <= shr_m mrs ->
    located_rec mrs x ->
    located_rec (iter_pos shr_1 p mrs) (x / bpow (Zpos p))
    /\ 0 <= shr_m (iter_pos shr_1 p mrs).
Proof.
  induction p as [p IH | p IH |]; intros mrs x Hm H; cbn [iter_pos].
  - destruct (shr_1_located mrs x Hm H) as [H1 M1].
    destruct (IH _ _ M1 H1) as [H2 M2].
    destruct (IH _ _ M2 H2) as [H3 M3].
    split; [| exact M3].
    unfold located_rec in *.
    eapply located_compat; [| exact H3].
    pose proof (bpow_pos (Zpos p)).
    rewrite bpow_Zpos_xI. field. lra.
  - destruct (IH _ _ Hm H) as [H2 M2].
    destruct (IH _ _ M2 H2) as [H3 M3].
    split; [| exact M3].
    unfold located_rec in *.
    eapply located_compat; [| exact H3].
    pose proof (bpow_pos (Zpos p)).
    rewrite bpow_Zpos_xO. field. lra.
  - exact (shr_1_located mrs x Hm H).
Qed.

Lemma loc_of_shr_record_of_loc (m : Z) (l : location) :
  loc_of_shr_record (shr_record_of_loc m l) = l.
Proof. destruct l as [| []]; reflexivity. Qed.

Lemma shr_m_shr_record_of_loc (m : Z) (l : location) :
  shr_m (shr_record_of_loc m l) = m.
Proof. destruct l as [| []]; reflexivity. Qed.

(** Shifting right by [n >= 0] positions divides by [2^n]. *)
Lemma shr_located (m : Z) (l : location) (x : Q) (e n : Z) :
  0 <= m -> 0 <= n ->
  located m l x ->
  let '(mrs, e') := shr (shr_record_of_loc m l) e n in
  e' = e + n
  /\ located_rec mrs (x / bpow n)
  /\ 0 <= shr_m mrs.
Proof.
  intros Hm Hn H.
  assert (H0 : located_rec (shr_record_of_loc m l) x).
  { unfold located_rec.
    rewrite loc_of_shr_record_of_loc, shr_m_shr_record_of_loc. exact H. }
  assert (M0 : 0 <= shr_m (shr_record_of_loc m l))
    by (rewrite shr_m_shr_record_of_loc; exact Hm).
  destruct n as [| p | p]; [| | lia]; cbn [shr].
  - split; [lia |]. split; [| exact M0].
    apply (located_compat _ _ x); [| exact H0].
    rewrite bpow_0. field.
  - split; [reflexivity |].
    apply iter_shr_1_located; assumption.
Qed.

(** ** The nearest integer, ties to even *)

Definition rne (x : Q) : Z :=
  let f := Qfloor x in
  match Qcompare (x - inject_Z f) (1 # 2) with
  | Lt => f
  | Eq => if Z.even f then f else f + 1
  | Gt => f + 1
  end.

Lemma rne_comp (x y : Q) : (x == y)%Q -> rne x = rne y.
Proof.
  intros H. unfold rne. rewrite (Qfloor_comp x y H).
  assert (E : (x - inject_Z (Qfloor y) == y - inject_Z (Qfloor y))%Q)
    by (rewrite H; reflexivity).
  rewrite (Qcompare_comp _ _ E _ _ (Qeq_refl _)). reflexivity.
Qed.

Lemma round_nearest_even_rne (m : Z) (l : location) (x : Q) :
  located m l x -> round_nearest_even m l = rne x.
Proof.
  intros H. unfold rne. rewrite (located_floor m l x H).
  destruct l as [| []]; cbn [located round_nearest_even] in *.
  - assert (C : (x - inject_Z m ?= 1 # 2)%Q = Lt)
      by (apply (proj1 (Qlt_alt _ _)); lra).
    rewrite C. reflexivity.
  - assert (C : (x - inject_Z m ?= 1 # 2)%Q = Eq)
      by (apply (proj1 (Qeq_alt _ _)); lra).
    rewrite C. reflexivity.
  - assert (C : (x - inject_Z m ?= 1 # 2)%Q = Lt)
      by (apply (proj1 (Qlt_alt _ _)); lra).
    rewrite C. reflexivity.
  - assert (C : (x - inject_Z m ?= 1 # 2)%Q = Gt)
      by (apply (proj1 (Qgt_alt _ _)); lra).
    rewrite C. reflexivity.
Qed.

Lemma rne_Z (z : Z) : rne (inject_Z z) = z.
Proof.
  symmetry. apply (round_nearest_even_rne z loc_Exact). simpl. reflexivity.
Qed.

Lemma inject_Z_succ (z : Z) : (inject_Z (z + 1) == inject_Z z + 1)%Q.
Proof. rewrite inject_Z_plus. reflexivity. Qed.

(** [rne x] is within one half of [x]. *)
Lemma rne_error (x : Q) :
  (inject_Z (rne x) - (1 # 2) <= x /\ x <= inject_Z (rne x) + (1 # 2))%Q.
Proof.
  unfold rne.
  pose proof (Qfloor_le x) as Fl. pose proof (Qlt_floor x) as Fh.
  rewrite inject_Z_succ in Fh.
  destruct (Qcompare_spec (x - inject_Z (Qfloor x)) (1 # 2)) as [C | C | C].
  - destruct (Z.even (Qfloor x)); rewrite ?inject_Z_succ; lra.
  - lra.
  - rewrite inject_Z_succ. lra.
Qed.

Lemma rne_floor_or_succ (x : Q) :
  rne x = Qfloor x \/ rne x = Qfloor x + 1.
Proof.
  unfold rne. destruct (Qcompare _ _); auto.
  destruct (Z.even _); auto.
Qed.

(** [rne] is monotone. *)
Lemma rne_le (x y : Q) : (x <= y)%Q -> rne x <= rne y.
Proof.
  intros H.
  pose proof (Qfloor_resp_le x y H) as Hf.
  destruct (Z.eq_dec (Qfloor x) (Qfloor y)) as [E | NE].
  - unfold rne. rewrite <- E.
    destruct (Qcompare_spec (x - inject_Z (Qfloor x)) (1 # 2)) as [C | C | C];
      destruct (Qcompare_spec (y - inject_Z (Qfloor x)) (1 # 2))
        as [D | D | D];
      try destruct (Z.even (Qfloor x)); try lia; try lra.
  - pose proof (rne_floor_or_succ x). pose proof (rne_floor_or_succ y).
    lia.
Qed.

(** The magnitude and the signed value of a float. *)
Definition Fmag (x : spec_float) : Q :=
  match x with
  | S754_finite _ m e => (inject_Z (Zpos m) * bpow e)%Q
  | _ => 0%Q
  end.

Definition Fvalue (x : spec_float) : Q :=
  match x with
  | S754_finite s m e => (inject_Z (cond_Zopp s (Zpos m)) * bpow e)%Q
  | _ => 0%Q
  end.

(** [X] lies in the binade of exponent [d]. *)
Definition binade (d : Z) (X : Q) : Prop :=
  (bpow (d - 1) <= X /\ X < bpow d)%Q.

Lemma binade_unique (d d' : Z) (X : Q) :
  binade d X -> binade d' X -> d = d'.
Proof.
  intros [L H] [L' H'].
  assert (A : d - 1 < d')
    by (apply bpow_lt_inv; eapply Qle_lt_trans; eassumption).
  assert (B : d' - 1 < d)
    by (apply bpow_lt_inv; eapply Qle_lt_trans; eassumption).
  lia.
Qed.

Lemma binade_pos (d : Z) (X : Q) : binade d X -> (0 < X)%Q.
Proof.
  intros [L _]. pose proof (bpow_pos (d - 1)). lra.
Qed.

Lemma binade_mono (d d' : Z) (X Y : Q) :
  binade d X -> binade d' Y -> (X <= Y)%Q -> d <= d'.
Proof.
  intros [L H] [L' H'] Hxy.
  assert (A : d - 1 < d') by (apply bpow_lt_inv; lra).
  lia.
Qed.

(** An integer mantissa with an exponent lies in the binade given by its
    digit count. *)
Lemma binade_digits (m e : Z) (x : Q) :
  0 < m ->
  (inject_Z m <= x)%Q -> (x < inject_Z m + 1)%Q ->
  binade (Zdigits2 m + e) (x * bpow e).
Proof.
  intros Hm Hlo Hhi.
  pose proof (Zdigits2_spec m Hm) as [Dlo Dhi].
  pose proof (Zdigits2_pos m Hm) as Dpos.
  pose proof (bpow_pos e) as Pe.
  unfold binade.
  replace (Zdigits2 m + e - 1) with ((Zdigits2 m - 1) + e) by lia.
  rewrite !bpow_add.
  rewrite (bpow_Z (Zdigits2 m - 1)), (bpow_Z (Zdigits2 m)) by lia.
  rewrite Zle_Qle in Dlo.
  assert (Dhi' : (inject_Z (m + 1) <= inject_Z (2 ^ Zdigits2 m))%Q)
    by (rewrite <- Zle_Qle; lia).
  rewrite inject_Z_succ in Dhi'.
  revert Dlo Dhi'.
  generalize (inject_Z (2 ^ (Zdigits2 m - 1))), (inject_Z (2 ^ Zdigits2 m)).
  intros lo hi Dlo Dhi'.
  split.
  - apply Qmult_le_compat_r; lra.
  - apply Qmult_lt_compat_r; lra.
Qed.

Lemma rne_between (a b : Z) (x : Q) :
  (inject_Z a <= x)%Q -> (x <= inject_Z b)%Q -> a <= rne x <= b.
Proof.
  intros Ha Hb. split.
  - rewrite <- (rne_Z a). apply rne_le. exact Ha.
  - rewrite <- (rne_Z b). apply rne_le. exact Hb.
Qed.

Lemma div_bpow_le (X Y : Q) (E : Z) :
  (X <= Y)%Q -> (X / bpow E <= Y / bpow E)%Q.
Proof.
  intros H. pose proof (bpow_pos E) as P.
  apply Qmult_le_compat_r; [exact H |].
  apply Qlt_le_weak. apply Qinv_lt_0_compat. exact P.
Qed.

Lemma div_bpow_lt (X Y : Q) (E : Z) :
  (X < Y)%Q -> (X / bpow E < Y / bpow E)%Q.
Proof.
  intros H. pose proof (bpow_pos E) as P.
  apply Qmult_lt_compat_r; [| exact H].
  apply Qinv_lt_0_compat. exact P.
Qed.

Lemma Pos_iter_xO (m k : positive) :
  Zpos (Pos.iter xO m k) = Zpos m * 2 ^ Zpos k.
Proof.
  revert m. induction k as [| k IH] using Pos.peano_ind; intros m.
  - rewrite Pos.iter_succ_r || simpl. lia.
  - rewrite Pos.iter_succ, Pos2Z.inj_xO, IH, Pos2Z.inj_succ.
    rewrite Z.pow_succ_r by lia. lia.
Qed.

Lemma inject_Z_cond_Zopp (s : bool) (z : Z) :
  (inject_Z (cond_Zopp s z)
   == if s then - inject_Z z else inject_Z z)%Q.
Proof. destruct s; simpl; [rewrite inject_Z_opp |]; reflexivity. Qed.

Lemma Fvalue_Fmag (s : bool) (m : positive) (e : Z) :
  (Fvalue (S754_finite s m e)
   == if s then - Fmag (S754_finite s m e)
      else Fmag (S754_finite s m e))%Q.
Proof.
  cbn [Fvalue Fmag]. rewrite inject_Z_cond_Zopp. destruct s; ring.
Qed.

Lemma Fmag_pos (s : bool) (m : positive) (e : Z) :
  (0 < Fmag (S754_finite s m e))%Q.
Proof.
  cbn [Fmag]. pose proof (bpow_pos e).
  apply Qmult_lt_0_compat; [| assumption].
  change 0%Q with (inject_Z 0). rewrite <- Zlt_Qlt. lia.
Qed.

Lemma shl_align_value (m : positive) (e ez : Z) :
  ez <= e ->
  (inject_Z (Zpos (fst (shl_align m e ez))) * bpow ez
   == inject_Z (Zpos m) * bpow e)%Q.
Proof.
  intros H. unfold shl_align.
  destruct (ez - e) as [| d | d] eqn:Ed; cbn [fst]; try lia.
  - replace ez with e by lia. reflexivity.
  - rewrite Pos_iter_xO, inject_Z_mult.
    rewrite (bpow_split (Zpos d) ez e) by lia. ring.
Qed.

Lemma sign_of_scaled (M : Z) (p S : Q) :
  (0 < p)%Q -> (inject_Z M * p == S)%Q ->
  ((S == 0)%Q -> M = 0) /\ ((0 < S)%Q -> 0 < M) /\ ((S < 0)%Q -> M < 0).
Proof.
  intros Hp HS.
  destruct (Z.lt_trichotomy M 0) as [C | [C | C]].
  - assert (A : (inject_Z M < 0)%Q)
      by (change 0%Q with (inject_Z 0); rewrite <- Zlt_Qlt; exact C).
    assert (B : (0 < - inject_Z M * p)%Q)
      by (apply Qmult_lt_0_compat; lra).
    ring_simplify in B.
    repeat split; intros; try lia; lra.
  - subst M. change (inject_Z 0) with 0%Q in HS. ring_simplify in HS.
    repeat split; intros; try lia; lra.
  - assert (A : (0 < inject_Z M)%Q)
      by (change 0%Q with (inject_Z 0); rewrite <- Zlt_Qlt; exact C).
    assert (B : (0 < inject_Z M * p)%Q)
      by (apply Qmult_lt_0_compat; lra).
    repeat split; intros; try lia; lra.
Qed.

Lemma Zdigits2_mul_ge (a b : Z) :
  0 < a -> 0 < b -> Zdigits2 a + Zdigits2 b - 1 <= Zdigits2 (a * b).
Proof.
  intros Ha Hb.
  pose proof (Zdigits2_spec a Ha) as [Alo _].
  pose proof (Zdigits2_spec b Hb) as [Blo _].
  pose proof (Zdigits2_spec (a * b) ltac:(nia)) as [_ Chi].
  pose proof (Zdigits2_pos a Ha). pose proof (Zdigits2_pos b Hb).
  pose proof (Zdigits2_pos (a * b) ltac:(nia)).
  assert (P : 2 ^ (Zdigits2 a - 1 + (Zdigits2 b - 1)) <= a * b).
  { rewrite Z.pow_add_r by lia.
    assert (0 < 2 ^ (Zdigits2 a - 1)) by (apply Z.pow_pos_nonneg; lia).
    assert (0 < 2 ^ (Zdigits2 b - 1)) by (apply Z.pow_pos_nonneg; lia).
    nia. }
  assert (L : Zdigits2 a - 1 + (Zdigits2 b - 1) < Zdigits2 (a * b)).
  { apply (Z.pow_lt_mono_r_iff 2); lia. }
  lia.
Qed.

(** Position of a remainder [r] of a division by [n]. *)
Lemma frac_position (R N : Q) :
  (0 < N)%Q ->
  ((0 < R)%Q -> (0 < R / N)%Q)
  /\ ((R < N)%Q -> (R / N < 1)%Q)
  /\ ((2 * R < N)%Q -> (R / N < 1 # 2)%Q)
  /\ ((2 * R == N)%Q -> (R / N == 1 # 2)%Q)
  /\ ((N < 2 * R)%Q -> ((1 # 2) < R / N)%Q).
Proof.
  intros HN. repeat split; intros H.
  - apply Qlt_shift_div_l; lra.
  - apply Qlt_shift_div_r; lra.
  - apply Qlt_shift_div_r; lra.
  - rewrite <- H. field. lra.
  - apply Qlt_shift_div_l; lra.
Qed.

Lemma new_location_located (n q r : Z) :
  0 < n -> 0 <= r < n ->
  located q (new_location n r) (inject_Z (n * q + r) / inject_Z n).
Proof.
  intros Hn Hr.
  assert (N : (0 < inject_Z n)%Q)
    by (change 0%Q with (inject_Z 0); rewrite <- Zlt_Qlt; exact Hn).
  assert (HX : (inject_Z (n * q + r) / inject_Z n
                == inject_Z q + inject_Z r / inject_Z n)%Q).
  { rewrite inject_Z_plus, inject_Z_mult. field. lra. }
  destruct (frac_position (inject_Z r) (inject_Z n) N)
    as [F0 [F1 [F2 [F3 F4]]]].
  assert (T : (2 * inject_Z r == inject_Z (2 * r))%Q)
    by (rewrite inject_Z_mult; reflexivity).
  assert (R1 : (inject_Z r / inject_Z n < 1)%Q)
    by (apply F1; rewrite <- Zlt_Qlt; lia).
  assert (Par : Z.even n = false -> 2 * r <> n).
  { intros Ev E. rewrite <- E, Z.even_mul in Ev. discriminate Ev. }
  assert (Pos : 0 < r -> (0 < inject_Z r / inject_Z n)%Q).
  { intros P. apply F0. change 0%Q with (inject_Z 0).
    rewrite <- Zlt_Qlt. exact P. }
  unfold new_location, new_location_even, new_location_odd.
  change IntDef.Z.even with Z.even.
  destruct (Z.eqb_spec r 0) as [R0 | R0].
  - subst r.
    assert (G : located q loc_Exact
                  (inject_Z (n * q + 0) / inject_Z n)).
    { cbn [located]. rewrite HX. change (inject_Z 0) with 0%Q.
      field. lra. }
    destruct (Z.even n); cbv beta; cbn [Z.eqb]; exact G.
  - assert (P : 0 < r) by lia. pose proof (Pos P) as P'.
    assert (G : located q (loc_Inexact (2 * r ?= n))
                  (inject_Z (n * q + r) / inject_Z n)).
    { destruct (Z.compare_spec (2 * r) n) as [C | C | C];
        cbn [located]; rewrite HX.
      - rewrite (F3 ltac:(rewrite T, C; reflexivity)). reflexivity.
      - pose proof (F2 ltac:(rewrite T, <- Zlt_Qlt; exact C)).
        split; lra.
      - pose proof (F4 ltac:(rewrite T, <- Zlt_Qlt; exact C)).
        split; lra. }
    destruct (Z.even n) eqn:Ev; cbv beta;
      destruct (Z.eqb_spec r 0) as [R0' | _]; try lia.
    + exact G.
    + specialize (Par eq_refl).
      destruct (Z.compare_spec (2 * r) n) as [C | C | C];
        destruct (Z.compare_spec (2 * r + 1) n) as [C' | C' | C'];
        try lia; exact G.
Qed.

Lemma Fmag_binade (s : bool) (m : positive) (e : Z) :
  binade (Zdigits2 (Zpos m) + e) (Fmag (S754_finite s m e)).
Proof.
  cbn [Fmag]. apply binade_digits; [lia | lra | lra].
Qed.

Lemma scaled_compare (a b : Z) (p : Q) :
  (0 < p)%Q ->
  (inject_Z a * p ?= inject_Z b * p)%Q = (a ?= b).
Proof.
  intros Hp.
  destruct (Z.compare_spec a b) as [C | C | C].
  - subst b. apply (proj1 (Qeq_alt _ _)). reflexivity.
  - apply (proj1 (Qlt_alt _ _)).
    apply Qmult_lt_compat_r; [exact Hp |]. rewrite <- Zlt_Qlt. exact C.
  - apply (proj1 (Qgt_alt _ _)).
    apply Qmult_lt_compat_r; [exact Hp |]. rewrite <- Zlt_Qlt. exact C.
Qed.

Lemma Qcompare_opp (a b : Q) : (- a ?= - b)%Q = (b ?= a)%Q.
Proof.
  destruct (Qcompare_spec b a) as [C | C | C].
  - apply (proj1 (Qeq_alt _ _)). lra.
  - apply (proj1 (Qlt_alt _ _)). lra.
  - apply (proj1 (Qgt_alt _ _)). lra.
Qed.

Definition sign_of (x : spec_float) : bool :=
  match x with
  | S754_zero s | S754_infinity s | S754_finite s _ _ => s
  | S754_nan => false
  end.

Lemma Fvalue_sign (x : spec_float) :
  (Fvalue x == if sign_of x then - Fmag x else Fmag x)%Q.
Proof.
  destruct x as [s | s | | s m e]; try (cbn; destruct s; reflexivity);
    try reflexivity.
  apply Fvalue_Fmag.
Qed.

Lemma Fvalue_pos (x : spec_float) :
  sign_of x = false -> (Fvalue x == Fmag x)%Q.
Proof. intros H. rewrite Fvalue_sign, H. reflexivity. Qed.

Lemma binade_comp (d : Z) (X Y : Q) : (X == Y)%Q -> binade d X -> binade d Y.
Proof. intros H [L U]. unfold binade. rewrite <- H. split; assumption. Qed.

(** An integer closer than one half is the nearest one. *)
Lemma rne_near (x : Q) (z : Z) :
  (inject_Z z - (1 # 2) < x)%Q -> (x < inject_Z z + (1 # 2))%Q ->
  rne x = z.
Proof.
  intros Lo Hi. pose proof (rne_error x) as [A B].
  assert (H1 : (inject_Z (rne x) < inject_Z (z + 1))%Q)
    by (rewrite inject_Z_succ; lra).
  assert (H2 : (inject_Z z < inject_Z (rne x + 1))%Q)
    by (rewrite inject_Z_succ; lra).
  rewrite <- Zlt_Qlt in H1, H2. lia.
Qed.

Section Format.

Variables prec emax : Z.
Hypothesis Hprec : 1 < prec.
Hypothesis Hemax : prec < emax.

Local Set Default Proof Using "Hprec Hemax".

Local Abbreviation fexp := (SpecFloat.fexp prec emax).
Local Abbreviation emin := (SpecFloat.emin prec emax).

Lemma fexp_ge_emin (d : Z) : emin <= fexp d.
Proof. unfold SpecFloat.fexp. lia. Qed.

Lemma fexp_mono (d d' : Z) : d <= d' -> fexp d <= fexp d'.
Proof. unfold SpecFloat.fexp. lia. Qed.

Lemma emin_neg : emin < 0.
Proof. unfold SpecFloat.emin. lia. Qed.

(** The last step of a rounding: the rounded mantissa [q] at exponent [E]
    is normalised once more (it may have reached [2^prec]) and checked
    against the largest exponent. *)
Definition encode (s : bool) (q E : Z) : spec_float :=
  let '(mrs, e) := shr_fexp prec emax q E loc_Exact in
  match shr_m mrs with
  | Z0 => S754_zero s
  | Zpos m =>
      if e <=? emax - prec then S754_finite s m e else S754_infinity s
  | Zneg _ => S754_nan
  end.

Lemma binary_round_aux_encode (s : bool) (m e : Z) (l : location) (x : Q) :
  0 <= m ->
  located m l x ->
  e <= fexp (Zdigits2 m + e) ->
  binary_round_aux prec emax s m e l
  = encode s (rne (x / bpow (fexp (Zdigits2 m + e) - e)))
      (fexp (Zdigits2 m + e)).
Proof.
  intros Hm H He.
  unfold binary_round_aux, encode.
  unfold shr_fexp at 1.
  pose proof (shr_located m l x e (fexp (Zdigits2 m + e) - e) Hm
                ltac:(lia) H) as S.
  destruct (shr (shr_record_of_loc m l) e (fexp (Zdigits2 m + e) - e))
    as [mrs e'].
  destruct S as [-> [S _]].
  rewrite (round_nearest_even_rne _ _ _ S).
  replace (e + (fexp (Zdigits2 m + e) - e)) with (fexp (Zdigits2 m + e))
    by lia.
  reflexivity.
Qed.

Lemma encode_zero (s : bool) (E : Z) : encode s 0 E = S754_zero s.
Proof.
  unfold encode, shr_fexp. cbn [Zdigits2 shr_record_of_loc].
  destruct (fexp (0 + E) - E) as [| p | p]; cbn [shr]; try reflexivity.
  pose proof (iter_shr_1_located p {| shr_m := 0; shr_r := false;
                                      shr_s := false |} 0%Q
                ltac:(simpl; lia) ltac:(unfold located_rec; simpl; reflexivity))
    as [L _].
  apply located_floor in L.
  assert (Z : Qfloor (0 / bpow (Zpos p)) = 0).
  { apply Qfloor_unique.
    - change (inject_Z 0) with 0%Q. unfold Qdiv. lra.
    - change (inject_Z 0) with 0%Q. unfold Qdiv. lra. }
  rewrite Z in L. rewrite <- L. reflexivity.
Qed.

Lemma encode_small (s : bool) (q E : Z) :
  0 < q < 2 ^ prec -> emin <= E ->
  encode s q E
  = if E <=? emax - prec then S754_finite s (Z.to_pos q) E
    else S754_infinity s.
Proof.
  intros Hq HE.
  assert (Hd : Zdigits2 q <= prec).
  { pose proof (Zdigits2_spec q ltac:(lia)) as [Dlo _].
    destruct (Z_lt_le_dec prec (Zdigits2 q)) as [C |]; [| assumption].
    assert (2 ^ prec <= 2 ^ (Zdigits2 q - 1))
      by (apply Z.pow_le_mono_r; lia).
    lia. }
  unfold encode, shr_fexp.
  assert (Hn : fexp (Zdigits2 q + E) - E <= 0)
    by (unfold SpecFloat.fexp; lia).
  destruct (fexp (Zdigits2 q + E) - E) as [| p | p] eqn:En;
    try lia; cbn [shr shr_record_of_loc shr_m];
    destruct q as [| q | q]; try lia; reflexivity.
Qed.

Lemma encode_carry (s : bool) (E : Z) :
  emin <= E ->
  encode s (2 ^ prec) E
  = if E + 1 <=? emax - prec
    then S754_finite s (Z.to_pos (2 ^ (prec - 1))) (E + 1)
    else S754_infinity s.
Proof.
  intros HE.
  assert (P : 0 < 2 ^ prec) by (apply Z.pow_pos_nonneg; lia).
  assert (P1 : 0 < 2 ^ (prec - 1)) by (apply Z.pow_pos_nonneg; lia).
  assert (Hd : Zdigits2 (2 ^ prec) = prec + 1).
  { apply Zdigits2_unique; [exact P |].
    replace (prec + 1 - 1) with prec by lia.
    split; [lia |]. apply Z.pow_lt_mono_r; lia. }
  unfold encode, shr_fexp. rewrite Hd.
  replace (fexp (prec + 1 + E) - E) with 1
    by (unfold SpecFloat.fexp; lia).
  pose proof (shr_located (2 ^ prec) loc_Exact (inject_Z (2 ^ prec)) E 1
                ltac:(lia) ltac:(lia) ltac:(simpl; reflexivity)) as S.
  destruct (shr (shr_record_of_loc (2 ^ prec) loc_Exact) E 1) as [mrs e].
  destruct S as [-> [S _]].
  apply located_floor in S.
  assert (P2 : 2 ^ prec = 2 ^ (prec - 1) * 2).
  { replace prec with (Z.succ (prec - 1)) at 1 by lia.
    rewrite Z.pow_succ_r by lia. lia. }
  assert (F : Qfloor (inject_Z (2 ^ prec) / bpow 1) = 2 ^ (prec - 1)).
  { rewrite P2, inject_Z_mult. change (bpow 1) with 2%Q.
    change (inject_Z 2) with 2%Q.
    apply Qfloor_unique; field_simplify; lra. }
  rewrite F in S. rewrite <- S.
  destruct (2 ^ (prec - 1)) as [| p | p]; try lia. reflexivity.
Qed.

(** ** Rounding a positive rational to the format *)

(** The rounded mantissa and the rounded value of [X] in the binade [d]. *)
Definition rq (d : Z) (X : Q) : Z := rne (X / bpow (fexp d)).

Definition rval (d : Z) (X : Q) : Q :=
  (inject_Z (rq d X) * bpow (fexp d))%Q.

(** [r] is the float that rounding the positive [X], with sign [s],
    produces. *)
Definition rounded (s : bool) (X : Q) (r : spec_float) : Prop :=
  exists d, binade d X /\ r = encode s (rq d X) (fexp d).

Lemma rounded_unique (s : bool) (X : Q) (r r' : spec_float) :
  rounded s X r -> rounded s X r' -> r = r'.
Proof.
  intros [d [B ->]] [d' [B' ->]].
  rewrite (binade_unique d d' X B B'). reflexivity.
Qed.

Lemma rq_comp (d : Z) (X Y : Q) : (X == Y)%Q -> rq d X = rq d Y.
Proof. intros H. unfold rq. apply rne_comp. rewrite H. reflexivity. Qed.

Lemma rounded_comp (s : bool) (X Y : Q) (r : spec_float) :
  (X == Y)%Q -> rounded s X r -> rounded s Y r.
Proof.
  intros H [d [B ->]]. exists d. split; [exact (binade_comp d X Y H B) |].
  rewrite (rq_comp d X Y H). reflexivity.
Qed.

(** In a normal binade the rounded mantissa has [prec] digits, or is
    [2^prec]. *)
Lemma rq_normal (d : Z) (X : Q) :
  binade d X -> emin <= d - prec ->
  fexp d = d - prec /\ 2 ^ (prec - 1) <= rq d X <= 2 ^ prec.
Proof.
  intros [L U] Hn.
  assert (E : fexp d = d - prec) by (unfold SpecFloat.fexp; lia).
  split; [exact E |]. unfold rq. rewrite E.
  assert (A : (bpow (d - 1) / bpow (d - prec) == bpow (prec - 1))%Q).
  { rewrite <- bpow_sub.
    replace (d - 1 - (d - prec)) with (prec - 1) by lia. reflexivity. }
  assert (B : (bpow d / bpow (d - prec) == bpow prec)%Q).
  { rewrite <- bpow_sub.
    replace (d - (d - prec)) with prec by lia. reflexivity. }
  apply rne_between.
  - rewrite <- bpow_Z, <- A by lia. apply div_bpow_le. exact L.
  - rewrite <- bpow_Z, <- B by lia.
    apply Qlt_le_weak. apply div_bpow_lt. exact U.
Qed.

(** Below the normal binades the rounded mantissa has fewer digits. *)
Lemma rq_subnormal (d : Z) (X : Q) :
  binade d X -> d - prec < emin ->
  fexp d = emin /\ 0 <= rq d X <= 2 ^ (prec - 1).
Proof.
  intros [L U] Hn.
  assert (E : fexp d = emin) by (unfold SpecFloat.fexp; lia).
  split; [exact E |]. unfold rq. rewrite E.
  pose proof (bpow_pos (d - 1)) as P1.
  pose proof (bpow_pos emin) as Pe.
  apply rne_between.
  - change (inject_Z 0) with 0%Q.
    apply Qle_shift_div_l; [exact Pe | lra].
  - rewrite <- bpow_Z by lia.
    apply Qle_trans with (bpow (d - emin)).
    + rewrite (bpow_sub d). apply Qlt_le_weak. apply div_bpow_lt. exact U.
    + apply bpow_le. lia.
Qed.

Lemma rq_range (d : Z) (X : Q) : binade d X -> 0 <= rq d X <= 2 ^ prec.
Proof.
  intros B.
  assert (P : 0 < 2 ^ (prec - 1)) by (apply Z.pow_pos_nonneg; lia).
  assert (M : 2 ^ (prec - 1) <= 2 ^ prec)
    by (apply Z.pow_le_mono_r; lia).
  destruct (Z_le_gt_dec emin (d - prec)) as [Hn | Hs].
  - destruct (rq_normal d X B Hn) as [_ H]. lia.
  - destruct (rq_subnormal d X B ltac:(lia)) as [_ H]. lia.
Qed.

(** The distance between [X] and its rounded value is at most half a
    unit in the last place. *)
Lemma rval_error (d : Z) (X : Q) :
  (rval d X - bpow (fexp d - 1) <= X
   /\ X <= rval d X + bpow (fexp d - 1))%Q.
Proof.
  unfold rval, rq.
  pose proof (rne_error (X / bpow (fexp d))) as [A B].
  pose proof (bpow_pos (fexp d)) as P.
  rewrite bpow_pred.
  assert (EX : (X == X / bpow (fexp d) * bpow (fexp d))%Q)
    by (field; lra).
  revert A B EX.
  generalize (X / bpow (fexp d))%Q, (inject_Z (rne (X / bpow (fexp d)))).
  intros y n A B EX. rewrite EX.
  generalize dependent (bpow (fexp d)). intros p P EX.
  assert (A' : (0 <= (y - (n - (1 # 2))) * p)%Q)
    by (apply Qmult_le_0_compat; lra).
  assert (B' : (0 <= (n + (1 # 2) - y) * p)%Q)
    by (apply Qmult_le_0_compat; lra).
  ring_simplify in A'. ring_simplify in B'. split; lra.
Qed.

Lemma rval_error_rel (d : Z) (X : Q) :
  binade d X -> emin <= d - prec ->
  (X * (1 - bpow (- prec)) <= rval d X
   /\ rval d X <= X * (1 + bpow (- prec)))%Q.
Proof.
  intros [L U] Hn.
  pose proof (rval_error d X) as [A B].
  assert (E : fexp d = d - prec) by (unfold SpecFloat.fexp; lia).
  rewrite E in A, B.
  replace (d - prec - 1) with ((d - 1) + - prec) in A, B by lia.
  rewrite bpow_add in A, B.
  pose proof (bpow_pos (- prec)) as Pp.
  generalize dependent (bpow (- prec)). generalize dependent (bpow (d - 1)).
  intros a L u A B Pu.
  assert (C : (0 <= (X - a) * u)%Q) by (apply Qmult_le_0_compat; lra).
  ring_simplify in C. split; lra.
Qed.

(** A value that the format holds is left unchanged. *)
Lemma rval_exact (d : Z) (X : Q) (m e : Z) :
  (X == inject_Z m * bpow e)%Q -> fexp d <= e -> (rval d X == X)%Q.
Proof.
  intros HX He. unfold rval, rq.
  pose proof (bpow_pos (fexp d)) as P.
  assert (EQ : (X / bpow (fexp d) == inject_Z (m * 2 ^ (e - fexp d)))%Q).
  { rewrite inject_Z_mult, <- bpow_Z by lia. rewrite bpow_sub, HX.
    field. lra. }
  rewrite (rne_comp _ _ EQ), rne_Z, <- EQ. field. lra.
Qed.

(** Rounding is monotone. *)
Lemma rval_mono (d d' : Z) (X Y : Q) :
  binade d X -> binade d' Y -> (X <= Y)%Q -> (rval d X <= rval d' Y)%Q.
Proof.
  intros B B' H.
  pose proof (binade_mono d d' X Y B B' H) as Hd.
  pose proof (fexp_mono d d' Hd) as HE.
  destruct (Z.eq_dec (fexp d) (fexp d')) as [EQ | NE].
  - unfold rval, rq. rewrite <- EQ.
    pose proof (bpow_pos (fexp d)) as P.
    apply Qmult_le_compat_r; [| lra].
    rewrite <- Zle_Qle. apply rne_le. apply div_bpow_le. exact H.
  - assert (Hn' : emin <= d' - prec).
    { pose proof (fexp_ge_emin d). unfold SpecFloat.fexp in *. lia. }
    destruct (rq_normal d' Y B' Hn') as [E' [Q' _]].
    pose proof bpow_split as Split.
    apply Qle_trans with (bpow (d' - 1)).
    + destruct (Z_le_gt_dec emin (d - prec)) as [Hn | Hs].
      * destruct (rq_normal d X B Hn) as [E [_ Q1]].
        unfold rval. rewrite E.
        apply Qle_trans with (bpow d); [| apply bpow_le; lia].
        rewrite (Split prec (d - prec) d) by lia.
        pose proof (bpow_pos (d - prec)) as P.
        apply Qmult_le_compat_r; [| lra].
        rewrite <- Zle_Qle. exact Q1.
      * destruct (rq_subnormal d X B ltac:(lia)) as [E [_ Q1]].
        unfold rval. rewrite E.
        apply Qle_trans with (bpow (prec - 1 + emin));
          [| apply bpow_le; lia].
        rewrite (Split (prec - 1) emin (prec - 1 + emin)) by lia.
        pose proof (bpow_pos emin) as P.
        apply Qmult_le_compat_r; [| lra].
        rewrite <- Zle_Qle. exact Q1.
    + unfold rval. rewrite E'.
      rewrite (Split (prec - 1) (d' - prec) (d' - 1)) by lia.
      pose proof (bpow_pos (d' - prec)) as P.
      apply Qmult_le_compat_r; [| lra].
      rewrite <- Zle_Qle. exact Q'.
Qed.

(** ** What a rounding returns *)

Lemma Zdigits2_le_prec (q : Z) : 0 < q < 2 ^ prec -> Zdigits2 q <= prec.
Proof.
  intros Hq.
  pose proof (Zdigits2_spec q ltac:(lia)) as [Dlo _].
  destruct (Z_lt_le_dec prec (Zdigits2 q)) as [C |]; [| assumption].
  assert (2 ^ prec <= 2 ^ (Zdigits2 q - 1))
    by (apply Z.pow_le_mono_r; lia).
  lia.
Qed.

Lemma bounded_intro (m : positive) (e : Z) :
  fexp (Zdigits2 (Zpos m) + e) = e -> e <= emax - prec ->
  bounded prec emax m e = true.
Proof.
  intros Hc He. unfold bounded, canonical_mantissa.
  change (Zpos (digits2_pos m)) with (Zdigits2 (Zpos m)).
  rewrite Hc, Z.eqb_refl. apply Z.leb_le in He. rewrite He. reflexivity.
Qed.

Lemma bounded_inv (m : positive) (e : Z) :
  bounded prec emax m e = true ->
  fexp (Zdigits2 (Zpos m) + e) = e /\ e <= emax - prec.
Proof.
  unfold bounded, canonical_mantissa. intros H.
  apply andb_prop in H. destruct H as [Hc He].
  apply Z.eqb_eq in Hc. apply Z.leb_le in He. split; assumption.
Qed.

(** A canonical mantissa has [prec] digits, or the least exponent. *)
Lemma bounded_shape (m : positive) (e : Z) :
  bounded prec emax m e = true ->
  Zdigits2 (Zpos m) <= prec
  /\ emin <= e <= emax - prec
  /\ (Zdigits2 (Zpos m) = prec \/ e = emin).
Proof.
  intros H. apply bounded_inv in H. destruct H as [Hc He].
  unfold SpecFloat.fexp in Hc. lia.
Qed.

Lemma rounded_inv (s : bool) (X : Q) (r : spec_float) :
  rounded s X r ->
  exists d,
    binade d X
    /\ ((r = S754_zero s /\ (X < bpow emin)%Q /\ rq d X = 0)
        \/ (r = S754_infinity s /\ (bpow (emax - 1) <= X)%Q)
        \/ (exists m e,
               r = S754_finite s m e
               /\ bounded prec emax m e = true
               /\ (inject_Z (Zpos m) * bpow e == rval d X)%Q)).
Proof.
  intros [d [B ->]]. exists d. split; [exact B |].
  assert (P1 : 0 < 2 ^ (prec - 1)) by (apply Z.pow_pos_nonneg; lia).
  assert (P2 : 2 ^ prec = 2 ^ (prec - 1) * 2).
  { replace prec with (Z.succ (prec - 1)) at 1 by lia.
    rewrite Z.pow_succ_r by lia. lia. }
  destruct (Z_le_gt_dec emin (d - prec)) as [Hn | Hs].
  - (* a normal binade *)
    destruct (rq_normal d X B Hn) as [E [Qlo Qhi]].
    destruct (Z.eq_dec (rq d X) (2 ^ prec)) as [C | NC].
    + (* the mantissa reached 2^prec *)
      rewrite C, encode_carry by (rewrite E; lia).
      destruct (fexp d + 1 <=? emax - prec) eqn:Le.
      * apply Z.leb_le in Le. right. right.
        exists (Z.to_pos (2 ^ (prec - 1))), (fexp d + 1).
        split; [reflexivity |].
        assert (D : Zdigits2 (2 ^ (prec - 1)) = prec).
        { apply Zdigits2_unique; [exact P1 |]. split; [lia |].
          apply Z.pow_lt_mono_r; lia. }
        split.
        -- apply bounded_intro; [| exact Le].
           rewrite Z2Pos.id by exact P1. rewrite D.
           unfold SpecFloat.fexp in *. lia.
        -- unfold rval. rewrite C, Z2Pos.id by exact P1.
           rewrite bpow_succ, P2, inject_Z_mult.
           change (inject_Z 2) with 2%Q. ring.
      * apply Z.leb_gt in Le. right. left.
        split; [reflexivity |].
        destruct B as [L _].
        apply Qle_trans with (bpow (d - 1)); [| exact L].
        apply bpow_le. lia.
    + rewrite encode_small by (rewrite ?E; lia).
      destruct (fexp d <=? emax - prec) eqn:Le.
      * apply Z.leb_le in Le. right. right.
        exists (Z.to_pos (rq d X)), (fexp d).
        split; [reflexivity |].
        assert (D : Zdigits2 (rq d X) = prec).
        { apply Zdigits2_unique; lia. }
        split.
        -- apply bounded_intro; [| exact Le].
           rewrite Z2Pos.id by lia. rewrite D.
           unfold SpecFloat.fexp in *. lia.
        -- unfold rval. rewrite Z2Pos.id by lia. reflexivity.
      * apply Z.leb_gt in Le. right. left.
        split; [reflexivity |].
        destruct B as [L _].
        apply Qle_trans with (bpow (d - 1)); [| exact L].
        apply bpow_le. lia.
  - (* below the normal binades *)
    destruct (rq_subnormal d X B ltac:(lia)) as [E [Qlo Qhi]].
    destruct (Z.eq_dec (rq d X) 0) as [C | NC].
    + rewrite C, encode_zero. left. split; [reflexivity |].
      split; [| reflexivity].
      pose proof (rval_error d X) as [_ U].
      unfold rval in U. rewrite C, E in U.
      rewrite bpow_pred in U. change (inject_Z 0) with 0%Q in U.
      pose proof (bpow_pos emin). lra.
    + pose proof emin_neg as En.
      rewrite encode_small by (rewrite ?E; lia).
      assert (Le : fexp d <= emax - prec) by (rewrite E; lia).
      apply Z.leb_le in Le. rewrite Le. apply Z.leb_le in Le.
      right. right.
      exists (Z.to_pos (rq d X)), (fexp d).
      split; [reflexivity |].
      split.
      * apply bounded_intro; [| exact Le].
        rewrite Z2Pos.id by lia.
        pose proof (Zdigits2_le_prec (rq d X) ltac:(lia)).
        pose proof (Zdigits2_pos (rq d X) ltac:(lia)).
        unfold SpecFloat.fexp in *. lia.
      * unfold rval. rewrite Z2Pos.id by lia. reflexivity.
Qed.

(** Within the range of the format a rounding returns a finite
    float. *)
Lemma rounded_finite (s : bool) (X : Q) (r : spec_float) :
  rounded s X r ->
  (bpow emin <= X)%Q -> (X < bpow (emax - 1))%Q ->
  exists d m e,
    binade d X
    /\ r = S754_finite s m e
    /\ bounded prec emax m e = true
    /\ (inject_Z (Zpos m) * bpow e == rval d X)%Q.
Proof.
  intros H Lo Hi.
  destruct (rounded_inv s X r H)
    as [d [B [[_ [C _]] | [[_ C] | [m [e C]]]]]];
    try lra.
  exists d, m, e. tauto.
Qed.

Lemma binary_round_aux_rounded (s : bool) (m e : Z) (l : location) (x : Q) :
  0 < m ->
  located m l x ->
  e <= fexp (Zdigits2 m + e) ->
  rounded s (x * bpow e) (binary_round_aux prec emax s m e l).
Proof.
  intros Hm H He.
  rewrite (binary_round_aux_encode s m e l x) by (lia || assumption).
  exists (Zdigits2 m + e). split.
  - apply located_bounds in H. apply binade_digits; tauto.
  - unfold rq. f_equal. apply rne_comp.
    rewrite bpow_sub.
    pose proof (bpow_pos e). pose proof (bpow_pos (fexp (Zdigits2 m + e))).
    field. lra.
Qed.

Lemma binary_round_rounded (s : bool) (m : positive) (e : Z) :
  rounded s (inject_Z (Zpos m) * bpow e) (binary_round prec emax s m e).
Proof.
  unfold binary_round, shl_align.
  change (Zpos (digits2_pos m)) with (Zdigits2 (Zpos m)).
  destruct (fexp (Zdigits2 (Zpos m) + e) - e) as [| k | k] eqn:Ek.
  - apply binary_round_aux_rounded; [lia | simpl; reflexivity | lia].
  - apply binary_round_aux_rounded; [lia | simpl; reflexivity | lia].
  - remember (fexp (Zdigits2 (Zpos m) + e)) as E eqn:HE.
    apply (rounded_comp s (inject_Z (Zpos (Pos.iter xO m k)) * bpow E)).
    + rewrite Pos_iter_xO, inject_Z_mult.
      rewrite (bpow_split (Zpos k) E e) by lia. ring.
    + apply binary_round_aux_rounded; [lia | simpl; reflexivity |].
      rewrite Pos_iter_xO, Zdigits2_mul_pow2 by lia.
      replace (Zdigits2 (Zpos m) + Zpos k + E)
        with (Zdigits2 (Zpos m) + e) by lia.
      rewrite <- HE. lia.
Qed.

Lemma binary_normalize_rounded (M e : Z) (szero : bool) :
  (M = 0 -> binary_normalize prec emax M e szero = S754_zero szero)
  /\ (0 < M ->
      rounded false (inject_Z M * bpow e)
        (binary_normalize prec emax M e szero))
  /\ (M < 0 ->
      rounded true (- (inject_Z M * bpow e))
        (binary_normalize prec emax M e szero)).
Proof.
  destruct M as [| p | p]; (split; [| split]); intros H; try lia.
  - reflexivity.
  - apply binary_round_rounded.
  - cbn [binary_normalize].
    apply (rounded_comp true (inject_Z (Zpos p) * bpow e)).
    + change (Zneg p) with (- Zpos p). rewrite inject_Z_opp. ring.
    + apply binary_round_rounded.
Qed.

(** ** The arithmetic operations on finite operands *)

(** Addition and subtraction of two finite floats: the exact sum is
    rounded, and an exact zero is [+0]. *)
Lemma SFadd_finite (sx sy : bool) (mx my : positive) (ex ey : Z) :
  let x := S754_finite sx mx ex in
  let y := S754_finite sy my ey in
  ((Fvalue x + Fvalue y == 0)%Q -> SFadd prec emax x y = S754_zero false)
  /\ ((0 < Fvalue x + Fvalue y)%Q ->
      rounded false (Fvalue x + Fvalue y) (SFadd prec emax x y))
  /\ ((Fvalue x + Fvalue y < 0)%Q ->
      rounded true (- (Fvalue x + Fvalue y)) (SFadd prec emax x y)).
Proof.
  intros x y. cbn [SFadd x y].
  set (ez := Z.min ex ey).
  set (M := cond_Zopp sx (Zpos (fst (shl_align mx ex ez)))
            + cond_Zopp sy (Zpos (fst (shl_align my ey ez)))).
  assert (HM : (inject_Z M * bpow ez == Fvalue x + Fvalue y)%Q).
  { unfold M. rewrite inject_Z_plus, !inject_Z_cond_Zopp.
    pose proof (shl_align_value mx ex ez ltac:(unfold ez; lia)) as Ax.
    pose proof (shl_align_value my ey ez ltac:(unfold ez; lia)) as Ay.
    cbn [Fvalue x y]. rewrite !inject_Z_cond_Zopp.
    destruct sx, sy; lra. }
  destruct (sign_of_scaled M (bpow ez) _ (bpow_pos ez) HM) as [S0 [S1 S2]].
  destruct (binary_normalize_rounded M ez false) as [N0 [N1 N2]].
  split; [| split]; intros H.
  - apply N0, S0, H.
  - apply (rounded_comp false _ _ _ HM). apply N1, S1, H.
  - apply (rounded_comp true (- (inject_Z M * bpow ez))).
    + rewrite HM. reflexivity.
    + apply N2, S2, H.
Qed.

Lemma SFsub_finite (sx sy : bool) (mx my : positive) (ex ey : Z) :
  let x := S754_finite sx mx ex in
  let y := S754_finite sy my ey in
  ((Fvalue x - Fvalue y == 0)%Q -> SFsub prec emax x y = S754_zero false)
  /\ ((0 < Fvalue x - Fvalue y)%Q ->
      rounded false (Fvalue x - Fvalue y) (SFsub prec emax x y))
  /\ ((Fvalue x - Fvalue y < 0)%Q ->
      rounded true (- (Fvalue x - Fvalue y)) (SFsub prec emax x y)).
Proof.
  intros x y. cbn [SFsub x y].
  set (ez := Z.min ex ey).
  set (M := cond_Zopp sx (Zpos (fst (shl_align mx ex ez)))
            - cond_Zopp sy (Zpos (fst (shl_align my ey ez)))).
  assert (HM : (inject_Z M * bpow ez == Fvalue x - Fvalue y)%Q).
  { unfold M. unfold Z.sub. rewrite inject_Z_plus, inject_Z_opp.
    rewrite !inject_Z_cond_Zopp.
    pose proof (shl_align_value mx ex ez ltac:(unfold ez; lia)) as Ax.
    pose proof (shl_align_value my ey ez ltac:(unfold ez; lia)) as Ay.
    cbn [Fvalue x y]. rewrite !inject_Z_cond_Zopp.
    destruct sx, sy; lra. }
  destruct (sign_of_scaled M (bpow ez) _ (bpow_pos ez) HM) as [S0 [S1 S2]].
  destruct (binary_normalize_rounded M ez false) as [N0 [N1 N2]].
  split; [| split]; intros H.
  - apply N0, S0, H.
  - apply (rounded_comp false _ _ _ HM). apply N1, S1, H.
  - apply (rounded_comp true (- (inject_Z M * bpow ez))).
    + rewrite HM. reflexivity.
    + apply N2, S2, H.
Qed.

(** Multiplication of two finite floats of the format. *)
Lemma SFmul_finite (sx sy : bool) (mx my : positive) (ex ey : Z) :
  bounded prec emax mx ex = true ->
  bounded prec emax my ey = true ->
  rounded (xorb sx sy)
    (Fmag (S754_finite sx mx ex) * Fmag (S754_finite sy my ey))
    (SFmul prec emax (S754_finite sx mx ex) (S754_finite sy my ey)).
Proof.
  intros Bx By. cbn [SFmul Fmag].
  apply (rounded_comp _ (inject_Z (Zpos (mx * my)) * bpow (ex + ey))).
  - rewrite Pos2Z.inj_mul, inject_Z_mult, bpow_add. ring.
  - apply binary_round_aux_rounded; [lia | simpl; reflexivity |].
    destruct (bounded_shape mx ex Bx) as [Dx [Ex Sx]].
    destruct (bounded_shape my ey By) as [Dy [Ey Sy]].
    pose proof (Zdigits2_mul_ge (Zpos mx) (Zpos my) ltac:(lia) ltac:(lia))
      as Dm.
    rewrite <- Pos2Z.inj_mul in Dm.
    pose proof (Zdigits2_pos (Zpos mx) ltac:(lia)).
    pose proof (Zdigits2_pos (Zpos my) ltac:(lia)).
    pose proof emin_neg.
    unfold SpecFloat.fexp. lia.
Qed.

(** Division of two finite floats whose quotient is not below the normal
    range. *)
Lemma SFdiv_finite (sx sy : bool) (mx my : positive) (ex ey : Z) :
  (bpow (emin + prec)
   <= Fmag (S754_finite sx mx ex) / Fmag (S754_finite sy my ey))%Q ->
  rounded (xorb sx sy)
    (Fmag (S754_finite sx mx ex) / Fmag (S754_finite sy my ey))
    (SFdiv prec emax (S754_finite sx mx ex) (S754_finite sy my ey)).
Proof.
  intros HX.
  destruct (Fmag_binade sx mx ex) as [Alo Ahi].
  destruct (Fmag_binade sy my ey) as [Blo Bhi].
  pose proof (Fmag_pos sx mx ex) as Apos.
  pose proof (Fmag_pos sy my ey) as Bpos.
  pose proof (Zdigits2_spec (Zpos mx) ltac:(lia)) as [D1lo D1hi].
  pose proof (Zdigits2_spec (Zpos my) ltac:(lia)) as [D2lo D2hi].
  pose proof (Zdigits2_pos (Zpos mx) ltac:(lia)) as D1pos.
  pose proof (Zdigits2_pos (Zpos my) ltac:(lia)) as D2pos.
  cbn [SFdiv]. unfold SFdiv_core_binary.
  set (d1 := Zdigits2 (Zpos mx)) in *.
  set (d2 := Zdigits2 (Zpos my)) in *.
  set (D := d1 + ex - (d2 + ey)).
  set (e' := Z.min (fexp D) (ex - ey)).
  set (s := ex - ey - e').
  assert (Hs : 0 <= s) by (unfold s, e'; lia).
  (* the quotient lies in a normal binade *)
  assert (HD : emin + prec <= D).
  { assert (U : (Fmag (S754_finite sx mx ex)
                 / Fmag (S754_finite sy my ey) < bpow (D + 1))%Q).
    { apply Qlt_shift_div_r; [exact Bpos |].
      apply Qlt_le_trans with (bpow (d1 + ex)); [exact Ahi |].
      apply Qle_trans with (bpow (D + 1) * bpow (d2 + ey - 1))%Q.
      - rewrite <- bpow_add. apply bpow_le. unfold D. lia.
      - pose proof (bpow_pos (D + 1)).
        apply Qmult_le_l; assumption. }
    assert (emin + prec < D + 1) by (apply bpow_lt_inv; lra).
    lia. }
  assert (He' : e' <= D - prec)
    by (unfold e', SpecFloat.fexp; lia).
  set (m' := match s with
             | 0 => Zpos mx
             | Zpos _ => Z.shiftl (Zpos mx) s
             | Zneg _ => 0
             end).
  assert (Hm' : m' = Zpos mx * 2 ^ s).
  { unfold m'. destruct s as [| p | p] eqn:Es; try lia.
    rewrite Z.shiftl_mul_pow2 by lia. reflexivity. }
  pose proof (Z_div_mod m' (Zpos my) eq_refl) as DM.
  change IntDef.Z.div_eucl with Z.div_eucl.
  destruct (Z.div_eucl m' (Zpos my)) as [q r].
  destruct DM as [Hq Hr].
  set (t := d1 - 1 + s - d2).
  assert (Ht : prec - 1 <= t) by (unfold t, s, D in *; lia).
  assert (Q2 : 2 ^ t <= q).
  { assert (P1 : 2 ^ (t + d2) = 2 ^ (d1 - 1) * 2 ^ s).
    { rewrite <- Z.pow_add_r by lia. f_equal. unfold t. lia. }
    rewrite Z.pow_add_r in P1 by lia.
    assert (0 < 2 ^ s) by (apply Z.pow_pos_nonneg; lia).
    assert (0 < 2 ^ t) by (apply Z.pow_pos_nonneg; lia).
    assert (0 < 2 ^ d2) by (apply Z.pow_pos_nonneg; lia).
    nia. }
  assert (Qpos : 0 < q).
  { assert (0 < 2 ^ t) by (apply Z.pow_pos_nonneg; lia). lia. }
  assert (Dq : t + 1 <= Zdigits2 q).
  { pose proof (Zdigits2_spec q Qpos) as [_ Qhi].
    pose proof (Zdigits2_pos q Qpos).
    assert (t < Zdigits2 q) by (apply (Z.pow_lt_mono_r_iff 2); lia).
    lia. }
  apply (rounded_comp _
           (inject_Z (Zpos my * q + r) / inject_Z (Zpos my) * bpow e')%Q).
  - rewrite <- Hq, Hm', inject_Z_mult. cbn [Fmag].
    assert (E1 : (bpow ex == inject_Z (2 ^ s) * bpow e' * bpow ey)%Q).
    { rewrite (bpow_split s (e' + ey) ex) by (unfold s; lia).
      rewrite bpow_add. ring. }
    rewrite E1.
    pose proof (bpow_pos ey). pose proof (bpow_pos e').
    assert ((0 < inject_Z (Zpos my))%Q)
      by (change 0%Q with (inject_Z 0); rewrite <- Zlt_Qlt; lia).
    field. split; lra.
  - apply binary_round_aux_rounded; [exact Qpos | |].
    + apply new_location_located; lia.
    + apply Z.le_trans with (fexp D).
      * unfold e'. lia.
      * apply fexp_mono. unfold t, s, D in *. lia.
Qed.

(** ** Order *)

(** Among canonical mantissas the exponent decides. *)
Lemma canonical_lt (m1 m2 : positive) (e1 e2 : Z) :
  bounded prec emax m1 e1 = true ->
  bounded prec emax m2 e2 = true ->
  e1 < e2 ->
  (inject_Z (Zpos m1) * bpow e1 < inject_Z (Zpos m2) * bpow e2)%Q.
Proof.
  intros B1 B2 He.
  destruct (bounded_shape m1 e1 B1) as [D1 [E1 _]].
  destruct (bounded_shape m2 e2 B2) as [D2 [E2 S2]].
  assert (D2' : Zdigits2 (Zpos m2) = prec) by lia.
  pose proof (Zdigits2_spec (Zpos m1) ltac:(lia)) as [_ H1].
  pose proof (Zdigits2_spec (Zpos m2) ltac:(lia)) as [H2 _].
  rewrite D2' in H2.
  assert (H1' : Zpos m1 < 2 ^ prec).
  { apply Z.lt_le_trans with (2 ^ Zdigits2 (Zpos m1)); [exact H1 |].
    apply Z.pow_le_mono_r; lia. }
  pose proof (bpow_pos e1) as P1. pose proof (bpow_pos e2) as P2.
  apply Qlt_le_trans with (inject_Z (2 ^ prec) * bpow e1)%Q.
  - apply Qmult_lt_compat_r; [exact P1 |]. rewrite <- Zlt_Qlt. exact H1'.
  - apply Qle_trans with (inject_Z (2 ^ (prec - 1)) * bpow e2)%Q.
    + rewrite <- !bpow_Z, <- !bpow_add by lia. apply bpow_le. lia.
    + apply Qmult_le_compat_r; [| lra]. rewrite <- Zle_Qle. exact H2.
Qed.

Lemma compare_finite_pos (m1 m2 : positive) (e1 e2 : Z) :
  bounded prec emax m1 e1 = true ->
  bounded prec emax m2 e2 = true ->
  match e1 ?= e2 with
  | Lt => Lt
  | Gt => Gt
  | Eq => Pos.compare_cont Eq m1 m2
  end
  = (inject_Z (Zpos m1) * bpow e1 ?= inject_Z (Zpos m2) * bpow e2)%Q.
Proof.
  intros B1 B2.
  destruct (Z.compare_spec e1 e2) as [C | C | C].
  - subst e2. rewrite scaled_compare by apply bpow_pos. reflexivity.
  - symmetry. apply (proj1 (Qlt_alt _ _)).
    apply canonical_lt; assumption.
  - symmetry. apply (proj1 (Qgt_alt _ _)).
    apply canonical_lt; assumption.
Qed.

(** On finite floats of the format the comparison of [SpecFloat] is the
    order of the values. *)
Lemma SFcompare_value (x y : spec_float) :
  valid_binary prec emax x = true ->
  valid_binary prec emax y = true ->
  finite_or_zero x = true -> finite_or_zero y = true ->
  SFcompare x y = Some (Fvalue x ?= Fvalue y)%Q.
Proof.
  intros Vx Vy Fx Fy.
  destruct x as [sx | sx | | sx mx ex], y as [sy | sy | | sy my ey];
    try discriminate; cbn [SFcompare].
  - reflexivity.
  - pose proof (Fmag_pos sy my ey) as P.
    pose proof (Fvalue_Fmag sy my ey) as V.
    f_equal. symmetry. destruct sy.
    + apply (proj1 (Qgt_alt _ _)). cbn [Fvalue] in *. lra.
    + apply (proj1 (Qlt_alt _ _)). cbn [Fvalue] in *. lra.
  - pose proof (Fmag_pos sx mx ex) as P.
    pose proof (Fvalue_Fmag sx mx ex) as V.
    f_equal. symmetry. destruct sx.
    + apply (proj1 (Qlt_alt _ _)). cbn [Fvalue] in *. lra.
    + apply (proj1 (Qgt_alt _ _)). cbn [Fvalue] in *. lra.
  - pose proof (Fmag_pos sx mx ex) as Px.
    pose proof (Fmag_pos sy my ey) as Py.
    pose proof (Fvalue_Fmag sx mx ex) as Wx.
    pose proof (Fvalue_Fmag sy my ey) as Wy.
    cbn [valid_binary] in Vx, Vy.
    f_equal. destruct sx, sy.
    + transitivity (CompOpp match ex ?= ey with
                             | Lt => Lt
                             | Gt => Gt
                             | Eq => Pos.compare_cont Eq mx my
                             end);
        [destruct (ex ?= ey); reflexivity |].
      rewrite (compare_finite_pos mx my ex ey Vx Vy).
      rewrite Qcompare_antisym, <- Qcompare_opp.
      apply Qcompare_comp; cbn [Fmag] in *; lra.
    + symmetry. apply (proj1 (Qlt_alt _ _)). lra.
    + symmetry. apply (proj1 (Qgt_alt _ _)). lra.
    + rewrite (compare_finite_pos mx my ex ey Vx Vy).
      apply Qcompare_comp; cbn [Fmag] in *; lra.
Qed.

Lemma SFltb_value (x y : spec_float) :
  valid_binary prec emax x = true ->
  valid_binary prec emax y = true ->
  finite_or_zero x = true -> finite_or_zero y = true ->
  SFltb x y = true <-> (Fvalue x < Fvalue y)%Q.
Proof.
  intros Vx Vy Fx Fy. unfold SFltb.
  rewrite (SFcompare_value x y Vx Vy Fx Fy).
  destruct (Qcompare_spec (Fvalue x) (Fvalue y)) as [C | C | C];
    split; intros H;
    try discriminate; try reflexivity; lra.
Qed.

Lemma SFleb_value (x y : spec_float) :
  valid_binary prec emax x = true ->
  valid_binary prec emax y = true ->
  finite_or_zero x = true -> finite_or_zero y = true ->
  SFleb x y = true <-> (Fvalue x <= Fvalue y)%Q.
Proof.
  intros Vx Vy Fx Fy. unfold SFleb.
  rewrite (SFcompare_value x y Vx Vy Fx Fy).
  destruct (Qcompare_spec (Fvalue x) (Fvalue y)) as [C | C | C];
    split; intros H;
    try discriminate; try reflexivity; lra.
Qed.

Lemma SFeqb_value (x y : spec_float) :
  valid_binary prec emax x = true ->
  valid_binary prec emax y = true ->
  finite_or_zero x = true -> finite_or_zero y = true ->
  SFeqb x y = true <-> (Fvalue x == Fvalue y)%Q.
Proof.
  intros Vx Vy Fx Fy. unfold SFeqb.
  rewrite (SFcompare_value x y Vx Vy Fx Fy).
  destruct (Qcompare_spec (Fvalue x) (Fvalue y)) as [C | C | C];
    split; intros H;
    try discriminate; try reflexivity; lra.
Qed.

(** Two finite floats of the format with the same sign and magnitude are
    the same float. *)
Lemma canonical_unique (s : bool) (m1 m2 : positive) (e1 e2 : Z) :
  bounded prec emax m1 e1 = true ->
  bounded prec emax m2 e2 = true ->
  (inject_Z (Zpos m1) * bpow e1 == inject_Z (Zpos m2) * bpow e2)%Q ->
  S754_finite s m1 e1 = S754_finite s m2 e2.
Proof.
  intros B1 B2 H.
  pose proof (compare_finite_pos m1 m2 e1 e2 B1 B2) as C.
  rewrite (proj1 (Qeq_alt _ _) H) in C.
  destruct (Z.compare_spec e1 e2) as [E | E | E]; try discriminate.
  apply Pos.compare_eq in C. subst. reflexivity.
Qed.

(** ** Error bounds *)

(** Within the normal range a rounding returns a finite float at a
    relative distance of at most [2^-prec]. *)
Lemma rounded_rel (s : bool) (X : Q) (r : spec_float) :
  rounded s X r ->
  (bpow (emin + prec - 1) <= X)%Q -> (X < bpow (emax - 1))%Q ->
  exists m e,
    r = S754_finite s m e
    /\ bounded prec emax m e = true
    /\ (X * (1 - bpow (- prec)) <= Fmag r)%Q
    /\ (Fmag r <= X * (1 + bpow (- prec)))%Q.
Proof.
  intros H Lo Hi.
  assert (Lo' : (bpow emin <= X)%Q).
  { apply Qle_trans with (bpow (emin + prec - 1)); [| exact Lo].
    apply bpow_le. lia. }
  destruct (rounded_finite s X r H Lo' Hi) as [d [m [e [B [-> [Bd V]]]]]].
  exists m, e. split; [reflexivity |]. split; [exact Bd |].
  assert (Hn : emin <= d - prec).
  { destruct B as [_ U].
    assert (emin + prec - 1 < d) by (apply bpow_lt_inv; lra).
    lia. }
  destruct (rval_error_rel d X B Hn) as [A1 A2].
  cbn [Fmag]. rewrite V. split; assumption.
Qed.

(** Below [2^D] the distance is at most half a unit in the last place of
    the binade [D]. *)
Lemma rounded_abs (s : bool) (X : Q) (r : spec_float) (D : Z) :
  rounded s X r ->
  (bpow emin <= X)%Q -> (X < bpow D)%Q -> D <= emax - 1 ->
  exists m e,
    r = S754_finite s m e
    /\ bounded prec emax m e = true
    /\ (Fmag r - bpow (fexp D - 1) <= X)%Q
    /\ (X <= Fmag r + bpow (fexp D - 1))%Q.
Proof.
  intros H Lo Hi HD.
  assert (Hi' : (X < bpow (emax - 1))%Q).
  { apply Qlt_le_trans with (bpow D); [exact Hi |]. apply bpow_le. lia. }
  destruct (rounded_finite s X r H Lo Hi') as [d [m [e [B [-> [Bd V]]]]]].
  exists m, e. split; [reflexivity |]. split; [exact Bd |].
  assert (Hd : d <= D).
  { destruct B as [L _].
    assert (d - 1 < D) by (apply bpow_lt_inv; lra).
    lia. }
  pose proof (rval_error d X) as [A1 A2].
  assert (P : (bpow (fexp d - 1) <= bpow (fexp D - 1))%Q).
  { apply bpow_le. pose proof (fexp_mono d D Hd). lia. }
  cbn [Fmag]. rewrite V. split; lra.
Qed.

(** The sign of a rounding is the one asked for. *)
Lemma rounded_class (s : bool) (X : Q) (r : spec_float) :
  rounded s X r ->
  r = S754_zero s \/ r = S754_infinity s
  \/ exists m e, r = S754_finite s m e /\ bounded prec emax m e = true.
Proof.
  intros H.
  destruct (rounded_inv s X r H) as [d [_ [[C _] | [[C _] | [m [e C]]]]]].
  - left. exact C.
  - right. left. exact C.
  - right. right. exists m, e. tauto.
Qed.

(** ** Finite floats of the format *)

Definition fin (x : spec_float) : bool :=
  match x with
  | S754_finite _ m e => bounded prec emax m e
  | _ => false
  end.

Lemma fin_inv (x : spec_float) :
  fin x = true ->
  exists s m e, x = S754_finite s m e /\ bounded prec emax m e = true.
Proof.
  destruct x as [s | s | | s m e]; try discriminate.
  intros H. exists s, m, e. split; [reflexivity | exact H].
Qed.

Lemma fin_valid (x : spec_float) :
  fin x = true -> valid_binary prec emax x = true /\ finite_or_zero x = true.
Proof.
  destruct x as [s | s | | s m e]; try discriminate.
  intros H. split; [exact H | reflexivity].
Qed.

Lemma fin_Fmag_pos (x : spec_float) : fin x = true -> (0 < Fmag x)%Q.
Proof.
  intros H. destruct (fin_inv x H) as [s [m [e [-> _]]]]. apply Fmag_pos.
Qed.

(** The magnitudes of the finite floats of the format. *)
Lemma fin_Fmag_range (x : spec_float) :
  fin x = true -> (bpow emin <= Fmag x /\ Fmag x < bpow emax)%Q.
Proof.
  intros H. destruct (fin_inv x H) as [s [m [e [-> B]]]].
  destruct (bounded_shape m e B) as [D [E _]].
  destruct (Fmag_binade s m e) as [L U].
  pose proof (Zdigits2_pos (Zpos m) ltac:(lia)).
  split.
  - apply Qle_trans with (bpow (Zdigits2 (Zpos m) + e - 1));
      [apply bpow_le; lia | exact L].
  - apply Qlt_le_trans with (bpow (Zdigits2 (Zpos m) + e));
      [exact U | apply bpow_le; lia].
Qed.

Lemma SFmul_rel (x y : spec_float) (X : Q) :
  fin x = true -> fin y = true ->
  (X == Fmag x * Fmag y)%Q ->
  (bpow (emin + prec - 1) <= X)%Q -> (X < bpow (emax - 1))%Q ->
  fin (SFmul prec emax x y) = true
  /\ sign_of (SFmul prec emax x y) = xorb (sign_of x) (sign_of y)
  /\ (X * (1 - bpow (- prec)) <= Fmag (SFmul prec emax x y))%Q
  /\ (Fmag (SFmul prec emax x y) <= X * (1 + bpow (- prec)))%Q.
Proof.
  intros Fx Fy HX Lo Hi.
  destruct (fin_inv x Fx) as [sx [mx [ex [-> Bx]]]].
  destruct (fin_inv y Fy) as [sy [my [ey [-> By]]]].
  pose proof (SFmul_finite sx sy mx my ex ey Bx By) as R.
  apply (rounded_comp _ _ X) in R; [| symmetry; exact HX].
  destruct (rounded_rel _ X _ R Lo Hi) as [m [e [-> [B [A1 A2]]]]].
  repeat split; assumption.
Qed.

Lemma SFdiv_rel (x y : spec_float) (X : Q) :
  fin x = true -> fin y = true ->
  (X == Fmag x / Fmag y)%Q ->
  (bpow (emin + prec) <= X)%Q -> (X < bpow (emax - 1))%Q ->
  fin (SFdiv prec emax x y) = true
  /\ sign_of (SFdiv prec emax x y) = xorb (sign_of x) (sign_of y)
  /\ (X * (1 - bpow (- prec)) <= Fmag (SFdiv prec emax x y))%Q
  /\ (Fmag (SFdiv prec emax x y) <= X * (1 + bpow (- prec)))%Q.
Proof.
  intros Fx Fy HX Lo Hi.
  destruct (fin_inv x Fx) as [sx [mx [ex [-> Bx]]]].
  destruct (fin_inv y Fy) as [sy [my [ey [-> By]]]].
  assert (Lo0 : (bpow (emin + prec)
                 <= Fmag (S754_finite sx mx ex)
                    / Fmag (S754_finite sy my ey))%Q)
    by (rewrite <- HX; exact Lo).
  pose proof (SFdiv_finite sx sy mx my ex ey Lo0) as R.
  apply (rounded_comp _ _ X) in R; [| symmetry; exact HX].
  assert (Lo' : (bpow (emin + prec - 1) <= X)%Q).
  { apply Qle_trans with (bpow (emin + prec)); [| exact Lo].
    apply bpow_le. lia. }
  destruct (rounded_rel _ X _ R Lo' Hi) as [m [e [-> [B [A1 A2]]]]].
  repeat split; assumption.
Qed.

Lemma SFadd_rel (x y : spec_float) (X : Q) :
  fin x = true -> fin y = true ->
  (X == Fvalue x + Fvalue y)%Q ->
  (bpow (emin + prec - 1) <= X)%Q -> (X < bpow (emax - 1))%Q ->
  fin (SFadd prec emax x y) = true
  /\ sign_of (SFadd prec emax x y) = false
  /\ (X * (1 - bpow (- prec)) <= Fmag (SFadd prec emax x y))%Q
  /\ (Fmag (SFadd prec emax x y) <= X * (1 + bpow (- prec)))%Q.
Proof.
  intros Fx Fy HX Lo Hi.
  destruct (fin_inv x Fx) as [sx [mx [ex [-> Bx]]]].
  destruct (fin_inv y Fy) as [sy [my [ey [-> By]]]].
  destruct (SFadd_finite sx sy mx my ex ey) as [_ [R _]].
  pose proof (bpow_pos (emin + prec - 1)) as P.
  specialize (R ltac:(rewrite <- HX; lra)).
  apply (rounded_comp _ _ X) in R; [| symmetry; exact HX].
  destruct (rounded_rel _ X _ R Lo Hi) as [m [e [-> [B [A1 A2]]]]].
  repeat split; assumption.
Qed.

Lemma SFsub_rel (x y : spec_float) (X : Q) :
  fin x = true -> fin y = true ->
  (X == Fvalue x - Fvalue y)%Q ->
  (bpow (emin + prec - 1) <= X)%Q -> (X < bpow (emax - 1))%Q ->
  fin (SFsub prec emax x y) = true
  /\ sign_of (SFsub prec emax x y) = false
  /\ (X * (1 - bpow (- prec)) <= Fmag (SFsub prec emax x y))%Q
  /\ (Fmag (SFsub prec emax x y) <= X * (1 + bpow (- prec)))%Q.
Proof.
  intros Fx Fy HX Lo Hi.
  destruct (fin_inv x Fx) as [sx [mx [ex [-> Bx]]]].
  destruct (fin_inv y Fy) as [sy [my [ey [-> By]]]].
  destruct (SFsub_finite sx sy mx my ex ey) as [_ [R _]].
  pose proof (bpow_pos (emin + prec - 1)) as P.
  specialize (R ltac:(rewrite <- HX; lra)).
  apply (rounded_comp _ _ X) in R; [| symmetry; exact HX].
  destruct (rounded_rel _ X _ R Lo Hi) as [m [e [-> [B [A1 A2]]]]].
  repeat split; assumption.
Qed.

(** A float closer to [X] than half a unit in the last place is the one
    that rounding [X] returns. *)
Lemma rounded_near (s : bool) (X : Q) (r : spec_float) (d : Z)
    (mt : positive) (et : Z) :
  rounded s X r ->
  bounded prec emax mt et = true ->
  binade d X -> binade d (inject_Z (Zpos mt) * bpow et) ->
  (inject_Z (Zpos mt) * bpow et - bpow (fexp d - 1) < X)%Q ->
  (X < inject_Z (Zpos mt) * bpow et + bpow (fexp d - 1))%Q ->
  r = S754_finite s mt et.
Proof.
  intros [d' [B' ->]] Bt Bd Bdt Lo Hi.
  rewrite (binade_unique _ _ _ B' Bd).
  destruct (bounded_inv mt et Bt) as [Ct Et].
  pose proof (Fmag_binade s mt et) as Bm. cbn [Fmag] in Bm.
  pose proof (binade_unique _ _ _ Bm Bdt) as Ed.
  rewrite Ed in Ct.
  assert (Q1 : rq d X = Zpos mt).
  { unfold rq. rewrite Ct. apply rne_near.
    - rewrite Ct, bpow_pred in Lo. pose proof (bpow_pos et) as P.
      apply Qlt_shift_div_l; [exact P |].
      ring_simplify. ring_simplify in Lo. lra.
    - rewrite Ct, bpow_pred in Hi. pose proof (bpow_pos et) as P.
      apply Qlt_shift_div_r; [exact P |].
      ring_simplify. ring_simplify in Hi. lra. }
  rewrite Q1, Ct.
  destruct (bounded_shape mt et Bt) as [Dt [Er _]].
  pose proof (Zdigits2_spec (Zpos mt) ltac:(lia)) as [_ Hm].
  assert (Hm' : Zpos mt < 2 ^ prec).
  { apply Z.lt_le_trans with (2 ^ Zdigits2 (Zpos mt)); [exact Hm |].
    apply Z.pow_le_mono_r; lia. }
  rewrite encode_small by lia.
  assert (L : (et <=? emax - prec) = true) by (apply Z.leb_le; lia).
  rewrite L. reflexivity.
Qed.

(** ** Signs and classes of results *)

(** A float of the format is the rounding of its own magnitude. *)
Lemma rounded_self (s : bool) (m : positive) (e : Z) :
  bounded prec emax m e = true ->
  rounded s (inject_Z (Zpos m) * bpow e) (S754_finite s m e).
Proof.
  intros B.
  pose proof (binary_round_rounded s m e) as R.
  pose proof (Fmag_binade s m e) as Bm. cbn [Fmag] in Bm.
  pose proof (bpow_pos (fexp (Zdigits2 (Zpos m) + e) - 1)) as P.
  rewrite (rounded_near s _ _ _ m e R B Bm Bm ltac:(lra) ltac:(lra)) in R.
  exact R.
Qed.

(** The magnitude of a rounding that did not overflow. *)
Lemma rounded_Fmag (s : bool) (X : Q) (r : spec_float) :
  rounded s X r ->
  r = S754_infinity s
  \/ exists d, binade d X /\ (Fmag r == rval d X)%Q.
Proof.
  intros H.
  destruct (rounded_inv s X r H)
    as [d [B [[-> [_ C]] | [[-> _] | [m [e [-> [_ C]]]]]]]].
  - right. exists d. split; [exact B |].
    unfold rval. rewrite C. cbn [Fmag]. ring.
  - left. reflexivity.
  - right. exists d. split; [exact B | exact C].
Qed.

(** Rounding is monotone on the magnitudes. *)
Lemma rounded_mono (s s' : bool) (X Y : Q) (r r' : spec_float) :
  rounded s X r -> rounded s' Y r' -> (X <= Y)%Q ->
  r = S754_infinity s \/ r' = S754_infinity s'
  \/ (Fmag r <= Fmag r')%Q.
Proof.
  intros H H' L.
  destruct (rounded_Fmag s X r H) as [C | [d [B V]]]; [left; exact C |].
  destruct (rounded_Fmag s' Y r' H') as [C | [d' [B' V']]];
    [right; left; exact C |].
  right. right. rewrite V, V'. apply rval_mono; assumption.
Qed.

Lemma finite_or_zero_sign (x : spec_float) :
  valid_binary prec emax x = true -> finite_or_zero x = true ->
  ((0 < Fvalue x)%Q ->
   exists m e, x = S754_finite false m e
               /\ bounded prec emax m e = true)
  /\ ((Fvalue x < 0)%Q ->
      exists m e, x = S754_finite true m e
                  /\ bounded prec emax m e = true).
Proof.
  intros V F.
  destruct x as [s | s | | s m e]; try discriminate.
  - cbn [Fvalue]. split; intros H; lra.
  - pose proof (Fmag_pos s m e) as P.
    pose proof (Fvalue_Fmag s m e) as W.
    destruct s; split; intros H; try lra; exists m, e;
      (split; [reflexivity | exact V]).
Qed.

(** The difference of two finite floats of the format, when it is not
    zero. *)
Lemma SFsub_rounded_pos (x y : spec_float) :
  valid_binary prec emax x = true -> valid_binary prec emax y = true ->
  finite_or_zero x = true -> finite_or_zero y = true ->
  (Fvalue y < Fvalue x)%Q ->
  rounded false (Fvalue x - Fvalue y) (SFsub prec emax x y).
Proof.
  intros Vx Vy Fx Fy H.
  destruct x as [sx | sx | | sx mx ex], y as [sy | sy | | sy my ey];
    try discriminate.
  - destruct (finite_or_zero_sign _ Vy Fy) as [_ N].
    destruct (N ltac:(cbn [Fvalue] in *; lra)) as [m [e [E B]]].
    injection E as -> -> ->. cbn [SFsub negb].
    eapply rounded_comp; [| apply (rounded_self false m e B)].
    rewrite (Fvalue_Fmag true m e). cbn [Fvalue Fmag]. ring.
  - destruct (finite_or_zero_sign _ Vx Fx) as [P _].
    destruct (P ltac:(cbn [Fvalue] in *; lra)) as [m [e [E B]]].
    injection E as -> -> ->. cbn [SFsub].
    eapply rounded_comp; [| apply (rounded_self false m e B)].
    rewrite (Fvalue_Fmag false m e). cbn [Fvalue Fmag]. ring.
  - destruct (SFsub_finite sx sy mx my ex ey) as [_ [R _]].
    apply R. lra.
Qed.

Lemma SFsub_rounded_neg (x y : spec_float) :
  valid_binary prec emax x = true -> valid_binary prec emax y = true ->
  finite_or_zero x = true -> finite_or_zero y = true ->
  (Fvalue x < Fvalue y)%Q ->
  rounded true (Fvalue y - Fvalue x) (SFsub prec emax x y).
Proof.
  intros Vx Vy Fx Fy H.
  destruct x as [sx | sx | | sx mx ex], y as [sy | sy | | sy my ey];
    try discriminate.
  - destruct (finite_or_zero_sign _ Vy Fy) as [P _].
    destruct (P ltac:(cbn [Fvalue] in *; lra)) as [m [e [E B]]].
    injection E as -> -> ->. cbn [SFsub negb].
    eapply rounded_comp; [| apply (rounded_self true m e B)].
    rewrite (Fvalue_Fmag false m e). cbn [Fvalue Fmag]. ring.
  - destruct (finite_or_zero_sign _ Vx Fx) as [_ N].
    destruct (N ltac:(cbn [Fvalue] in *; lra)) as [m [e [E B]]].
    injection E as -> -> ->. cbn [SFsub].
    eapply rounded_comp; [| apply (rounded_self true m e B)].
    rewrite (Fvalue_Fmag true m e). cbn [Fvalue Fmag]. ring.
  - destruct (SFsub_finite sx sy mx my ex ey) as [_ [_ R]].
    eapply rounded_comp; [| apply R; lra]. ring.
Qed.

Lemma shr_1_nonneg (mrs : shr_record) :
  0 <= shr_m mrs -> 0 <= shr_m (shr_1 mrs).
Proof.
  destruct mrs as [m r s]. cbn [shr_m].
  destruct m as [| [p | p |] | p]; cbn [shr_1 shr_m]; lia.
Qed.

Lemma iter_shr_1_nonneg (p : positive) :
  forall mrs, 0 <= shr_m mrs -> 0 <= shr_m (iter_pos shr_1 p mrs).
Proof.
  induction p as [p IH | p IH |]; intros mrs H; cbn [iter_pos].
  - apply IH, IH, shr_1_nonneg, H.
  - apply IH, IH, H.
  - apply shr_1_nonneg, H.
Qed.

Lemma shr_fexp_nonneg (m e : Z) (l : location) :
  0 <= m -> 0 <= shr_m (fst (shr_fexp prec emax m e l)).
Proof.
  intros H. unfold shr_fexp, shr.
  assert (H0 : 0 <= shr_m (shr_record_of_loc m l))
    by (rewrite shr_m_shr_record_of_loc; exact H).
  destruct (fexp (Zdigits2 m + e) - e); cbn [fst]; try exact H0.
  apply iter_shr_1_nonneg. exact H0.
Qed.

Lemma round_nearest_even_nonneg (m : Z) (l : location) :
  0 <= m -> 0 <= round_nearest_even m l.
Proof.
  intros H. destruct l as [| []]; cbn [round_nearest_even]; try lia.
  destruct (Z.even m); lia.
Qed.

(** A rounding of a non-negative mantissa has the sign asked for and is
    never NaN. *)
Lemma binary_round_aux_class (s : bool) (m e : Z) (l : location) :
  0 <= m ->
  binary_round_aux prec emax s m e l = S754_zero s
  \/ binary_round_aux prec emax s m e l = S754_infinity s
  \/ exists m' e', binary_round_aux prec emax s m e l = S754_finite s m' e'.
Proof.
  intros H. unfold binary_round_aux.
  pose proof (shr_fexp_nonneg m e l H) as H1.
  destruct (shr_fexp prec emax m e l) as [mrs' e']. cbn [fst] in H1.
  pose proof (shr_fexp_nonneg
                (round_nearest_even (shr_m mrs') (loc_of_shr_record mrs'))
                e' loc_Exact
                (round_nearest_even_nonneg _ _ H1)) as H2.
  destruct (shr_fexp prec emax _ e' loc_Exact) as [mrs'' e''].
  cbn [fst] in H2.
  destruct (shr_m mrs'') as [| p | p]; try lia.
  - left. reflexivity.
  - destruct (e'' <=? emax - prec).
    + right. right. exists p, e''. reflexivity.
    + right. left. reflexivity.
Qed.

Lemma SFdiv_class (sx sy : bool) (mx my : positive) (ex ey : Z) :
  let r := SFdiv prec emax (S754_finite sx mx ex) (S754_finite sy my ey) in
  r = S754_zero (xorb sx sy)
  \/ r = S754_infinity (xorb sx sy)
  \/ exists m e, r = S754_finite (xorb sx sy) m e.
Proof.
  cbn [SFdiv]. unfold SFdiv_core_binary.
  set (e' := Z.min _ _). set (m' := match _ with 0 => _ | _ => _ end).
  assert (Hm' : 0 <= m').
  { unfold m'. destruct (ex - ey - e') as [| p | p]; try lia.
    apply Z.shiftl_nonneg. lia. }
  pose proof (Z_div_mod m' (Zpos my) eq_refl) as DM.
  change IntDef.Z.div_eucl with Z.div_eucl.
  destruct (Z.div_eucl m' (Zpos my)) as [q r].
  destruct DM as [Hq Hr].
  apply binary_round_aux_class. nia.
Qed.

End Format.

(* ================================================================== *)
(** * The Int mapping and its round trip *)

(** The floats nearest to 0.005 and to 0.995. *)
Definition f_0_005 : float := Eval vm_compute in f_lit 5 1000.
Definition f_0_995 : float := Eval vm_compute in f_lit 995 1000.

(** Structural equality of float values. *)
Definition sf_eqb (x y : spec_float) : bool :=
  match x, y with
  | S754_zero a, S754_zero b => Bool.eqb a b
  | S754_infinity a, S754_infinity b => Bool.eqb a b
  | S754_nan, S754_nan => true
  | S754_finite a m e, S754_finite b n f =>
      Bool.eqb a b && Pos.eqb m n && Z.eqb e f
  | _, _ => false
  end.

Lemma sf_eqb_eq (x y : spec_float) : sf_eqb x y = true -> x = y.
Proof.
  destruct x as [a | a | | a m e], y as [b | b | | b n f]; simpl;
    try discriminate; try reflexivity.
  - intros H. apply Bool.eqb_prop in H. now subst.
  - intros H. apply Bool.eqb_prop in H. now subst.
  - intros H. apply andb_prop in H. destruct H as [H He].
    apply andb_prop in H. destruct H as [Hs Hm].
    apply Bool.eqb_prop in Hs. apply Pos.eqb_eq in Hm.
    apply Z.eqb_eq in He. now subst.
Qed.

(** Checking a property on every integer of an interval. *)
Fixpoint range_from (lo : Z) (n : nat) : list Z :=
  match n with
  | O => []
  | S k => lo :: range_from (lo + 1) k
  end.

Definition forall_range (lo hi : Z) (f : Z -> bool) : bool :=
  forallb f (range_from lo (Z.to_nat (hi - lo + 1))).

Lemma range_from_In (n : nat) :
  forall lo z, lo <= z < lo + Z.of_nat n -> In z (range_from lo n).
Proof.
  induction n as [| n IH]; intros lo z Hz.
  - simpl in Hz. lia.
  - simpl. destruct (Z.eq_dec lo z) as [-> | Hne]; [now left | right].
    apply IH. lia.
Qed.

Lemma forall_range_spec (lo hi : Z) (f : Z -> bool) :
  forall_range lo hi f = true -> forall z, lo <= z <= hi -> f z = true.
Proof.
  unfold forall_range. intros H z Hz.
  rewrite forallb_forall in H. apply H. apply range_from_In. lia.
Qed.

(** The two directions of the Int mapping, on the differences
    [k = naturalValue - minVal] and [N = maxVal - minVal]. *)
Definition int_forward (k N : float) : float :=
  clamp (demote (dadd d_0_005
                   (ddiv (dmul d_0_99 (promote k)) (promote N))))
        f0 f1.

Definition int_backward (x N : float) : result Z :=
  cast_int
    (dadd
       (dmul
          (dmul (ddiv d_1 d_0_99)
                (dsub (promote (clamp x f0 f1)) d_0_005))
          (promote N))
       d_0_5).

Lemma naturalToNormalized01_INT (E : Env) (p : ParamMetaData) (x : float) :
  type p = INT ->
  ne (maxVal p) (minVal p) = true ->
  naturalToNormalized01 E p x
  = Ok (int_forward (fsub x (minVal p)) (fsub (maxVal p) (minVal p))).
Proof.
  intros Ht Hne. unfold naturalToNormalized01, assert_.
  rewrite Ht, Hne, orb_true_r. reflexivity.
Qed.

Lemma normalized01ToNatural_INT (E : Env) (p : ParamMetaData) (x : float) :
  type p = INT ->
  ne (maxVal p) (minVal p) = true ->
  ge x f0 && le x f1 = true ->
  normalized01ToNatural E p x
  = (i <- int_backward x (fsub (maxVal p) (minVal p)) ;;
     ret (fadd (f_of_int i) (minVal p))).
Proof.
  intros Ht Hne Hx. unfold normalized01ToNatural, assert_.
  rewrite Ht, Hne, Hx, !orb_true_r. reflexivity.
Qed.

Lemma clamp_01_idempotent (x : spec_float) :
  clamp (clamp x f0 f1) f0 f1 = clamp x f0 f1.
Proof.
  unfold clamp.
  destruct (lt x f0) eqn:H0; [reflexivity |].
  destruct (lt f1 x) eqn:H1; [reflexivity |].
  rewrite H0, H1. reflexivity.
Qed.

(** An Int descriptor with a fractional minimum, and one with the range
    [0, 2^24]. *)
Definition intHalves : ParamMetaData :=
  Eval vm_compute in
    snd (withRange (snd (withType ParamMetaData_default INT))
           (f_lit 1 2) (f_lit 21 2)).
Definition intWide : ParamMetaData :=
  Eval vm_compute in
    snd (withRange (snd (withType ParamMetaData_default INT))
           (f_of_int 0) (f_of_int 16777216)).

(** The integer [v] survives the round trip through the normalized
    value. *)
Definition round_trips (E : Env) (p : ParamMetaData) (v : float) : Prop :=
  exists x, naturalToNormalized01 E p v = Ok x
            /\ normalized01ToNatural E p x = Ok v.

(** ** The two formats of the header *)

Definition fin24 : spec_float -> bool := fin 24 128.
Definition fin53 : spec_float -> bool := fin 53 1024.

Lemma P24 : 1 < 24. Proof. reflexivity. Qed.
Lemma M24 : 24 < 128. Proof. reflexivity. Qed.
Lemma P53 : 1 < 53. Proof. reflexivity. Qed.
Lemma M53 : 53 < 1024. Proof. reflexivity. Qed.

(** The unit roundoff of a double. *)
Definition u53 : Q := 1 # 9007199254740992.

Lemma bpow_m53 : (bpow (-53) == u53)%Q.
Proof. reflexivity. Qed.

(** float to double is exact. *)
Lemma promote_fin (x : spec_float) :
  fin24 x = true ->
  fin53 (promote x) = true
  /\ sign_of (promote x) = sign_of x
  /\ (Fmag (promote x) == Fmag x)%Q.
Proof.
  intros F.
  destruct (fin_inv 24 128 P24 M24 x F) as [s [m [e [-> B]]]].
  destruct (fin_Fmag_range 24 128 P24 M24 _ F) as [Lo Hi].
  cbn [promote].
  pose proof (binary_round_rounded 53 1024 P53 M53 s m e) as R.
  change (inject_Z (Zpos m) * bpow e)%Q with (Fmag (S754_finite s m e)) in R.
  assert (Lo' : (bpow (emin 53 1024) <= Fmag (S754_finite s m e))%Q).
  { apply Qle_trans with (bpow (emin 24 128)); [| exact Lo].
    apply bpow_le. unfold emin. lia. }
  assert (Hi' : (Fmag (S754_finite s m e) < bpow (1024 - 1))%Q).
  { apply Qlt_le_trans with (bpow 128); [exact Hi |].
    apply bpow_le. lia. }
  destruct (rounded_finite 53 1024 P53 M53 s _ _ R Lo' Hi')
    as [d [m' [e' [Bd [-> [B' V]]]]]].
  split; [exact B' |]. split; [reflexivity |].
  cbn [Fmag] in *. rewrite V.
  apply (rval_exact 53 1024 P53 M53 d _ (Zpos m) e); [reflexivity |].
  pose proof (Fmag_binade s m e) as Bm. cbn [Fmag] in Bm.
  rewrite (binade_unique _ _ _ Bd Bm).
  destruct (bounded_shape 24 128 P24 M24 m e B) as [D [E _]].
  unfold fexp, emin in *. lia.
Qed.

(** ** Integers as floats *)

Lemma binary_round_opp (prec emax : Z) (s : bool) (m : positive) (e : Z) :
  binary_round prec emax (negb s) m e
  = SFopp (binary_round prec emax s m e).
Proof.
  unfold binary_round. destruct (shl_align _ _ _) as [mz ez].
  unfold binary_round_aux.
  destruct (shr_fexp _ _ _ _ _) as [mrs' e'].
  destruct (shr_fexp _ _ _ _ _) as [mrs'' e''].
  destruct (shr_m mrs''); try reflexivity.
  destruct (_ <=? _); reflexivity.
Qed.

Lemma f_of_int_opp (z : Z) :
  z <> 0 -> f_of_int (- z) = SFopp (f_of_int z).
Proof.
  intros Hz.
  destruct z as [| p | p]; try lia; unfold f_of_int;
    cbn [Z.opp binary_normalize].
  - apply (binary_round_opp 24 128 false).
  - apply (binary_round_opp 24 128 true).
Qed.

Lemma f_of_int_rounded (z : Z) :
  0 < z -> rounded 24 128 false (inject_Z z) (f_of_int z).
Proof.
  intros Hz. unfold f_of_int.
  destruct (binary_normalize_rounded 24 128 P24 M24 z 0 false)
    as [_ [R _]].
  specialize (R Hz).
  eapply (rounded_comp 24 128 P24 M24); [| exact R].
  rewrite bpow_0. ring.
Qed.

Lemma inject_Z_pow2_24 : (inject_Z 16777216 == inject_Z 8388608 * bpow 1)%Q.
Proof. reflexivity. Qed.

(** A positive integer up to 2^24 is a float. *)
Lemma f_of_int_pos (z : Z) :
  0 < z <= 16777216 ->
  fin24 (f_of_int z) = true
  /\ sign_of (f_of_int z) = false
  /\ (Fmag (f_of_int z) == inject_Z z)%Q.
Proof.
  intros Hz.
  pose proof (f_of_int_rounded z ltac:(lia)) as R.
  assert (Lo : (bpow (emin 24 128) <= inject_Z z)%Q).
  { apply Qle_trans with 1%Q; [| change 1%Q with (inject_Z 1);
                                  rewrite <- Zle_Qle; lia].
    rewrite <- bpow_0. apply bpow_le. unfold emin. lia. }
  assert (Hi : (inject_Z z < bpow (128 - 1))%Q).
  { apply Qle_lt_trans with (inject_Z 16777216);
      [rewrite <- Zle_Qle; lia |].
    change (inject_Z 16777216) with (inject_Z (2 ^ 24)).
    rewrite <- bpow_Z by lia. apply bpow_lt. lia. }
  destruct (rounded_finite 24 128 P24 M24 _ _ _ R Lo Hi)
    as [d [m [e [Bd [-> [B V]]]]]].
  split; [exact B |]. split; [reflexivity |].
  cbn [Fmag]. rewrite V.
  pose proof (binade_digits z 0 (inject_Z z) ltac:(lia) ltac:(lra)
                ltac:(lra)) as Bz.
  apply (binade_comp _ _ (inject_Z z)) in Bz;
    [| rewrite bpow_0; ring].
  pose proof (binade_unique _ _ _ Bd Bz) as Ed.
  destruct (Z.eq_dec z 16777216) as [-> | Hne].
  - apply (rval_exact 24 128 P24 M24 d _ 8388608 1);
      [exact inject_Z_pow2_24 |].
    rewrite Ed. reflexivity.
  - apply (rval_exact 24 128 P24 M24 d _ z 0);
      [rewrite bpow_0; ring |].
    pose proof (Zdigits2_le_prec 24 128 P24 M24 z ltac:(simpl; lia)).
    rewrite Ed. unfold fexp, emin. lia.
Qed.

Lemma f_of_int_fin (z : Z) :
  z <> 0 -> -16777216 <= z <= 16777216 ->
  fin24 (f_of_int z) = true
  /\ sign_of (f_of_int z) = (z <? 0)
  /\ (Fvalue (f_of_int z) == inject_Z z)%Q.
Proof.
  intros Hz Hr.
  destruct (Z_lt_le_dec z 0) as [Neg | Pos].
  - destruct (f_of_int_pos (- z) ltac:(lia)) as [F [S V]].
    rewrite (f_of_int_opp z Hz) in F, S, V.
    destruct (fin_inv 24 128 P24 M24 _ F) as [s [m [e [E B]]]].
    destruct (f_of_int z) as [s' | s' | | s' m' e']; try discriminate.
    cbn [SFopp] in *. injection E as Es -> ->.
    cbn [sign_of] in S. rewrite S in Es.
    destruct s'; [| discriminate].
    split; [exact B |].
    split; [symmetry; apply Z.ltb_lt; exact Neg |].
    rewrite Fvalue_Fmag. cbn [Fmag] in *. rewrite V, inject_Z_opp. ring.
  - destruct (f_of_int_pos z ltac:(lia)) as [F [S V]].
    split; [exact F |].
    split; [rewrite S; symmetry; apply Z.ltb_ge; exact Pos |].
    rewrite (Fvalue_pos _ S). exact V.
Qed.

Lemma f_of_int_value (z : Z) :
  -16777216 <= z <= 16777216 ->
  (Fvalue (f_of_int z) == inject_Z z)%Q.
Proof.
  intros Hr. destruct (Z.eq_dec z 0) as [-> | Hz]; [reflexivity |].
  apply f_of_int_fin; assumption.
Qed.

(** A float is determined by the rounding that produced it. *)
Lemma f_of_int_unique (z : Z) (r : spec_float) :
  z <> 0 ->
  rounded 24 128 (z <? 0) (inject_Z (Z.abs z)) r -> r = f_of_int z.
Proof.
  intros Hz R.
  destruct (Z_lt_le_dec z 0) as [Neg | Pos].
  - assert (E : (z <? 0) = true) by (apply Z.ltb_lt; exact Neg).
    rewrite E in R.
    replace z with (- (- z)) at 1 by lia.
    rewrite f_of_int_opp by lia.
    pose proof (f_of_int_rounded (- z) ltac:(lia)) as R'.
    replace (Z.abs z) with (- z) in R by lia.
    destruct R as [d [B ->]]. destruct R' as [d' [B' ->]].
    rewrite (binade_unique _ _ _ B' B).
    unfold encode. destruct (shr_fexp _ _ _ _ _) as [mrs e].
    destruct (shr_m mrs); try reflexivity.
    destruct (_ <=? _); reflexivity.
  - assert (E : (z <? 0) = false) by (apply Z.ltb_ge; exact Pos).
    rewrite E in R. replace (Z.abs z) with z in R by lia.
    exact (rounded_unique 24 128 P24 M24 _ _ _ _ R
             (f_of_int_rounded z ltac:(lia))).
Qed.

(** Subtraction and addition of integers that floats hold. *)
Lemma fsub_int (v a : Z) :
  -16777216 <= a -> a <= v -> v <= 16777216 ->
  fsub (f_of_int v) (f_of_int a) = f_of_int (v - a).
Proof.
  intros Ha Hav Hv.
  destruct (Z.eq_dec a 0) as [-> | Na].
  - replace (v - 0) with v by lia.
    change (f_of_int 0) with (S754_zero false).
    destruct (Z.eq_dec v 0) as [-> | Nv]; [reflexivity |].
    destruct (f_of_int_fin v Nv ltac:(lia)) as [F _].
    destruct (fin_inv 24 128 P24 M24 _ F) as [s [m [e [-> _]]]].
    reflexivity.
  - destruct (f_of_int_fin a Na ltac:(lia)) as [Fa [Sa Va]].
    destruct (Z.eq_dec v 0) as [-> | Nv].
    + change (f_of_int 0) with (S754_zero false).
      replace (0 - a) with (- a) by lia.
      rewrite (f_of_int_opp a Na).
      destruct (fin_inv 24 128 P24 M24 _ Fa) as [s [m [e [-> _]]]].
      reflexivity.
    + destruct (f_of_int_fin v Nv ltac:(lia)) as [Fv [Sv Vv]].
      destruct (fin_inv 24 128 P24 M24 _ Fa) as [sa [ma [ea [Ea _]]]].
      destruct (fin_inv 24 128 P24 M24 _ Fv) as [sv [mv [ev [Ev _]]]].
      rewrite Ea, Ev in *.
      destruct (SFsub_finite 24 128 P24 M24 sv sa mv ma ev ea)
        as [S0 [S1 _]].
      assert (D : (Fvalue (S754_finite sv mv ev)
                   - Fvalue (S754_finite sa ma ea)
                   == inject_Z (v - a))%Q).
      { rewrite Vv, Va. unfold Z.sub.
        rewrite inject_Z_plus, inject_Z_opp. ring. }
      destruct (Z.eq_dec v a) as [-> | Nva].
      * replace (a - a) with 0 by lia.
        apply S0. rewrite D. replace (a - a) with 0 by lia. reflexivity.
      * apply f_of_int_unique; [lia |].
        replace (v - a <? 0) with false by (symmetry; apply Z.ltb_ge; lia).
        replace (Z.abs (v - a)) with (v - a) by lia.
        eapply (rounded_comp 24 128 P24 M24); [exact D |].
        apply S1. rewrite D. change 0%Q with (inject_Z 0).
        rewrite <- Zlt_Qlt. lia.
Qed.

Lemma fadd_int (i a : Z) :
  0 <= i <= 16777216 -> -16777216 <= a <= 16777216 ->
  fadd (f_of_int i) (f_of_int a) = f_of_int (i + a).
Proof.
  intros Hi Ha.
  destruct (Z.eq_dec a 0) as [-> | Na].
  - replace (i + 0) with i by lia.
    change (f_of_int 0) with (S754_zero false).
    destruct (Z.eq_dec i 0) as [-> | Ni]; [reflexivity |].
    destruct (f_of_int_fin i Ni ltac:(lia)) as [F _].
    destruct (fin_inv 24 128 P24 M24 _ F) as [s [m [e [-> _]]]].
    reflexivity.
  - destruct (f_of_int_fin a Na ltac:(lia)) as [Fa [Sa Va]].
    destruct (Z.eq_dec i 0) as [-> | Ni].
    + change (f_of_int 0) with (S754_zero false). cbn [Z.add].
      destruct (fin_inv 24 128 P24 M24 _ Fa) as [s [m [e [-> _]]]].
      reflexivity.
    + destruct (f_of_int_fin i Ni ltac:(lia)) as [Fi [Si Vi]].
      destruct (fin_inv 24 128 P24 M24 _ Fa) as [sa [ma [ea [Ea _]]]].
      destruct (fin_inv 24 128 P24 M24 _ Fi) as [si [mi [ei [Ei _]]]].
      rewrite Ea, Ei in *.
      destruct (SFadd_finite 24 128 P24 M24 si sa mi ma ei ea)
        as [S0 [S1 S2]].
      assert (D : (Fvalue (S754_finite si mi ei)
                   + Fvalue (S754_finite sa ma ea)
                   == inject_Z (i + a))%Q).
      { rewrite Vi, Va, inject_Z_plus. reflexivity. }
      destruct (Z.lt_trichotomy (i + a) 0) as [C | [C | C]].
      * apply f_of_int_unique; [lia |].
        replace (i + a <? 0) with true by (symmetry; apply Z.ltb_lt; lia).
        replace (Z.abs (i + a)) with (- (i + a)) by lia.
        eapply (rounded_comp 24 128 P24 M24);
          [| apply S2; rewrite D; change 0%Q with (inject_Z 0);
             rewrite <- Zlt_Qlt; lia].
        rewrite D, inject_Z_opp. reflexivity.
      * rewrite C. apply S0. rewrite D, C. reflexivity.
      * apply f_of_int_unique; [lia |].
        replace (i + a <? 0) with false by (symmetry; apply Z.ltb_ge; lia).
        replace (Z.abs (i + a)) with (i + a) by lia.
        eapply (rounded_comp 24 128 P24 M24); [exact D |].
        apply S1. rewrite D. change 0%Q with (inject_Z 0).
        rewrite <- Zlt_Qlt. lia.
Qed.

(** ** The unit interval, the cast to [int], double to float *)

Lemma Fvalue_f1 : (Fvalue f1 == 1)%Q.
Proof. reflexivity. Qed.

Lemma unit_interval (n : spec_float) :
  fin24 n = true -> sign_of n = false -> (Fmag n <= 1)%Q ->
  ge n f0 && le n f1 = true /\ clamp n f0 f1 = n.
Proof.
  intros F S H.
  destruct (fin_valid 24 128 P24 M24 n F) as [Vn Fn].
  assert (V1 : valid_binary 24 128 f1 = true) by reflexivity.
  assert (F1 : finite_or_zero f1 = true) by reflexivity.
  pose proof (Fvalue_pos n S) as Vp.
  destruct (fin_inv 24 128 P24 M24 n F) as [s [m [e [E _]]]].
  assert (Es : s = false) by (subst n; exact S). subst s.
  assert (L1 : le n f1 = true).
  { apply (SFleb_value 24 128 P24 M24 n f1 Vn V1 Fn F1).
    rewrite Fvalue_f1, Vp. exact H. }
  assert (L2 : lt f1 n = false).
  { destruct (lt f1 n) eqn:C; [| reflexivity].
    apply (SFltb_value 24 128 P24 M24 f1 n V1 Vn F1 Fn) in C.
    rewrite Fvalue_f1, Vp in C. lra. }
  split.
  - rewrite L1. subst n. reflexivity.
  - unfold clamp.
    assert (L0 : lt n f0 = false) by (subst n; reflexivity).
    rewrite L0, L2. reflexivity.
Qed.

Lemma inject_Z_pow_pos (k : Z) : 0 <= k -> (0 < inject_Z (2 ^ k))%Q.
Proof. intros H. rewrite <- bpow_Z by exact H. apply bpow_pos. Qed.

Lemma bpow_neg (p : positive) :
  (bpow (Zneg p) == 1 / inject_Z (2 ^ Zpos p))%Q.
Proof.
  pose proof (inject_Z_pow_pos (Zpos p) ltac:(lia)) as P.
  change (Zneg p) with (- Zpos p). unfold bpow.
  rewrite Qpower_opp. fold (bpow (Zpos p)).
  rewrite bpow_Z by lia. field. lra.
Qed.

(** The integer part of a non-negative finite value. *)
Lemma trunc_Z_floor (m : positive) (e : Z) :
  trunc_Z false m e = Qfloor (inject_Z (Zpos m) * bpow e).
Proof.
  unfold trunc_Z. destruct e as [| p | p].
  - rewrite Z.shiftl_0_r. rewrite bpow_0.
    rewrite (Qfloor_comp _ (inject_Z (Zpos m))) by ring.
    rewrite Qfloor_Z. reflexivity.
  - rewrite Z.shiftl_mul_pow2 by lia.
    rewrite bpow_Z by lia. rewrite <- inject_Z_mult, Qfloor_Z.
    reflexivity.
  - rewrite Z.shiftr_div_pow2 by lia.
    rewrite Zdiv_Qdiv. apply Qfloor_comp.
    pose proof (inject_Z_pow_pos (Zpos p) ltac:(lia)) as P.
    rewrite bpow_neg. field. lra.
Qed.

Lemma cast_int_floor (x : spec_float) (k : Z) :
  fin53 x = true -> sign_of x = false ->
  (inject_Z k <= Fmag x)%Q -> (Fmag x < inject_Z k + 1)%Q ->
  0 <= k <= INT_MAX ->
  cast_int x = Ok k.
Proof.
  intros F S Lo Hi Hk.
  destruct (fin_inv 53 1024 P53 M53 x F) as [s [m [e [-> _]]]].
  cbn [sign_of] in S. subst s.
  unfold cast_int, to_int. rewrite trunc_Z_floor.
  cbn [Fmag] in Lo, Hi.
  rewrite (Qfloor_unique k _ Lo Hi).
  assert (R : (INT_MIN <=? k) && (k <=? INT_MAX) = true).
  { apply andb_true_intro. split; apply Z.leb_le; unfold INT_MIN; lia. }
  rewrite R. reflexivity.
Qed.

(** double to float below 1: the distance is at most [2^-25]. *)
Lemma demote_unit (x : spec_float) :
  fin53 x = true -> sign_of x = false ->
  (bpow (-149) <= Fmag x)%Q -> (Fmag x < 1)%Q ->
  fin24 (demote x) = true
  /\ sign_of (demote x) = false
  /\ (Fmag (demote x) - (1 # 33554432) <= Fmag x)%Q
  /\ (Fmag x <= Fmag (demote x) + (1 # 33554432))%Q.
Proof.
  intros F S Lo Hi.
  destruct (fin_inv 53 1024 P53 M53 x F) as [s [m [e [-> _]]]].
  cbn [sign_of] in S. subst s. cbn [demote].
  pose proof (binary_round_rounded 24 128 P24 M24 false m e) as R.
  cbn [Fmag] in Lo, Hi.
  destruct (rounded_abs 24 128 P24 M24 false _ _ 0 R Lo
              ltac:(rewrite bpow_0; exact Hi) ltac:(lia))
    as [m' [e' [-> [B [A1 A2]]]]].
  split; [exact B |]. split; [reflexivity |].
  change (bpow (fexp 24 128 0 - 1)) with (bpow (-25)) in A1, A2.
  assert (E : (bpow (-25) == 1 # 33554432)%Q) by reflexivity.
  rewrite E in A1, A2. cbn [Fmag]. split; assumption.
Qed.

(** double to float: a float within half a unit in the last place is the
    result. *)
Lemma demote_near (x t : spec_float) (d : Z) :
  fin53 x = true -> fin24 t = true -> sign_of x = sign_of t ->
  binade d (Fmag x) -> binade d (Fmag t) ->
  (Fmag t - bpow (fexp 24 128 d - 1) < Fmag x)%Q ->
  (Fmag x < Fmag t + bpow (fexp 24 128 d - 1))%Q ->
  demote x = t.
Proof.
  intros F Ft S Bx Bt Lo Hi.
  destruct (fin_inv 53 1024 P53 M53 x F) as [s [m [e [-> _]]]].
  destruct (fin_inv 24 128 P24 M24 t Ft) as [s' [mt [et [-> B]]]].
  cbn [sign_of] in S. subst s'. cbn [demote].
  pose proof (binary_round_rounded 24 128 P24 M24 s m e) as R.
  exact (rounded_near 24 128 P24 M24 s _ _ d mt et R B Bx Bt Lo Hi).
Qed.

(** ** Double arithmetic away from the ends of the range *)

Lemma range53 (X : Q) :
  ((1 # 18446744073709551616) <= X)%Q ->
  (X <= 18446744073709551616)%Q ->
  (bpow (emin 53 1024 + 53) <= X)%Q /\ (X < bpow (1024 - 1))%Q.
Proof.
  intros Lo Hi.
  assert (A : (bpow (-64) == 1 # 18446744073709551616)%Q) by reflexivity.
  assert (B : (bpow 64 == 18446744073709551616)%Q) by reflexivity.
  pose proof (bpow_le (emin 53 1024 + 53) (-64) ltac:(unfold emin; lia)).
  pose proof (bpow_lt 64 (1024 - 1) ltac:(lia)).
  split; lra.
Qed.

Lemma range53' (X : Q) :
  ((1 # 18446744073709551616) <= X)%Q ->
  (X <= 18446744073709551616)%Q ->
  (bpow (emin 53 1024 + 53 - 1) <= X)%Q /\ (X < bpow (1024 - 1))%Q.
Proof.
  intros Lo Hi. destruct (range53 X Lo Hi) as [A B].
  split; [| exact B].
  pose proof (bpow_le (emin 53 1024 + 53 - 1) (emin 53 1024 + 53)
                ltac:(lia)).
  lra.
Qed.

Lemma dmul_num (x y : spec_float) (X : Q) :
  fin53 x = true -> fin53 y = true ->
  (X == Fmag x * Fmag y)%Q ->
  ((1 # 18446744073709551616) <= X)%Q ->
  (X <= 18446744073709551616)%Q ->
  fin53 (dmul x y) = true
  /\ sign_of (dmul x y) = xorb (sign_of x) (sign_of y)
  /\ (X * (1 - u53) <= Fmag (dmul x y))%Q
  /\ (Fmag (dmul x y) <= X * (1 + u53))%Q.
Proof.
  intros Fx Fy HX Lo Hi. destruct (range53' X Lo Hi) as [A B].
  pose proof (SFmul_rel 53 1024 P53 M53 x y X Fx Fy HX A B) as H.
  rewrite bpow_m53 in H. exact H.
Qed.

Lemma ddiv_num (x y : spec_float) (X : Q) :
  fin53 x = true -> fin53 y = true ->
  (X == Fmag x / Fmag y)%Q ->
  ((1 # 18446744073709551616) <= X)%Q ->
  (X <= 18446744073709551616)%Q ->
  fin53 (ddiv x y) = true
  /\ sign_of (ddiv x y) = xorb (sign_of x) (sign_of y)
  /\ (X * (1 - u53) <= Fmag (ddiv x y))%Q
  /\ (Fmag (ddiv x y) <= X * (1 + u53))%Q.
Proof.
  intros Fx Fy HX Lo Hi. destruct (range53 X Lo Hi) as [A B].
  pose proof (SFdiv_rel 53 1024 P53 M53 x y X Fx Fy HX A B) as H.
  rewrite bpow_m53 in H. exact H.
Qed.

Lemma dadd_num (x y : spec_float) (X : Q) :
  fin53 x = true -> fin53 y = true ->
  (X == Fvalue x + Fvalue y)%Q ->
  ((1 # 18446744073709551616) <= X)%Q ->
  (X <= 18446744073709551616)%Q ->
  fin53 (dadd x y) = true
  /\ sign_of (dadd x y) = false
  /\ (X * (1 - u53) <= Fmag (dadd x y))%Q
  /\ (Fmag (dadd x y) <= X * (1 + u53))%Q.
Proof.
  intros Fx Fy HX Lo Hi. destruct (range53' X Lo Hi) as [A B].
  pose proof (SFadd_rel 53 1024 P53 M53 x y X Fx Fy HX A B) as H.
  rewrite bpow_m53 in H. exact H.
Qed.

Lemma dsub_num (x y : spec_float) (X : Q) :
  fin53 x = true -> fin53 y = true ->
  (X == Fvalue x - Fvalue y)%Q ->
  ((1 # 18446744073709551616) <= X)%Q ->
  (X <= 18446744073709551616)%Q ->
  fin53 (dsub x y) = true
  /\ sign_of (dsub x y) = false
  /\ (X * (1 - u53) <= Fmag (dsub x y))%Q
  /\ (Fmag (dsub x y) <= X * (1 + u53))%Q.
Proof.
  intros Fx Fy HX Lo Hi. destruct (range53' X Lo Hi) as [A B].
  pose proof (SFsub_rel 53 1024 P53 M53 x y X Fx Fy HX A B) as H.
  rewrite bpow_m53 in H. exact H.
Qed.

(** ** The constants of the Int mapping as rationals *)

Definition c99 : Q := 8917127262193582 # 9007199254740992.
Definition c5 : Q := 5764607523034235 # 1152921504606846976.
Definition ci : Q := 4549090532697471 # 4503599627370496.

Lemma d_0_99_fin :
  fin53 d_0_99 = true /\ sign_of d_0_99 = false
  /\ (Fmag d_0_99 == c99)%Q.
Proof. repeat split. Qed.

Lemma d_0_005_fin :
  fin53 d_0_005 = true /\ sign_of d_0_005 = false
  /\ (Fmag d_0_005 == c5)%Q.
Proof. repeat split. Qed.

Lemma d_inv_fin :
  fin53 (ddiv d_1 d_0_99) = true /\ sign_of (ddiv d_1 d_0_99) = false
  /\ (Fmag (ddiv d_1 d_0_99) == ci)%Q.
Proof.
  assert (E : ddiv d_1 d_0_99 = S754_finite false 4549090532697471 (-52))
    by (vm_compute; reflexivity).
  rewrite E. repeat split.
Qed.

Lemma d_0_5_fin :
  fin53 d_0_5 = true /\ sign_of d_0_5 = false
  /\ (Fmag d_0_5 == 1 # 2)%Q.
Proof. repeat split. Qed.

(** An integer width as a double. *)
Lemma width_fin (N : Z) :
  0 < N <= 16777216 ->
  fin53 (promote (f_of_int N)) = true
  /\ sign_of (promote (f_of_int N)) = false
  /\ (Fmag (promote (f_of_int N)) == inject_Z N)%Q.
Proof.
  intros HN.
  destruct (f_of_int_pos N HN) as [F [S V]].
  destruct (promote_fin _ F) as [F' [S' V']].
  split; [exact F' |]. split; [rewrite S'; exact S |].
  rewrite V'. exact V.
Qed.

Lemma ratio_bounds (k N : Z) :
  1 <= k <= N -> N <= 16600000 ->
  ((1 # 16600000) <= inject_Z k / inject_Z N)%Q
  /\ (inject_Z k / inject_Z N <= 1)%Q.
Proof.
  intros Hk HN.
  assert (N0 : (0 < inject_Z N)%Q)
    by (change 0%Q with (inject_Z 0); rewrite <- Zlt_Qlt; lia).
  assert (K1 : (1 <= inject_Z k)%Q)
    by (change 1%Q with (inject_Z 1); rewrite <- Zle_Qle; lia).
  assert (KN : (inject_Z k <= inject_Z N)%Q) by (rewrite <- Zle_Qle; lia).
  assert (NM : (inject_Z N <= 16600000)%Q)
    by (change 16600000%Q with (inject_Z 16600000);
        rewrite <- Zle_Qle; lia).
  split.
  - apply Qle_shift_div_l; [exact N0 | lra].
  - apply Qle_shift_div_r; [exact N0 | lra].
Qed.

Lemma div_bounds (a b T k N : Q) :
  (0 < N)%Q -> (a * k <= T)%Q -> (T <= b * k)%Q ->
  (a * (k / N) <= T / N)%Q /\ (T / N <= b * (k / N))%Q.
Proof.
  intros HN Lo Hi. split.
  - apply Qle_shift_div_l; [exact HN |].
    assert (E : (a * (k / N) * N == a * k)%Q) by (field; lra).
    rewrite E. exact Lo.
  - apply Qle_shift_div_r; [exact HN |].
    assert (E : (b * (k / N) * N == b * k)%Q) by (field; lra).
    rewrite E. exact Hi.
Qed.

(** The forward mapping at an integer [k] of [1 .. N]: the normalized
    value is within [2^-25 + 10^-13] of [0.005 + 0.99 k / N]. *)
Lemma int_forward_bounds (k N : Z) :
  1 <= k <= N -> N <= 16600000 ->
  let n := demote (dadd d_0_005
                     (ddiv (dmul d_0_99 (promote (f_of_int k)))
                           (promote (f_of_int N)))) in
  let y := (inject_Z k / inject_Z N)%Q in
  fin24 n = true /\ sign_of n = false
  /\ ((5 # 1000) + (99 # 100) * y - (29803 # 1000000000000) <= Fmag n)%Q
  /\ (Fmag n <= (5 # 1000) + (99 # 100) * y
                + (29803 # 1000000000000))%Q.
Proof.
  intros Hk HN n y.
  destruct (ratio_bounds k N Hk HN) as [Ylo Yhi]. fold y in Ylo, Yhi.
  destruct (width_fin k ltac:(lia)) as [FK [SK VK]].
  destruct (width_fin N ltac:(lia)) as [FW [SW VW]].
  destruct d_0_99_fin as [F99 [S99 V99]].
  destruct d_0_005_fin as [F5 [S5 V5]].
  assert (K1 : (1 <= inject_Z k)%Q)
    by (change 1%Q with (inject_Z 1); rewrite <- Zle_Qle; lia).
  assert (KM : (inject_Z k <= 16600000)%Q)
    by (change 16600000%Q with (inject_Z 16600000);
        rewrite <- Zle_Qle; lia).
  assert (N0 : (0 < inject_Z N)%Q)
    by (change 0%Q with (inject_Z 0); rewrite <- Zlt_Qlt; lia).
  (* 0.99 * k *)
  destruct (dmul_num d_0_99 (promote (f_of_int k)) (c99 * inject_Z k))
    as [F1 [S1 [L1 H1]]];
    [exact F99 | exact FK | rewrite V99, VK; reflexivity
     | unfold c99; lra | unfold c99; lra |].
  rewrite S99, SK in S1. cbn [xorb] in S1.
  set (t1 := dmul d_0_99 (promote (f_of_int k))) in *.
  (* ... / N *)
  assert (B1 : ((98999999999999 # 100000000000000) * inject_Z k
                <= Fmag t1)%Q) by (unfold c99, u53 in *; lra).
  assert (B2 : (Fmag t1
                <= (99000000000001 # 100000000000000) * inject_Z k)%Q)
    by (unfold c99, u53 in *; lra).
  destruct (div_bounds _ _ _ _ _ N0 B1 B2) as [C1 C2]. fold y in C1, C2.
  destruct (ddiv_num t1 (promote (f_of_int N)) (Fmag t1 / inject_Z N))
    as [F2 [S2 [L2 H2]]];
    [exact F1 | exact FW | rewrite VW; reflexivity | lra | lra |].
  rewrite S1, SW in S2. cbn [xorb] in S2.
  set (t2 := ddiv t1 (promote (f_of_int N))) in *.
  (* 0.005 + ... *)
  destruct (dadd_num d_0_005 t2 (c5 + Fmag t2)) as [F3 [S3 [L3 H3]]];
    [exact F5 | exact F2
     | rewrite (Fvalue_pos _ S5), (Fvalue_pos _ S2), V5; reflexivity
     | unfold c5, u53 in *; lra | unfold c5, u53 in *; lra |].
  set (t3 := dadd d_0_005 t2) in *.
  (* to float *)
  assert (T3lo : ((5 # 1000) + (99 # 100) * y - (1 # 10000000000000)
                  <= Fmag t3)%Q) by (unfold c5, u53 in *; lra).
  assert (T3hi : (Fmag t3 <= (5 # 1000) + (99 # 100) * y
                             + (1 # 10000000000000))%Q)
    by (unfold c5, u53 in *; lra).
  destruct (demote_unit t3 F3 S3) as [F4 [S4 [L4 H4]]].
  - pose proof (bpow_le (-149) (-10) ltac:(lia)) as P.
    assert (E : (bpow (-10) == 1 # 1024)%Q) by reflexivity.
    lra.
  - lra.
  - fold n in F4, S4, L4, H4.
    split; [exact F4 |]. split; [exact S4 |]. split; lra.
Qed.

Lemma scale_bounds (a1 a2 b U y k N : Q) :
  (0 <= N)%Q -> (y * N == k)%Q ->
  (a1 * y - b <= U)%Q -> (U <= a2 * y + b)%Q ->
  (a1 * k - b * N <= U * N)%Q /\ (U * N <= a2 * k + b * N)%Q.
Proof.
  intros HN Hy Lo Hi. split.
  - assert (E : (a1 * k - b * N == (a1 * y - b) * N)%Q)
      by (rewrite <- Hy; ring).
    rewrite E. apply Qmult_le_compat_r; assumption.
  - assert (E : (a2 * k + b * N == (a2 * y + b) * N)%Q)
      by (rewrite <- Hy; ring).
    rewrite E. apply Qmult_le_compat_r; assumption.
Qed.

(** The backward mapping on a normalized value within [2^-25 + 10^-13]
    of [0.005 + 0.99 k / N] gives [k] back. *)
Lemma int_backward_bounds (n : spec_float) (k N : Z) :
  1 <= k <= N -> N <= 16600000 ->
  fin24 n = true -> sign_of n = false ->
  let y := (inject_Z k / inject_Z N)%Q in
  ((5 # 1000) + (99 # 100) * y - (29803 # 1000000000000) <= Fmag n)%Q ->
  (Fmag n <= (5 # 1000) + (99 # 100) * y + (29803 # 1000000000000))%Q ->
  ge n f0 && le n f1 = true
  /\ int_backward n (f_of_int N) = Ok k.
Proof.
  intros Hk HN Fn Sn y Lo Hi.
  destruct (ratio_bounds k N Hk HN) as [Ylo Yhi]. fold y in Ylo, Yhi.
  destruct (width_fin N ltac:(lia)) as [FW [SW VW]].
  destruct d_0_005_fin as [F5 [S5 V5]].
  destruct d_inv_fin as [Fi [Si Vi]].
  destruct d_0_5_fin as [Fh [Sh Vh]].
  assert (K1 : (1 <= inject_Z k)%Q)
    by (change 1%Q with (inject_Z 1); rewrite <- Zle_Qle; lia).
  assert (KN : (inject_Z k <= inject_Z N)%Q) by (rewrite <- Zle_Qle; lia).
  assert (NM : (inject_Z N <= 16600000)%Q)
    by (change 16600000%Q with (inject_Z 16600000);
        rewrite <- Zle_Qle; lia).
  assert (N0 : (0 < inject_Z N)%Q) by lra.
  assert (HyN : (y * inject_Z N == inject_Z k)%Q)
    by (unfold y; field; lra).
  destruct (unit_interval n Fn Sn ltac:(lra)) as [Hin Hcl].
  split; [exact Hin |].
  unfold int_backward. rewrite Hcl.
  destruct (promote_fin n Fn) as [FP [SP VP]]. rewrite Sn in SP.
  set (P := promote n) in *.
  (* n - 0.005 *)
  destruct (dsub_num P d_0_005 (Fmag n - c5)) as [F1 [S1 [L1 H1]]];
    [exact FP | exact F5
     | rewrite (Fvalue_pos _ SP), (Fvalue_pos _ S5), VP, V5; reflexivity
     | unfold c5; lra | unfold c5; lra |].
  set (u1 := dsub P d_0_005) in *.
  (* (1 / 0.99) * ... *)
  destruct (dmul_num (ddiv d_1 d_0_99) u1 (ci * Fmag u1))
    as [F2 [S2 [L2 H2]]];
    [exact Fi | exact F1 | rewrite Vi; reflexivity
     | unfold ci, c5, u53 in *; lra | unfold ci, c5, u53 in *; lra |].
  rewrite Si, S1 in S2. cbn [xorb] in S2.
  set (u2 := dmul (ddiv d_1 d_0_99) u1) in *.
  assert (B1 : ((999999999999999 # 1000000000000000) * y
                - (30105 # 1000000000000) <= Fmag u2)%Q)
    by (unfold ci, c5, u53 in *; lra).
  assert (B2 : (Fmag u2 <= (1000000000000001 # 1000000000000000) * y
                           + (30105 # 1000000000000))%Q)
    by (unfold ci, c5, u53 in *; lra).
  destruct (scale_bounds _ _ _ _ y (inject_Z k) (inject_Z N)
              (Qlt_le_weak _ _ N0) HyN B1 B2) as [C1 C2].
  (* ... * N *)
  destruct (dmul_num u2 (promote (f_of_int N)) (Fmag u2 * inject_Z N))
    as [F3 [S3 [L3 H3]]];
    [exact F2 | exact FW | rewrite VW; reflexivity | lra | lra |].
  rewrite S2, SW in S3. cbn [xorb] in S3.
  set (u3 := dmul u2 (promote (f_of_int N))) in *.
  (* ... + 0.5 *)
  destruct (dadd_num u3 d_0_5 (Fmag u3 + (1 # 2))) as [F4 [S4 [L4 H4]]];
    [exact F3 | exact Fh
     | rewrite (Fvalue_pos _ S3), (Fvalue_pos _ Sh), Vh; reflexivity
     | unfold u53 in *; lra | unfold u53 in *; lra |].
  set (u4 := dadd u3 d_0_5) in *.
  apply cast_int_floor; [exact F4 | exact S4 | | |].
  - unfold u53 in *; lra.
  - unfold u53 in *; lra.
  - unfold INT_MAX. lia.
Qed.

(** ** The Int mapping on the integers *)

(** At [k = 0] the normalized value is the float nearest to 0.005, which
    lies below the double 0.005: the backward mapping computes a small
    negative number plus one half. *)
Lemma int_backward_at_min (N : Z) :
  1 <= N <= 16600000 ->
  int_backward f_0_005 (f_of_int N) = Ok 0.
Proof.
  intros HN.
  destruct (width_fin N ltac:(lia)) as [FW [SW VW]].
  destruct d_0_5_fin as [Fh [Sh Vh]].
  assert (N1 : (1 <= inject_Z N)%Q)
    by (change 1%Q with (inject_Z 1); rewrite <- Zle_Qle; lia).
  assert (NM : (inject_Z N <= 16600000)%Q)
    by (change 16600000%Q with (inject_Z 16600000);
        rewrite <- Zle_Qle; lia).
  unfold int_backward.
  assert (E : dmul (ddiv d_1 d_0_99)
                (dsub (promote (clamp f_0_005 f0 f1)) d_0_005)
              = S754_finite true 8734253830913552 (-86))
    by (vm_compute; reflexivity).
  rewrite E.
  set (eta := S754_finite true 8734253830913552 (-86)) in *.
  assert (Fe : fin53 eta = true) by reflexivity.
  assert (Ve : (Fmag eta == 8734253830913552
                             # 77371252455336267181195264)%Q)
    by reflexivity.
  destruct (dmul_num eta (promote (f_of_int N)) (Fmag eta * inject_Z N))
    as [F3 [S3 [L3 H3]]];
    [exact Fe | exact FW | rewrite VW; reflexivity
     | rewrite Ve; lra | rewrite Ve; lra |].
  rewrite SW in S3. cbn [sign_of eta xorb] in S3.
  set (u3 := dmul eta (promote (f_of_int N))) in *.
  pose proof (Fvalue_sign u3) as V3. rewrite S3 in V3.
  rewrite Ve in L3, H3.
  destruct (dadd_num u3 d_0_5 ((1 # 2) - Fmag u3)) as [F4 [S4 [L4 H4]]];
    [exact F3 | exact Fh
     | rewrite V3, (Fvalue_pos _ Sh), Vh; ring
     | unfold u53 in *; lra | unfold u53 in *; lra |].
  apply cast_int_floor; [exact F4 | exact S4 | | |].
  - change (inject_Z 0) with 0%Q. unfold u53 in *. lra.
  - change (inject_Z 0) with 0%Q. unfold u53 in *. lra.
  - unfold INT_MAX. lia.
Qed.

Lemma int_forward_at_min (N : Z) :
  1 <= N <= 16777216 ->
  int_forward (f_of_int 0) (f_of_int N) = f_0_005.
Proof.
  intros HN.
  destruct (width_fin N ltac:(lia)) as [FW _].
  destruct (fin_inv 53 1024 P53 M53 _ FW) as [s [m [e [E _]]]].
  unfold int_forward. rewrite E. destruct s; reflexivity.
Qed.

(** Every integer of [0 .. N] comes back, for widths up to 16 600 000. *)
Lemma int_mapping_inverts (N k : Z) :
  1 <= N <= 16600000 -> 0 <= k <= N ->
  let x := int_forward (f_of_int k) (f_of_int N) in
  ge x f0 && le x f1 = true
  /\ int_backward x (f_of_int N) = Ok k.
Proof.
  intros HN Hk x.
  destruct (Z.eq_dec k 0) as [-> | Nk].
  - unfold x. rewrite int_forward_at_min by lia.
    split; [reflexivity | apply int_backward_at_min; exact HN].
  - destruct (int_forward_bounds k N ltac:(lia) ltac:(lia))
      as [Fn [Sn [Lo Hi]]].
    set (n := demote _) in *.
    destruct (int_backward_bounds n k N ltac:(lia) ltac:(lia) Fn Sn Lo Hi)
      as [Hin Hb].
    assert (Hx : x = n).
    { unfold x, int_forward. fold n.
      apply unit_interval; [exact Fn | exact Sn |].
      destruct (ratio_bounds k N ltac:(lia) ltac:(lia)) as [_ Yhi].
      lra. }
    rewrite Hx. split; assumption.
Qed.

(** ** The ends of the Int mapping, for every width *)

Lemma xorb_same (s : bool) : xorb s s = false.
Proof. destruct s; reflexivity. Qed.

(** [0.005 + 0.99 * w / w] is the float nearest to 0.995 for every
    finite non-zero float [w]. *)
Lemma int_forward_at_max (w : spec_float) :
  fin24 w = true -> int_forward w w = f_0_995.
Proof.
  intros Fw.
  destruct (promote_fin w Fw) as [FW [SW VW]].
  destruct (fin_Fmag_range 24 128 P24 M24 w Fw) as [Wlo Whi].
  pose proof (fin_Fmag_pos 24 128 P24 M24 w Fw) as Wpos.
  destruct d_0_99_fin as [F99 [S99 V99]].
  destruct d_0_005_fin as [F5 [S5 V5]].
  set (W := promote w) in *.
  (* 0.99 * w *)
  assert (R1 : (bpow (emin 53 1024 + 53 - 1) <= c99 * Fmag w)%Q).
  { pose proof (bpow_le (emin 53 1024 + 53 - 1) (-149 - 1)
                  ltac:(unfold emin; lia)) as A.
    pose proof (bpow_pred (-149)) as B.
    change (emin 24 128) with (-149) in Wlo.
    unfold c99. lra. }
  assert (R2 : (c99 * Fmag w < bpow (1024 - 1))%Q).
  { pose proof (bpow_le 128 (1024 - 1) ltac:(lia)) as A.
    unfold c99. lra. }
  destruct (SFmul_rel 53 1024 P53 M53 d_0_99 W (c99 * Fmag w) F99 FW
              ltac:(rewrite V99, VW; reflexivity) R1 R2)
    as [F1 [S1 [L1 H1]]].
  fold (dmul d_0_99 W) in F1, S1, L1, H1.
  rewrite S99 in S1. cbn [xorb] in S1.
  set (t1 := dmul d_0_99 W) in *. rewrite bpow_m53 in L1, H1.
  (* ... / w *)
  assert (B1 : (c99 * (1 - u53) * Fmag w <= Fmag t1)%Q) by lra.
  assert (B2 : (Fmag t1 <= c99 * (1 + u53) * Fmag w)%Q) by lra.
  destruct (div_bounds _ _ _ _ _ Wpos B1 B2) as [C1 C2].
  assert (E1 : (Fmag w / Fmag w == 1)%Q) by (field; lra).
  rewrite E1 in C1, C2.
  destruct (ddiv_num t1 W (Fmag t1 / Fmag w)) as [F2 [S2 [L2 H2]]];
    [exact F1 | exact FW | rewrite VW; reflexivity
     | unfold c99, u53 in *; lra | unfold c99, u53 in *; lra |].
  rewrite S1, xorb_same in S2.
  set (t2 := ddiv t1 W) in *.
  (* 0.005 + ... *)
  destruct (dadd_num d_0_005 t2 (c5 + Fmag t2)) as [F3 [S3 [L3 H3]]];
    [exact F5 | exact F2
     | rewrite (Fvalue_pos _ S5), (Fvalue_pos _ S2), V5; reflexivity
     | unfold c5, c99, u53 in *; lra | unfold c5, c99, u53 in *; lra |].
  set (t3 := dadd d_0_005 t2) in *.
  (* to float *)
  assert (V995 : (Fmag f_0_995 == 16693330 # 16777216)%Q) by reflexivity.
  assert (Hd : demote t3 = f_0_995).
  { apply (demote_near t3 f_0_995 0); [exact F3 | reflexivity | exact S3
                                      | | | |].
    - unfold binade. change (bpow (0 - 1)) with (bpow (-1)).
      assert (A : (bpow (-1) == 1 # 2)%Q) by reflexivity.
      rewrite A, bpow_0. unfold c5, c99, u53 in *. split; lra.
    - unfold binade. change (bpow (0 - 1)) with (bpow (-1)).
      assert (A : (bpow (-1) == 1 # 2)%Q) by reflexivity.
      rewrite A, bpow_0, V995. split; lra.
    - change (bpow (fexp 24 128 0 - 1)) with (bpow (-25)).
      assert (A : (bpow (-25) == 1 # 33554432)%Q) by reflexivity.
      rewrite A, V995. unfold c5, c99, u53 in *. lra.
    - change (bpow (fexp 24 128 0 - 1)) with (bpow (-25)).
      assert (A : (bpow (-25) == 1 # 33554432)%Q) by reflexivity.
      rewrite A, V995. unfold c5, c99, u53 in *. lra. }
  unfold int_forward. fold W t1 t2 t3. rewrite Hd. reflexivity.
Qed.

(** [0.005 + 0.99 * 0 / w] is the float nearest to 0.005. *)
Lemma int_forward_at_zero (z : bool) (w : spec_float) :
  fin24 w = true -> int_forward (S754_zero z) w = f_0_005.
Proof.
  intros Fw.
  destruct (promote_fin w Fw) as [FW _].
  destruct (fin_inv 53 1024 P53 M53 _ FW) as [s [m [e [E _]]]].
  unfold int_forward. rewrite E. destruct z, s; reflexivity.
Qed.

Lemma f_of_int_valid (z : Z) :
  -16777216 <= z <= 16777216 ->
  valid_binary 24 128 (f_of_int z) = true
  /\ finite_or_zero (f_of_int z) = true.
Proof.
  intros Hz. destruct (Z.eq_dec z 0) as [-> | Nz]; [split; reflexivity |].
  destruct (f_of_int_fin z Nz Hz) as [F _].
  exact (fin_valid 24 128 P24 M24 _ F).
Qed.

Lemma f_of_int_ne (v a : Z) :
  -16777216 <= a <= 16777216 -> -16777216 <= v <= 16777216 ->
  v <> a -> ne (f_of_int v) (f_of_int a) = true.
Proof.
  intros Ha Hv Hne.
  destruct (f_of_int_valid a Ha) as [Va Fa].
  destruct (f_of_int_valid v Hv) as [Vv Fv].
  unfold ne, eq. destruct (SFeqb (f_of_int v) (f_of_int a)) eqn:C;
    [| reflexivity].
  apply (SFeqb_value 24 128 P24 M24 _ _ Vv Va Fv Fa) in C.
  rewrite !f_of_int_value in C by assumption.
  apply (proj1 (inject_Z_injective _ _)) in C. contradiction.
Qed.

Lemma finite_float_fin (x : spec_float) : finite_float x = fin24 x.
Proof. destruct x; reflexivity. Qed.

Lemma fsub_fin_operands (a b : spec_float) :
  fin24 (fsub a b) = true -> finite_or_zero a = true /\ finite_or_zero b = true.
Proof.
  destruct a as [sa | sa | | sa ma ea], b as [sb | sb | | sb mb eb];
    cbn; try discriminate; try (split; reflexivity);
    destruct sa, sb; discriminate.
Qed.

(** An Int descriptor with the range [0, 16610164]. *)
Definition intNearLimit : ParamMetaData :=
  Eval vm_compute in
    snd (withRange (snd (withType ParamMetaData_default INT))
           (f_of_int 0) (f_of_int 16610164)).

(** An Int descriptor with the range of all finite floats: its bounds
    differ and its width overflows. *)
Definition intWhole : ParamMetaData :=
  Eval vm_compute in
    snd (withRange (snd (withType ParamMetaData_default INT))
           (S754_finite true 16777215 104) (S754_finite false 16777215 104)).

(** C3 as stated fails.  With the bounds 0.5 and 10.5 the integer 1 comes
    back as 0.5: the inverse yields [minVal] plus an integer.  With the
    integer bounds 0 and 2^24 the integer 16777158 does not come back
    either, nor does 8316614 with the bounds 0 and 16610164: the
    normalized value is a float, and above a width of about 0.99 * 2^24
    two neighbouring integers can share one.  With the range of all
    finite floats the width is infinite and [maxVal] maps to NaN. *)
Lemma int_round_trip_fails :
  type intHalves = INT
  /\ ne (minVal intHalves) (maxVal intHalves) = true
  /\ le (minVal intHalves) (f_of_int 1) = true
  /\ le (f_of_int 1) (maxVal intHalves) = true
  /\ ~ round_trips (Reference.env false) intHalves (f_of_int 1)
  /\ type intWide = INT
  /\ ne (minVal intWide) (maxVal intWide) = true
  /\ le (minVal intWide) (f_of_int 16777158) = true
  /\ le (f_of_int 16777158) (maxVal intWide) = true
  /\ ~ round_trips (Reference.env false) intWide (f_of_int 16777158)
  /\ type intNearLimit = INT
  /\ ne (minVal intNearLimit) (maxVal intNearLimit) = true
  /\ le (minVal intNearLimit) (f_of_int 8316614) = true
  /\ le (f_of_int 8316614) (maxVal intNearLimit) = true
  /\ ~ round_trips (Reference.env false) intNearLimit (f_of_int 8316614)
  /\ type intWhole = INT
  /\ ne (minVal intWhole) (maxVal intWhole) = true
  /\ naturalToNormalized01 (Reference.env false) intWhole (maxVal intWhole)
     = Ok S754_nan.
Proof.
  repeat split.
  - intros [x [Hx Hr]]. vm_compute in Hx. injection Hx as <-.
    vm_compute in Hr. discriminate Hr.
  - intros [x [Hx Hr]]. vm_compute in Hx. injection Hx as <-.
    vm_compute in Hr. discriminate Hr.
  - intros [x [Hx Hr]]. vm_compute in Hx. injection Hx as <-.
    vm_compute in Hr. discriminate Hr.
Qed.

(** C3, amended.  For every Int descriptor whose width [maxVal - minVal]
    is a finite, non-zero float, whatever the bounds are:
    [naturalToNormalized01(minVal)] is the float nearest to 0.005 and
    [naturalToNormalized01(maxVal)] is the float nearest to 0.995.  When
    the width is an integer [N <= 16600000], every value [v = minVal + k]
    with [0 <= k <= N] for which the float subtraction [v - minVal] and
    the float addition [k + minVal] are exact comes back exactly from
    [normalized01ToNatural(naturalToNormalized01(v))].  In particular,
    when the bounds are integers of magnitude at most 2^24 with
    [maxVal - minVal <= 16600000], every integer [v] with
    minVal <= v <= maxVal comes back exactly. *)
Theorem int_round_trip :
  forall (E : Env) (p : ParamMetaData),
    type p = INT ->
    finite_float (fsub (maxVal p) (minVal p)) = true ->
    naturalToNormalized01 E p (minVal p) = Ok f_0_005
    /\ naturalToNormalized01 E p (maxVal p) = Ok f_0_995
    /\ (forall (v : float) (k N : Z),
          fsub (maxVal p) (minVal p) = f_of_int N ->
          fsub v (minVal p) = f_of_int k ->
          fadd (f_of_int k) (minVal p) = v ->
          0 <= k <= N -> N <= 16600000 ->
          round_trips E p v)
    /\ (forall a b v : Z,
          minVal p = f_of_int a ->
          maxVal p = f_of_int b ->
          -16777216 <= a -> b <= 16777216 ->
          b - a <= 16600000 ->
          a <= v <= b ->
          round_trips E p (f_of_int v)).
Proof.
  intros E p Ht Hw.
  pose proof (fsub_finite_ne _ _ Hw) as Hne.
  pose proof Hw as Fw. rewrite finite_float_fin in Fw.
  destruct (fsub_fin_operands _ _ Fw) as [_ Fmin].
  assert (Hgen : forall (v : float) (k N : Z),
             fsub (maxVal p) (minVal p) = f_of_int N ->
             fsub v (minVal p) = f_of_int k ->
             fadd (f_of_int k) (minVal p) = v ->
             0 <= k <= N -> N <= 16600000 ->
             round_trips E p v).
  { intros v k N HN Hk Hv Hkn HN'.
    assert (N1 : 1 <= N).
    { destruct (Z.eq_dec N 0) as [-> | N0]; [| lia].
      rewrite HN in Hw. discriminate Hw. }
    destruct (int_mapping_inverts N k ltac:(lia) Hkn) as [Hx Hback].
    exists (int_forward (f_of_int k) (f_of_int N)).
    split.
    - rewrite (naturalToNormalized01_INT E p _ Ht Hne).
      rewrite HN, Hk. reflexivity.
    - rewrite (normalized01ToNatural_INT E p _ Ht Hne Hx).
      rewrite HN, Hback. unfold bind, ret. rewrite Hv. reflexivity. }
  split; [| split; [| split]].
  - rewrite (naturalToNormalized01_INT E p _ Ht Hne).
    rewrite (fsub_self _ Fmin). f_equal.
    apply int_forward_at_zero. exact Fw.
  - rewrite (naturalToNormalized01_INT E p _ Ht Hne). f_equal.
    apply int_forward_at_max. exact Fw.
  - exact Hgen.
  - intros a b v Hmin Hmax Ha Hb Hba Hv.
    apply (Hgen (f_of_int v) (v - a) (b - a)).
    + rewrite Hmin, Hmax. apply fsub_int; lia.
    + rewrite Hmin. apply fsub_int; lia.
    + rewrite Hmin, fadd_int by lia. f_equal. lia.
    + lia.
    + lia.
Qed.

Lemma int_round_trip_witness :
  round_trips (Reference.env false) midiNote (f_of_int 60)
  /\ naturalToNormalized01 (Reference.env false) midiNote (f_of_int 127)
     = Ok f_0_995.
Proof.
  split.
  - apply (proj2 (proj2 (proj2 (int_round_trip (Reference.env false)
                                  midiNote eq_refl eq_refl))) 0 127 60);
      [reflexivity | reflexivity | lia | lia | lia | lia].
  - apply (int_round_trip (Reference.env false) midiNote eq_refl eq_refl).
Defined.

(* ================================================================== *)
(** * Clamping in the two conversions *)

(** Comparisons of two non-negative finite values are antisymmetric. *)
Lemma SFleb_of_not_SFltb_finite (m1 m2 : positive) (e1 e2 : Z) :
  SFltb (S754_finite false m1 e1) (S754_finite false m2 e2) = false ->
  SFleb (S754_finite false m2 e2) (S754_finite false m1 e1) = true.
Proof.
  unfold SFltb, SFleb, SFcompare.
  rewrite !Pos.compare_cont_spec.
  destruct (Z.compare_spec e1 e2), (Z.compare_spec e2 e1);
    try lia; try discriminate; try reflexivity.
  destruct (Pos.compare_spec m1 m2), (Pos.compare_spec m2 m1);
    try lia; try discriminate; reflexivity.
Qed.

Lemma SFeqb_finite_inv (s : bool) (m1 m2 : positive) (e1 e2 : Z) :
  SFeqb (S754_finite s m1 e1) (S754_finite false m2 e2) = true ->
  s = false /\ m1 = m2 /\ e1 = e2.
Proof.
  unfold SFeqb, SFcompare. destruct s; [discriminate |].
  destruct (Z.compare_spec e1 e2); try discriminate.
  destruct (Pos.compare_cont Eq m1 m2) eqn:Hm; try discriminate.
  intros _. apply Pos.compare_eq in Hm. now subst.
Qed.

(** The result of [std::clamp(v, 0.f, 1.f)] is NaN (when [v] is) or lies
    in [0, 1]. *)
Lemma clamp_01_range (v : spec_float) :
  is_nan (clamp v f0 f1) = true
  \/ (le f0 (clamp v f0 f1) = true /\ le (clamp v f0 f1) f1 = true).
Proof.
  unfold clamp.
  destruct v as [s | s | | s m e].
  - right. destruct s; split; reflexivity.
  - right. destruct s; split; reflexivity.
  - left. reflexivity.
  - right. destruct s; [split; reflexivity |].
    change (lt (S754_finite false m e) f0) with false. cbv iota.
    destruct (lt f1 (S754_finite false m e)) eqn:H1;
      [split; reflexivity |].
    split; [reflexivity |].
    exact (SFleb_of_not_SFltb_finite 8388608 m (-23) e H1).
Qed.

(** ** float to double for normal floats *)

Lemma digits2_shift29 (m : positive) :
  digits2_pos m = 24%positive ->
  digits2_pos (Pos.iter xO m 29) = 53%positive.
Proof.
  intros H. cbv [Pos.iter]. cbn [digits2_pos]. rewrite H. reflexivity.
Qed.

(** A float with a full 24-bit mantissa converts to the double with the
    same value: mantissa shifted by 29 bits. *)
Lemma promote_normal (s : bool) (m : positive) (e : Z) :
  digits2_pos m = 24%positive ->
  -149 <= e <= 104 ->
  promote (S754_finite s m e)
  = S754_finite s (Pos.iter xO m 29) (e - 29).
Proof.
  intros Hd He.
  pose proof (digits2_shift29 m Hd) as HD.
  unfold promote, binary_round.
  rewrite Hd.
  replace (fexp 53 1024 (24 + e)) with (e - 29)
    by (unfold fexp, emin; lia).
  unfold shl_align.
  replace (e - 29 - e) with (Zneg 29) by lia.
  unfold binary_round_aux, shr_fexp.
  cbn [Zdigits2]. rewrite HD.
  replace (fexp 53 1024 (53 + (e - 29)) - (e - 29)) with 0
    by (unfold fexp, emin; lia).
  cbn [shr shr_record_of_loc loc_of_shr_record shr_m round_nearest_even].
  cbn [Zdigits2]. rewrite HD.
  replace (fexp 53 1024 (53 + (e - 29)) - (e - 29)) with 0
    by (unfold fexp, emin; lia).
  cbn [shr shr_record_of_loc shr_m].
  destruct (e - 29 <=? 1024 - 53) eqn:Hle; [reflexivity |].
  apply Z.leb_gt in Hle. lia.
Qed.

Lemma eq_zero_inv (x : spec_float) :
  eq x (f_of_int 0) = true -> exists s, x = S754_zero s.
Proof.
  destruct x as [s | s | | s m e]; try (destruct s; discriminate).
  - intros _. now exists s.
  - discriminate.
Qed.

Lemma eq_one_inv (x : spec_float) : eq x (f_of_int 1) = true -> x = f1.
Proof.
  destruct x as [s | s | | s m e]; try (destruct s; discriminate);
    try discriminate.
  intros H. change (f_of_int 1) with f1 in H.
  destruct (SFeqb_finite_inv s m 8388608 e (-23) H) as [-> [-> ->]].
  reflexivity.
Qed.

(** A negative float stays below one half as a double. *)
Lemma promote_negative_below_half (m : positive) (e : Z) :
  gt (promote (S754_finite true m e)) d_0_5 = false.
Proof.
  unfold promote, binary_round.
  destruct (shl_align _ _ _) as [mz ez].
  unfold binary_round_aux.
  destruct (shr_fexp _ _ _ _ _) as [mrs' e'].
  destruct (shr_fexp _ _ _ _ _) as [mrs'' e''].
  destruct (shr_m mrs''); [reflexivity | | reflexivity].
  destruct (_ <=? _); reflexivity.
Qed.

(** A float above 1 is above one half as a double. *)
Lemma promote_above_one (m : positive) (e : Z) :
  valid_binary 24 128 (S754_finite false m e) = true ->
  lt f1 (S754_finite false m e) = true ->
  gt (promote (S754_finite false m e)) d_0_5 = true.
Proof.
  intros Hv H1.
  assert (He : -23 <= e).
  { unfold lt, SFltb, f1, SFcompare in H1.
    destruct (Z.compare_spec (-23) e); try lia; discriminate. }
  unfold valid_binary, bounded, canonical_mantissa, fexp, emin in Hv.
  apply andb_prop in Hv. destruct Hv as [Hc Hb].
  apply Z.eqb_eq in Hc. apply Z.leb_le in Hb.
  assert (Hd : digits2_pos m = 24%positive) by lia.
  rewrite (promote_normal false m e Hd) by lia.
  unfold gt, SFltb, d_0_5, SFcompare.
  destruct (Z.compare_spec (-53) (e - 29)); first [reflexivity | lia].
Qed.

(** The 0.5 threshold of the Bool mapping gives the same answer on a
    float and on that float clamped to the asserted range [0, 1]. *)
Lemma bool_threshold_clamped (x mn mx : float) :
  valid_binary 24 128 x = true ->
  eq mx (f_of_int 1) = true ->
  eq mn (f_of_int 0) = true ->
  gt (promote (clamp x mn mx)) d_0_5 = gt (promote x) d_0_5.
Proof.
  intros Hv Hmx Hmn.
  apply eq_one_inv in Hmx. apply eq_zero_inv in Hmn.
  destruct Hmn as [z ->]. subst mx. unfold clamp.
  destruct x as [s | s | | s m e].
  - destruct s, z; reflexivity.
  - destruct s, z; reflexivity.
  - reflexivity.
  - destruct s.
    + change (lt (S754_finite true m e) (S754_zero z)) with true.
      cbv iota. rewrite promote_negative_below_half.
      destruct z; reflexivity.
    + change (lt (S754_finite false m e) (S754_zero z)) with false.
      cbv iota.
      destruct (lt f1 (S754_finite false m e)) eqn:H1; [| reflexivity].
      rewrite (promote_above_one m e Hv H1). reflexivity.
Qed.

(** The forward conversion gives the same result on the natural value
    clamped to the range. *)
Definition input_clamped_forward (E : Env) (p : ParamMetaData) (x : float)
  : Prop :=
  naturalToNormalized01 E p x
  = naturalToNormalized01 E p (clamp x (minVal p) (maxVal p)).

(** The backward conversion gives the same result on the normalized value
    clamped to [0, 1]. *)
Definition input_clamped_backward (E : Env) (p : ParamMetaData) (x : float)
  : Prop :=
  normalized01ToNatural E p x = normalized01ToNatural E p (clamp x f0 f1).

(** C4 as stated fails.  The forward conversion clamps its result, not its
    input: on the MIDI note descriptor (Int, 0 to 127) the natural value
    128 gives 1, and [maxVal] gives the float nearest to 0.995.  With
    assertions compiled in, the backward conversion stops on the
    normalized value 2 instead of treating it as 1. *)
Lemma forward_conversion_does_not_clamp_input :
  type midiNote = INT
  /\ gt (f_of_int 128) (maxVal midiNote) = true
  /\ clamp (f_of_int 128) (minVal midiNote) (maxVal midiNote)
     = maxVal midiNote
  /\ naturalToNormalized01 (Reference.env false) midiNote (f_of_int 128)
     = Ok f1
  /\ naturalToNormalized01 (Reference.env false) midiNote (maxVal midiNote)
     = Ok f_0_995
  /\ ~ input_clamped_forward (Reference.env false) midiNote (f_of_int 128)
  /\ ~ input_clamped_backward (Reference.env false) percent (f_of_int 2).
Proof.
  repeat split.
  - intros H. vm_compute in H. discriminate H.
  - intros H. vm_compute in H. discriminate H.
Qed.

(** ** The Float mapping: clamping the natural value first *)

(** Identical, or equal as [==] has it (the two zeros). *)
Definition same_float (a b : spec_float) : Prop :=
  a = b \/ eq a b = true.

Lemma one_rounded : binade 1 1%Q /\ (rval 24 128 1 1 == 1)%Q.
Proof.
  split.
  - unfold binade. change (bpow (1 - 1)) with (bpow 0).
    rewrite bpow_0. change (bpow 1) with 2%Q. split; lra.
  - apply (rval_exact 24 128 P24 M24 1 1 1 0); [reflexivity |].
    unfold fexp, emin. lia.
Qed.

(** A quotient that is at least one is clamped to exactly 1. *)
Lemma clamp_quotient_above (a w : spec_float) :
  fin24 a = true -> fin24 w = true ->
  sign_of a = false -> sign_of w = false ->
  (Fmag w <= Fmag a)%Q ->
  clamp (fdiv a w) f0 f1 = f1.
Proof.
  intros Fa Fw Sa Sw H.
  destruct (fin_inv 24 128 P24 M24 a Fa) as [sa [ma [ea [-> Ba]]]].
  destruct (fin_inv 24 128 P24 M24 w Fw) as [sw [mw [ew [-> Bw]]]].
  cbn [sign_of] in Sa, Sw. subst sa sw.
  pose proof (Fmag_pos false mw ew) as Pw.
  assert (X1 : (1 <= Fmag (S754_finite false ma ea)
                     / Fmag (S754_finite false mw ew))%Q)
    by (apply Qle_shift_div_l; lra).
  assert (Lo : (bpow (emin 24 128 + 24)
                <= Fmag (S754_finite false ma ea)
                   / Fmag (S754_finite false mw ew))%Q).
  { pose proof (bpow_le (emin 24 128 + 24) 0 ltac:(unfold emin; lia)) as A.
    rewrite bpow_0 in A. lra. }
  pose proof (SFdiv_finite 24 128 P24 M24 false false ma mw ea ew Lo) as R.
  fold (fdiv (S754_finite false ma ea) (S754_finite false mw ew)) in R.
  set (v := fdiv (S754_finite false ma ea) (S754_finite false mw ew)) in *.
  cbn [xorb] in R.
  destruct (rounded_inv 24 128 P24 M24 _ _ _ R)
    as [d [B [[_ [C _]] | [[E _] | [m [e [E [Bv V]]]]]]]].
  - pose proof (bpow_le (emin 24 128) 0 ltac:(unfold emin; lia)) as A.
    rewrite bpow_0 in A. lra.
  - rewrite E. reflexivity.
  - destruct one_rounded as [B1 E1].
    pose proof (rval_mono 24 128 P24 M24 1 d 1 _ B1 B X1) as M.
    rewrite E1, <- V in M.
    rewrite E. unfold clamp.
    change (lt (S754_finite false m e) f0) with false. cbv iota.
    destruct (lt f1 (S754_finite false m e)) eqn:C; [reflexivity |].
    assert (V1 : valid_binary 24 128 f1 = true) by reflexivity.
    assert (Le : (Fvalue (S754_finite false m e) <= Fvalue f1)%Q).
    { destruct (Qlt_le_dec (Fvalue f1) (Fvalue (S754_finite false m e)))
        as [G | G]; [| exact G].
      apply (SFltb_value 24 128 P24 M24 f1 (S754_finite false m e) V1 Bv
               eq_refl eq_refl) in G.
      unfold lt in C. congruence. }
    rewrite Fvalue_f1 in Le. cbn [Fvalue cond_Zopp] in Le.
    apply (canonical_unique 24 128 P24 M24 false m 8388608 e (-23) Bv
             eq_refl).
    assert (A : (inject_Z 8388608 * bpow (-23) == 1)%Q) by reflexivity.
    rewrite A. lra.
Qed.

(** A quotient with a negative numerator is clamped to a zero. *)
Lemma clamp_quotient_below (a w : spec_float) :
  fin24 w = true -> sign_of w = false ->
  a = S754_zero true \/ a = S754_infinity true
  \/ (exists m e, a = S754_finite true m e) ->
  clamp (fdiv a w) f0 f1 = f0 \/ clamp (fdiv a w) f0 f1 = S754_zero true.
Proof.
  intros Fw Sw H.
  destruct (fin_inv 24 128 P24 M24 w Fw) as [sw [mw [ew [-> Bw]]]].
  cbn [sign_of] in Sw. subst sw.
  destruct H as [-> | [-> | [m [e ->]]]].
  - right. reflexivity.
  - left. reflexivity.
  - destruct (SFdiv_class 24 128 P24 M24 true false m mw e ew)
      as [C | [C | [m' [e' C]]]];
      unfold fdiv; rewrite C; cbn [xorb].
    + right. reflexivity.
    + left. reflexivity.
    + left. reflexivity.
Qed.

Section FloatClamp.

Variables mn mx : spec_float.
Hypothesis Vn : valid_binary 24 128 mn = true.
Hypothesis Vm : valid_binary 24 128 mx = true.
Hypothesis Hlt : lt mn mx = true.
Hypothesis Fw : fin24 (fsub mx mn) = true.

Lemma bounds_finite : finite_or_zero mx = true /\ finite_or_zero mn = true.
Proof. exact (fsub_fin_operands mx mn Fw). Qed.

Lemma bounds_ordered : (Fvalue mn < Fvalue mx)%Q.
Proof.
  destruct bounds_finite as [Fm Fn].
  apply (SFltb_value 24 128 P24 M24 mn mx Vn Vm Fn Fm). exact Hlt.
Qed.

Lemma width_rounded :
  rounded 24 128 false (Fvalue mx - Fvalue mn) (fsub mx mn).
Proof.
  destruct bounds_finite as [Fm Fn].
  exact (SFsub_rounded_pos 24 128 P24 M24 mx mn Vm Vn Fm Fn bounds_ordered).
Qed.

Lemma width_positive : sign_of (fsub mx mn) = false.
Proof.
  destruct (rounded_class 24 128 P24 M24 _ _ _ width_rounded)
    as [C | [C | [m [e [C _]]]]]; rewrite C; reflexivity.
Qed.

Lemma at_max : clamp (fdiv (fsub mx mn) (fsub mx mn)) f0 f1 = f1.
Proof.
  destruct (fin_inv 24 128 P24 M24 _ Fw) as [s [m [e [-> _]]]].
  rewrite fdiv_self. reflexivity.
Qed.

Lemma at_min :
  clamp (fdiv (fsub mn mn) (fsub mx mn)) f0 f1 = S754_zero false.
Proof.
  destruct bounds_finite as [_ Fn].
  rewrite (fsub_self mn Fn).
  pose proof width_positive as Sw.
  destruct (fin_inv 24 128 P24 M24 _ Fw) as [s [m [e [E _]]]].
  rewrite E in *. cbn [sign_of] in Sw. subst s. reflexivity.
Qed.

Lemma max_not_below_min : lt mx mn = false.
Proof.
  destruct bounds_finite as [Fm Fn]. pose proof bounds_ordered as Hv.
  destruct (lt mx mn) eqn:C; [| reflexivity].
  apply (SFltb_value 24 128 P24 M24 mx mn Vm Vn Fm Fn) in C. lra.
Qed.

(** Below the range. *)
Lemma below_min (x : spec_float) :
  lt x mn = true ->
  fsub x mn = S754_zero true \/ fsub x mn = S754_infinity true
  \/ (exists m e, fsub x mn = S754_finite true m e) ->
  same_float
    (clamp (fdiv (fsub x mn) (fsub mx mn)) f0 f1)
    (clamp (fdiv (fsub (clamp x mn mx) mn) (fsub mx mn)) f0 f1).
Proof.
  intros L H.
  assert (Ec : clamp x mn mx = mn)
    by (unfold clamp; rewrite L, max_not_below_min; reflexivity).
  rewrite Ec, at_min.
  destruct (clamp_quotient_below (fsub x mn) (fsub mx mn) Fw
              width_positive H) as [-> | ->];
    right; reflexivity.
Qed.

(** Above the range. *)
Lemma above_max (x : spec_float) :
  lt x mn = false -> lt mx x = true ->
  clamp (fdiv (fsub x mn) (fsub mx mn)) f0 f1 = f1 ->
  same_float
    (clamp (fdiv (fsub x mn) (fsub mx mn)) f0 f1)
    (clamp (fdiv (fsub (clamp x mn mx) mn) (fsub mx mn)) f0 f1).
Proof.
  intros L L' H.
  assert (Ec : clamp x mn mx = mx)
    by (unfold clamp; rewrite L, L'; reflexivity).
  rewrite Ec, at_max, H. left. reflexivity.
Qed.

(** Within the range (or NaN). *)
Lemma within (x : spec_float) :
  lt x mn = false -> lt mx x = false ->
  same_float
    (clamp (fdiv (fsub x mn) (fsub mx mn)) f0 f1)
    (clamp (fdiv (fsub (clamp x mn mx) mn) (fsub mx mn)) f0 f1).
Proof.
  intros L L'.
  assert (Ec : clamp x mn mx = x)
    by (unfold clamp; rewrite L, L'; reflexivity).
  rewrite Ec. left. reflexivity.
Qed.

Lemma float_forward_clamped (x : spec_float) :
  valid_binary 24 128 x = true ->
  same_float
    (clamp (fdiv (fsub x mn) (fsub mx mn)) f0 f1)
    (clamp (fdiv (fsub (clamp x mn mx) mn) (fsub mx mn)) f0 f1).
Proof.
  intros Vx.
  destruct bounds_finite as [Fm Fn]. pose proof bounds_ordered as Hv.
  pose proof width_positive as Sw.
  destruct (lt x mn) eqn:L.
  - (* below *)
    apply below_min; [exact L |].
    destruct x as [sx | sx | | sx m0 e0].
    + assert (Hx : (Fvalue (S754_zero sx) < Fvalue mn)%Q)
        by (apply (SFltb_value 24 128 P24 M24 _ mn Vx Vn eq_refl Fn);
            exact L).
      pose proof (SFsub_rounded_neg 24 128 P24 M24 _ mn Vx Vn eq_refl Fn
                    Hx) as R.
      destruct (rounded_class 24 128 P24 M24 _ _ _ R)
        as [C | [C | [m [e [C _]]]]]; unfold fsub; rewrite C; eauto.
    + destruct sx;
        [| destruct mn as [s | s | | s m e]; try discriminate;
           destruct s; discriminate].
      right. left.
      destruct mn as [s | s | | s m e]; try discriminate; reflexivity.
    + destruct mn as [s | s | | s m e]; discriminate.
    + assert (Hx : (Fvalue (S754_finite sx m0 e0) < Fvalue mn)%Q)
        by (apply (SFltb_value 24 128 P24 M24 _ mn Vx Vn eq_refl Fn);
            exact L).
      pose proof (SFsub_rounded_neg 24 128 P24 M24 _ mn Vx Vn eq_refl Fn
                    Hx) as R.
      destruct (rounded_class 24 128 P24 M24 _ _ _ R)
        as [C | [C | [m [e [C _]]]]]; unfold fsub; rewrite C; eauto.
  - destruct (lt mx x) eqn:L'; [| apply within; assumption].
    (* above *)
    apply above_max; [exact L | exact L' |].
    assert (Fin : forall y, y = x -> finite_or_zero y = true ->
              clamp (fdiv (fsub y mn) (fsub mx mn)) f0 f1 = f1).
    { intros y -> Fx.
      assert (Hx : (Fvalue mx < Fvalue x)%Q)
        by (apply (SFltb_value 24 128 P24 M24 mx x Vm Vx Fm Fx);
            exact L').
      pose proof (SFsub_rounded_pos 24 128 P24 M24 x mn Vx Vn Fx Fn
                    ltac:(lra)) as Ra.
      fold (fsub x mn) in Ra.
      destruct (rounded_inv 24 128 P24 M24 _ _ _ Ra)
        as [d [B [[Ea [_ Z0]] | [[Ea _] | [m [e [Ea [Ba Va]]]]]]]].
      - (* the difference cannot round to zero *)
        exfalso.
        destruct (rounded_mono 24 128 P24 M24 _ _ _ _ _ _ width_rounded Ra
                    ltac:(lra)) as [C | [C | C]].
        + rewrite C in Fw. discriminate Fw.
        + rewrite Ea in C. discriminate C.
        + rewrite Ea in C. cbn [Fmag] in C.
          pose proof (fin_Fmag_pos 24 128 P24 M24 _ Fw). lra.
      - rewrite Ea.
        destruct (fin_inv 24 128 P24 M24 _ Fw) as [s [m [e [E _]]]].
        rewrite E in *. cbn [sign_of] in Sw. subst s. reflexivity.
      - apply clamp_quotient_above;
          [rewrite Ea; exact Ba | exact Fw | rewrite Ea; reflexivity
           | exact Sw |].
        destruct (rounded_mono 24 128 P24 M24 _ _ _ _ _ _ width_rounded Ra
                    ltac:(lra)) as [C | [C | C]].
        + rewrite C in Fw. discriminate Fw.
        + rewrite Ea in C. discriminate C.
        + exact C. }
    destruct x as [sx | sx | | sx m0 e0].
    + apply Fin; reflexivity.
    + destruct sx;
        [destruct mx as [s | s | | s m e]; try discriminate;
         destruct s; discriminate |].
      assert (E1 : fsub (S754_infinity false) mn = S754_infinity false)
        by (destruct mn as [s | s | | s m e]; try discriminate;
            reflexivity).
      rewrite E1.
      destruct (fin_inv 24 128 P24 M24 _ Fw) as [s [m [e [E _]]]].
      rewrite E in *. cbn [sign_of] in Sw. subst s. reflexivity.
    + destruct mx as [s | s | | s m e]; discriminate.
    + apply Fin; reflexivity.
Qed.

End FloatClamp.

(** A Float descriptor whose range is the single value 0, and one whose
    width overflows: the range of all finite floats. *)
Definition floatPoint : ParamMetaData :=
  Eval vm_compute in
    snd (withRange (snd (withType ParamMetaData_default FLOAT))
           (f_of_int 0) (f_of_int 0)).
Definition floatWhole : ParamMetaData :=
  Eval vm_compute in
    snd (withRange (snd (withType ParamMetaData_default FLOAT))
           (S754_finite true 16777215 104) (S754_finite false 16777215 104)).

(** The forward conversion returns the same value, up to the sign of a
    zero, on the natural value and on the natural value clamped to the
    range: both calls return, and the two results are identical or
    compare equal. *)
Definition input_clamped_forward_float (E : Env) (p : ParamMetaData)
    (x : float) : Prop :=
  exists r r',
    naturalToNormalized01 E p x = Ok r
    /\ naturalToNormalized01 E p (clamp x (minVal p) (maxVal p)) = Ok r'
    /\ same_float r r'.

(** A Float descriptor needs minVal < maxVal and a finite width for
    that.  On the range [0, 0], with assertions compiled out, the natural
    value 1 gives 1 and its clamped value gives NaN; on the range of all
    finite floats, minus infinity gives NaN and its clamped value
    gives 0. *)
Lemma float_input_clamp_needs_a_range :
  type floatPoint = FLOAT
  /\ naturalToNormalized01 (Reference.env true) floatPoint (f_of_int 1)
     = Ok f1
  /\ naturalToNormalized01 (Reference.env true) floatPoint
       (clamp (f_of_int 1) (minVal floatPoint) (maxVal floatPoint))
     = Ok S754_nan
  /\ type floatWhole = FLOAT
  /\ lt (minVal floatWhole) (maxVal floatWhole) = true
  /\ naturalToNormalized01 (Reference.env false) floatWhole
       (S754_infinity true)
     = Ok S754_nan
  /\ naturalToNormalized01 (Reference.env false) floatWhole
       (clamp (S754_infinity true) (minVal floatWhole) (maxVal floatWhole))
     = Ok f0.
Proof.
  repeat split.
Qed.

(** C4, amended.  [naturalToNormalized01] clamps its result: what it
    returns is NaN or lies in [0, 1].  For a Float descriptor with
    minVal < maxVal and a finite width [maxVal - minVal], the result on
    every natural value, NaN and the infinities included, equals the
    result on the natural value clamped to [minVal, maxVal]; the two are
    identical or compare equal with [==] (a natural value below [minVal]
    can give -0 where [minVal] gives +0).  For a Bool descriptor with the
    asserted range (minVal 0, maxVal 1) the two results are identical.
    For an Int descriptor the equation fails.  [normalized01ToNatural]
    clamps its input to [0, 1] when assertions are compiled out, and stops
    at its [assert] on an input outside [0, 1] when they are compiled
    in. *)
Theorem conversions_clamp :
  forall (E : Env) (p : ParamMetaData) (x : float),
    (forall r, naturalToNormalized01 E p x = Ok r ->
               is_nan r = true \/ (le f0 r = true /\ le r f1 = true))
    /\ (type p = FLOAT ->
        valid_binary 24 128 x = true ->
        valid_binary 24 128 (minVal p) = true ->
        valid_binary 24 128 (maxVal p) = true ->
        lt (minVal p) (maxVal p) = true ->
        finite_float (fsub (maxVal p) (minVal p)) = true ->
        input_clamped_forward_float E p x)
    /\ (type p = BOOL ->
        valid_binary 24 128 x = true ->
        eq (maxVal p) (f_of_int 1) && eq (minVal p) (f_of_int 0) = true ->
        input_clamped_forward E p x)
    /\ (NDEBUG E = true -> input_clamped_backward E p x)
    /\ (NDEBUG E = false ->
        ge x f0 && le x f1 = false ->
        normalized01ToNatural E p x = Fail AssertionFailed).
Proof.
  intros E p x. split; [| split; [| split; [| split]]].
  - intros r H. unfold naturalToNormalized01 in H.
    apply bind_Ok_inv in H. destruct H as [v [_ Hr]].
    injection Hr as <-. apply clamp_01_range.
  - intros Ht Vx Vn Vm Hlt Hw.
    pose proof (fsub_finite_ne _ _ Hw) as Hne.
    pose proof Hw as Fw. rewrite finite_float_fin in Fw.
    unfold input_clamped_forward_float, naturalToNormalized01, assert_.
    rewrite Ht, Hne, orb_true_r.
    eexists. eexists. split; [reflexivity |]. split; [reflexivity |].
    exact (float_forward_clamped (minVal p) (maxVal p) Vn Vm Hlt Fw x Vx).
  - intros Ht Hv Hb. unfold input_clamped_forward, naturalToNormalized01.
    rewrite Ht. apply andb_prop in Hb. destruct Hb as [Hmx Hmn].
    rewrite (bool_threshold_clamped x _ _ Hv Hmx Hmn). reflexivity.
  - intros HN. unfold input_clamped_backward, normalized01ToNatural, assert_.
    rewrite HN, clamp_01_idempotent. reflexivity.
  - intros HN Hx. unfold normalized01ToNatural, assert_.
    rewrite HN, Hx. reflexivity.
Qed.

Lemma conversions_clamp_witness :
  NDEBUG (Reference.env true) = true
  /\ input_clamped_backward (Reference.env true) percent (f_of_int 2)
  /\ type percent = FLOAT
  /\ input_clamped_forward_float (Reference.env true) percent (f_of_int 2)
  /\ input_clamped_forward_float (Reference.env false) percent S754_nan.
Proof.
  split; [reflexivity |]. split; [| split; [reflexivity | split]].
  - apply (conversions_clamp (Reference.env true) percent (f_of_int 2)).
    reflexivity.
  - apply (conversions_clamp (Reference.env true) percent (f_of_int 2));
      reflexivity.
  - apply (conversions_clamp (Reference.env false) percent S754_nan);
      reflexivity.
Defined.

(* ================================================================== *)
(** * Further properties of the header *)

(** ** Order of float values *)

(** [x < y] and [y <= x] exclude each other. *)
Lemma SFltb_false_of_SFleb (x y : spec_float) :
  SFleb x y = true -> SFltb y x = false.
Proof.
  unfold SFleb, SFltb, SFcompare.
  destruct x as [sx | sx | | sx mx ex], y as [sy | sy | | sy my ey];
    try discriminate; try reflexivity;
    try (destruct sx; try discriminate; try reflexivity;
         destruct sy; try discriminate; reflexivity);
    try (destruct sy; try discriminate; reflexivity).
  rewrite !Pos.compare_cont_spec.
  destruct sx, sy; try discriminate; try reflexivity;
    destruct (Z.compare_spec ex ey), (Z.compare_spec ey ex);
    try lia; try discriminate; try reflexivity;
    simpl; destruct (Pos.compare_spec mx my), (Pos.compare_spec my mx);
    try lia; try discriminate; reflexivity.
Qed.


(** [std::clamp] returns a value that already lies between the bounds. *)
Lemma clamp_inside (v lo hi : spec_float) :
  le lo v = true -> le v hi = true -> clamp v lo hi = v.
Proof.
  intros Hlo Hhi. unfold clamp, lt.
  rewrite (SFltb_false_of_SFleb lo v Hlo).
  rewrite (SFltb_false_of_SFleb v hi Hhi). reflexivity.
Qed.

(* ------------------------------------------------------------------ *)
(** ** [withRange] and the default *)

(** [withRange] clamps the default to the range the receiver had before
    the call, not to the new one.  Whatever the new bounds are: a default
    within the old range is kept as it is; when the old range is
    ordered, a default below the old minimum becomes the old minimum and
    a default above the old maximum becomes the old maximum.  The new
    bounds are set as asked and the receiver is left as it was. *)
Theorem withRange_clamps_default_to_old_range :
  forall (p : ParamMetaData) (mn mx : float),
    fst (withRange p mn mx) = p
    /\ minVal (snd (withRange p mn mx)) = mn
    /\ maxVal (snd (withRange p mn mx)) = mx
    /\ (le (minVal p) (defaultVal p) = true ->
        le (defaultVal p) (maxVal p) = true ->
        defaultVal (snd (withRange p mn mx)) = defaultVal p)
    /\ (le (minVal p) (maxVal p) = true ->
        lt (defaultVal p) (minVal p) = true ->
        defaultVal (snd (withRange p mn mx)) = minVal p)
    /\ (le (minVal p) (maxVal p) = true ->
        le (minVal p) (defaultVal p) = true ->
        lt (maxVal p) (defaultVal p) = true ->
        defaultVal (snd (withRange p mn mx)) = maxVal p).
Proof.
  intros p mn mx. repeat split.
  - intros Hlo Hhi. unfold withRange; simpl.
    apply clamp_inside; assumption.
  - intros Hr Hlo. unfold withRange; simpl. unfold clamp.
    rewrite Hlo.
    assert (H : lt (maxVal p) (minVal p) = false)
      by (apply SFltb_false_of_SFleb; exact Hr).
    rewrite H. reflexivity.
  - intros _ Hlo Hhi. unfold withRange; simpl. unfold clamp.
    assert (H : lt (defaultVal p) (minVal p) = false)
      by (apply SFltb_false_of_SFleb; exact Hlo).
    rewrite H, Hhi. reflexivity.
Qed.

(** A default of 5 on the range [0, 1] becomes 1, the old maximum, when
    the range is set to [0, 10], although the new range contains 5; and
    from the default descriptor (range [0, 1], default 0) the range
    [5, 10] leaves the default at 0, below the new minimum. *)
Lemma withRange_clamps_default_to_old_range_witness :
  defaultVal
    (snd (withRange (snd (withDefault ParamMetaData_default (f_of_int 5)))
            (f_of_int 0) (f_of_int 10)))
  = f_of_int 1
  /\ le (f_of_int 5) (f_of_int 10) = true
  /\ defaultVal (snd (withRange ParamMetaData_default
                        (f_of_int 5) (f_of_int 10))) = f0.
Proof.
  split; [| split; [reflexivity |]].
  - apply (proj2 (proj2 (proj2 (proj2 (proj2
             (withRange_clamps_default_to_old_range
                (snd (withDefault ParamMetaData_default (f_of_int 5)))
                (f_of_int 0) (f_of_int 10)))))));
      reflexivity.
  - apply (proj1 (proj2 (proj2 (proj2
             (withRange_clamps_default_to_old_range ParamMetaData_default
                (f_of_int 5) (f_of_int 10))))));
      reflexivity.
Defined.

(* ------------------------------------------------------------------ *)
(** ** Bool descriptors *)

(** The range that the Bool cases assert: [maxVal == 1 && minVal == 0]. *)
Definition bool_range (p : ParamMetaData) : bool :=
  eq (maxVal p) (f_of_int 1) && eq (minVal p) (f_of_int 0).

Lemma bool_range_inv (p : ParamMetaData) :
  bool_range p = true ->
  maxVal p = f1 /\ exists s, minVal p = S754_zero s.
Proof.
  unfold bool_range. intros H. apply andb_prop in H.
  destruct H as [Hmx Hmn].
  split; [apply eq_one_inv; exact Hmx | apply eq_zero_inv; exact Hmn].
Qed.

(** A Bool descriptor maps every natural value to 0 or 1 and back to one
    of its two bounds: the round trip through the normalized value yields
    [maxVal] when the natural value is above 0.5 and [minVal] otherwise
    (NaN included). *)
Theorem bool_round_trip :
  forall (E : Env) (p : ParamMetaData) (x : float),
    type p = BOOL ->
    bool_range p = true ->
    naturalToNormalized01 E p x
    = Ok (if gt (promote x) d_0_5 then f1 else f0)
    /\ (v <- naturalToNormalized01 E p x ;; normalized01ToNatural E p v)
       = Ok (if gt (promote x) d_0_5 then maxVal p else minVal p).
Proof.
  intros E p x Ht Hb.
  destruct (bool_range_inv p Hb) as [Hmx [s Hmn]].
  unfold naturalToNormalized01, normalized01ToNatural, assert_.
  unfold bool_range in Hb. rewrite Ht, Hb, orb_true_r.
  rewrite Hmx, Hmn.
  destruct (NDEBUG E), (gt (promote x) d_0_5), s; split; reflexivity.
Qed.

Lemma bool_round_trip_witness :
  (v <- naturalToNormalized01 (Reference.env false)
          (snd (withType ParamMetaData_default BOOL)) (f_lit 3 4) ;;
   normalized01ToNatural (Reference.env false)
     (snd (withType ParamMetaData_default BOOL)) v)
  = Ok f1.
Proof.
  apply (bool_round_trip (Reference.env false)
           (snd (withType ParamMetaData_default BOOL)) (f_lit 3 4));
    reflexivity.
Defined.

(** [valueToString] of a Bool descriptor chooses its text by the sign of
    the value, not by the 0.5 threshold of the conversions: both bounds of
    the asserted range, 0 and 1, get the same text, the one for "on". *)
Theorem bool_bounds_same_text :
  forall (E : Env) (p : ParamMetaData) (fs : FeatureState),
    type p = BOOL ->
    bool_range p = true ->
    valueToString E p (minVal p) fs
    = Ok (Some (if nonempty (customMaxDisplay p)
                then customMaxDisplay p else "On"))
    /\ valueToString E p (maxVal p) fs = valueToString E p (minVal p) fs.
Proof.
  intros E p fs Ht Hb.
  destruct (bool_range_inv p Hb) as [Hmx [s Hmn]].
  unfold valueToString. rewrite Ht, Hmx, Hmn.
  destruct s; split; reflexivity.
Qed.

Lemma bool_bounds_same_text_witness :
  valueToString (Reference.env false)
    (snd (withType ParamMetaData_default BOOL)) f0 FeatureState_default
  = Ok (Some "On").
Proof.
  apply (bool_bounds_same_text (Reference.env false)
           (snd (withType ParamMetaData_default BOOL))
           FeatureState_default); reflexivity.
Defined.

(* ------------------------------------------------------------------ *)
(** ** The conversions at the bounds of the range *)

(** For every Int descriptor with a minimum that is neither NaN nor
    infinite and a width [maxVal - minVal] that is a finite, non-zero
    float, [naturalToNormalized01(minVal)] is the float nearest to 0.005,
    whatever the size of the range. *)
Theorem int_min_normalizes_to_0_005 :
  forall (E : Env) (p : ParamMetaData),
    type p = INT ->
    finite_or_zero (minVal p) = true ->
    finite_float (fsub (maxVal p) (minVal p)) = true ->
    naturalToNormalized01 E p (minVal p) = Ok f_0_005.
Proof.
  intros E p Ht Hmin Hw.
  rewrite (naturalToNormalized01_INT E p _ Ht (fsub_finite_ne _ _ Hw)).
  rewrite (fsub_self _ Hmin). unfold int_forward.
  destruct (fsub (maxVal p) (minVal p)) as [s | s | | s m e];
    try discriminate.
  destruct (promote_finite s m e Hw) as [q [_ ->]].
  destruct s; reflexivity.
Qed.

Lemma int_min_normalizes_to_0_005_witness :
  naturalToNormalized01 (Reference.env false) intWide (minVal intWide)
  = Ok f_0_005.
Proof.
  apply (int_min_normalizes_to_0_005 (Reference.env false) intWide);
    reflexivity.
Defined.

(** For every Float descriptor with a width [maxVal - minVal] that is a
    finite, non-zero float: [naturalToNormalized01(maxVal)] is exactly 1;
    when the minimum is neither NaN nor infinite,
    [naturalToNormalized01(minVal)] is a zero, and
    [normalized01ToNatural] maps that zero back to a value equal to
    [minVal]. *)
Theorem float_bounds_normalize :
  forall (E : Env) (p : ParamMetaData),
    type p = FLOAT ->
    finite_float (fsub (maxVal p) (minVal p)) = true ->
    naturalToNormalized01 E p (maxVal p) = Ok f1
    /\ (finite_or_zero (minVal p) = true ->
        exists z r,
          naturalToNormalized01 E p (minVal p) = Ok (S754_zero z)
          /\ normalized01ToNatural E p (S754_zero z) = Ok r
          /\ eq r (minVal p) = true).
Proof.
  intros E p Ht Hw.
  pose proof (fsub_finite_ne _ _ Hw) as Hne.
  unfold naturalToNormalized01, normalized01ToNatural, assert_.
  rewrite Ht, Hne, !orb_true_r.
  split.
  - destruct (fsub (maxVal p) (minVal p)) as [s | s | | s m e];
      try discriminate.
    unfold bind, ret. rewrite fdiv_self. reflexivity.
  - intros Hmin. rewrite (fsub_self _ Hmin).
    destruct (fsub (maxVal p) (minVal p)) as [s | s | | s m e];
      try discriminate.
    exists s. eexists.
    split; [destruct s; reflexivity |].
    split; [destruct s, (NDEBUG E); reflexivity |].
    destruct (minVal p) as [t | t | | t n k]; try discriminate.
    + destruct s, t; reflexivity.
    + destruct s; simpl; unfold eq, SFeqb, SFcompare;
        rewrite Z.compare_refl, Pos.compare_cont_refl;
        destruct t; reflexivity.
Qed.

Lemma float_bounds_normalize_witness :
  naturalToNormalized01 (Reference.env false) percentBipolar
    (maxVal percentBipolar) = Ok f1.
Proof.
  apply (float_bounds_normalize (Reference.env false) percentBipolar);
    reflexivity.
Defined.

(* ------------------------------------------------------------------ *)
(** ** Custom boundary texts: out and back *)

(** On a Float descriptor a configured custom minimum text is what
    [valueToString] shows at [minVal], in every feature state and display
    scale, and [valueFromString] reads that text back as [minVal]; the same
    holds for the custom maximum text when no custom minimum text is
    configured. *)
Theorem custom_boundary_text_round_trip :
  forall (E : Env) (p : ParamMetaData) (fs : FeatureState)
         (errMsg : string),
    type p = FLOAT ->
    (nonempty (customMinDisplay p) = true ->
     eq (minVal p) (minVal p) = true ->
     valueToString E p (minVal p) fs = Ok (Some (customMinDisplay p))
     /\ valueFromString E p (customMinDisplay p) errMsg
        = Ok (Some (minVal p), errMsg))
    /\ (nonempty (customMinDisplay p) = false ->
        nonempty (customMaxDisplay p) = true ->
        eq (maxVal p) (maxVal p) = true ->
        valueToString E p (maxVal p) fs = Ok (Some (customMaxDisplay p))
        /\ valueFromString E p (customMaxDisplay p) errMsg
           = Ok (Some (maxVal p), errMsg)).
Proof.
  intros E p fs errMsg Ht.
  unfold valueToString, valueFromString. rewrite Ht.
  split.
  - intros Hn He. rewrite Hn, He, String.eqb_refl. split; reflexivity.
  - intros Hn0 Hn He. rewrite Hn0, Hn, He, String.eqb_refl.
    split; reflexivity.
Qed.

Lemma custom_boundary_text_round_trip_witness :
  valueToString (Reference.env false) percentOff (minVal percentOff)
    FeatureState_default = Ok (Some "Off")
  /\ valueFromString (Reference.env false) percentOff "Off" ""
     = Ok (Some (minVal percentOff), "").
Proof.
  apply (custom_boundary_text_round_trip (Reference.env false) percentOff
           FeatureState_default ""); reflexivity.
Defined.

(* ------------------------------------------------------------------ *)
(** ** [valueFromString]: what a success means *)

(** When [valueFromString] returns a value, the descriptor is neither Bool
    nor Int, the error message is left as it was, and the value is a bound
    reached through its custom text or a parsed value that the range check
    let through: not below [minVal] and not above [maxVal]. *)
Theorem valueFromString_success :
  forall (E : Env) (p : ParamMetaData) (v errMsg errMsg' : string)
         (r : float),
    valueFromString E p v errMsg = Ok (Some r, errMsg') ->
    errMsg' = errMsg
    /\ type p <> BOOL /\ type p <> INT
    /\ ((custom_text p v = true /\ (r = minVal p \/ r = maxVal p))
        \/ (lt r (minVal p) = false /\ gt r (maxVal p) = false)).
Proof.
  intros E p v errMsg errMsg' r H.
  split; [| split; [| split]].
  - revert H. unfold valueFromString.
    destruct (type p); try discriminate;
      (destruct (nonempty (customMinDisplay p)
                 && String.eqb v (customMinDisplay p));
       [intros H; now injection H |]);
      (destruct (nonempty (customMaxDisplay p)
                 && String.eqb v (customMaxDisplay p));
       [intros H; now injection H |]);
      unfold try_catch, fail_with_range, call_stof, assert_;
      (destruct (displayScale p); try discriminate;
       destruct (stof E v) as [r0 |]; simpl;
       repeat match goal with
              | |- context [rangeMsg E p] => destruct (rangeMsg E p); simpl
              | |- context [NDEBUG E || ?c] =>
                  destruct (NDEBUG E || c); simpl
              | |- context [if lt ?a ?b || gt ?c ?d then _ else _] =>
                  destruct (lt a b || gt c d); simpl
              | |- context [if lt ?a ?b then _ else _] =>
                  destruct (lt a b); simpl
              | |- context [match ?f with
                            | AssertionFailed => _ | _ => _ end] =>
                  destruct f; simpl
              end;
       try discriminate;
       intros H; now injection H).
  - intros Ht. unfold valueFromString in H. rewrite Ht in H.
    discriminate H.
  - intros Ht. unfold valueFromString in H. rewrite Ht in H.
    discriminate H.
  - exact (valueFromString_passes_range_check E p v errMsg errMsg' r H).
Qed.

Lemma valueFromString_success_witness :
  valueFromString (Reference.env false) percent "50.00 %" ""
  = Ok (Some (f_lit 1 2), "")
  /\ lt (f_lit 1 2) (minVal percent) = false
  /\ gt (f_lit 1 2) (maxVal percent) = false.
Proof.
  split; [reflexivity |].
  destruct (valueFromString_success (Reference.env false) percent
              "50.00 %" "" "" (f_lit 1 2) eq_refl)
    as [_ [_ [_ [[H _] | H]]]]; [discriminate H | exact H].
Defined.

(* ------------------------------------------------------------------ *)
(** ** [modulationNaturalFromString], Linear *)



(* ------------------------------------------------------------------ *)
(** ** [modulationNaturalToString]: how the fields relate *)

(** Whenever [modulationNaturalToString] returns a display, the
    descriptor is a Float with the Linear or the PowerOfTwo scale; [value]
    is [changeUp] followed by a space and the unit; when not bipolar the
    summary is [value] and [changeDown] and [valDown] are empty; when
    bipolar the summary is "+/- " followed by [value], or begins with
    "-/+ ". *)
Theorem modulation_display_fields :
  forall (E : Env) (p : ParamMetaData) (base delta : float)
         (isBipolar : bool) (fs : FeatureState) (r : ModulationDisplay),
    modulationNaturalToString E p base delta isBipolar fs = Ok (Some r) ->
    type p = FLOAT
    /\ (displayScale p = LINEAR \/ displayScale p = A_TWO_TO_THE_B)
    /\ value r = changeUp r ++ " " ++ unit p
    /\ (isBipolar = false ->
        summary r = value r /\ changeDown r = "" /\ valDown r = "")
    /\ (isBipolar = true ->
        summary r = "+/- " ++ value r
        \/ starts_with "-/+ " (summary r) = true).
Proof.
  intros E p base delta isBipolar fs r.
  unfold modulationNaturalToString, format_with_unit, Fmt.format_f, assert_.
  destruct (type p); try discriminate.
  destruct (displayScale p); try discriminate;
    destruct (precision p fs <? 0);
    repeat match goal with
           | |- context [NDEBUG E || ?c] => destruct (NDEBUG E || c)
           end;
    try discriminate;
    destruct (valueToString E p base fs) as [v2s | f];
    destruct isBipolar;
    repeat match goal with
           | |- context [if gt ?a ?b then _ else _] => destruct (gt a b)
           end;
    simpl; try discriminate;
    intros H; injection H as <-; simpl;
    (split; [reflexivity |]);
    (split; [(left; reflexivity) || (right; reflexivity) |]);
    (split; [reflexivity |]);
    (split; [intros Hb; try discriminate Hb; repeat split |]);
    intros Hb; try discriminate Hb;
    ((left; reflexivity) || (right; reflexivity)).
Qed.

Lemma modulation_display_fields_witness :
  modulationNaturalToString (Reference.env false) percentBipolar f0
    (f_lit 1 2) true FeatureState_default
  = Ok (Some {| value := "50.00 %"; summary := "+/- 50.00 %";
                baseValue := "0.00 %"; valUp := "50.00";
                valDown := "50.00"; changeUp := "50.00";
                changeDown := "-50.00" |})
  /\ type percentBipolar = FLOAT.
Proof.
  split; [reflexivity |].
  apply (modulation_display_fields (Reference.env false) percentBipolar f0
           (f_lit 1 2) true FeatureState_default _ eq_refl).
Defined.

(* ------------------------------------------------------------------ *)
(** ** Int descriptors: the inverse mapping at 0 and 1 *)

Definition check_inverse_ends (N : Z) : bool :=
  match int_backward f0 (f_of_int N), int_backward f1 (f_of_int N) with
  | Ok lo, Ok hi => (lo =? 0) && (hi =? (if N <=? 98 then N else N + 1))
  | _, _ => false
  end.

Lemma inverse_ends_table : forall_range 1 255 check_inverse_ends = true.
Proof. vm_cast_no_check (eq_refl true). Qed.

(** [normalized01ToNatural] does not clamp its result.  For an Int
    descriptor with integer bounds -128 <= minVal < maxVal <= 127, the
    normalized value 0 maps to [minVal]; the normalized value 1 maps to
    [maxVal] when the width [maxVal - minVal] is at most 98 and to
    [maxVal + 1], outside the range, when the width is 99 or more. *)
Theorem int_inverse_at_ends :
  forall (E : Env) (p : ParamMetaData) (a b : Z),
    type p = INT ->
    minVal p = f_of_int a ->
    maxVal p = f_of_int b ->
    -128 <= a -> a < b -> b <= 127 ->
    normalized01ToNatural E p f0 = Ok (f_of_int a)
    /\ normalized01ToNatural E p f1
       = Ok (f_of_int (if b - a <=? 98 then b else b + 1)).
Proof.
  intros E p a b Ht Hmin Hmax Ha Hab Hb.
  assert (Hne : ne (maxVal p) (minVal p) = true).
  { rewrite Hmin, Hmax. apply f_of_int_ne; lia. }
  assert (Hw : fsub (maxVal p) (minVal p) = f_of_int (b - a)).
  { rewrite Hmin, Hmax. apply fsub_int; lia. }
  pose proof (forall_range_spec 1 255 check_inverse_ends
                inverse_ends_table (b - a) ltac:(lia)) as T.
  unfold check_inverse_ends in T.
  destruct (int_backward f0 (f_of_int (b - a))) as [lo |] eqn:Hlo;
    [| discriminate].
  destruct (int_backward f1 (f_of_int (b - a))) as [hi |] eqn:Hhi;
    [| discriminate].
  apply andb_prop in T. destruct T as [T0 T1].
  apply Z.eqb_eq in T0, T1. subst lo hi.
  split.
  - rewrite (normalized01ToNatural_INT E p f0 Ht Hne eq_refl).
    rewrite Hw, Hlo, Hmin. unfold bind, ret.
    rewrite fadd_int by lia. reflexivity.
  - rewrite (normalized01ToNatural_INT E p f1 Ht Hne eq_refl).
    rewrite Hw, Hhi, Hmin. unfold bind, ret.
    destruct (b - a <=? 98) eqn:Hc;
      rewrite fadd_int by lia; f_equal; f_equal; lia.
Qed.

Lemma int_inverse_at_ends_witness :
  normalized01ToNatural (Reference.env false) midiNote f1
  = Ok (f_of_int 128).
Proof.
  apply (int_inverse_at_ends (Reference.env false) midiNote 0 127);
    [reflexivity | reflexivity | reflexivity | lia | lia | lia].
Defined.

(* ------------------------------------------------------------------ *)
(** ** Int descriptors: labels *)

Definition check_round (k : Z) : bool :=
  match cast_int (roundf (f_of_int k)) with
  | Ok i => i =? k
  | Fail _ => false
  end.

Lemma round_table : forall_range (-128) 128 check_round = true.
Proof. vm_cast_no_check (eq_refl true). Qed.

(** An Int descriptor shows a label only through its discrete map: at an
    integer -128 <= k <= 128 [valueToString] returns the label stored
    under [k], and no string when [k] has no label or the display scale is
    not the map.  After [withUnorderedMapFormatting(map)] the labels are
    those of [map].  No text is read back: [valueFromString] returns no
    value on an Int descriptor. *)
Theorem int_labels :
  forall (E : Env) (p : ParamMetaData) (k : Z) (fs : FeatureState)
         (map : list (Z * string)) (v errMsg : string),
    type p = INT ->
    -128 <= k <= 128 ->
    valueToString E p (f_of_int k) fs
    = Ok (match displayScale p with
          | UNORDERED_MAP => find_at k (discreteValues p)
          | _ => None
          end)
    /\ valueToString E (snd (withUnorderedMapFormatting p map))
         (f_of_int k) fs = Ok (find_at k map)
    /\ valueFromString E p v errMsg = Ok (None, errMsg).
Proof.
  intros E p k fs map v errMsg Ht Hk.
  pose proof (forall_range_spec _ _ _ round_table k Hk) as T.
  unfold check_round in T.
  destruct (cast_int (roundf (f_of_int k))) as [i |] eqn:Hi;
    [| discriminate].
  apply Z.eqb_eq in T. subst i.
  unfold valueToString, valueFromString; simpl type; simpl displayScale;
    simpl discreteValues.
  rewrite Ht, Hi. unfold bind.
  split; [destruct (displayScale p); reflexivity |].
  split; reflexivity.
Qed.

Lemma int_labels_witness :
  valueToString (Reference.env false)
    (snd (withUnorderedMapFormatting midiNote [(60, "C4"); (61, "C#4")]))
    (f_of_int 61) FeatureState_default = Ok (Some "C#4").
Proof.
  apply (int_labels (Reference.env false) midiNote 61 FeatureState_default
           [(60, "C4"); (61, "C#4")] "" ""); [reflexivity | lia].
Defined.

(* ------------------------------------------------------------------ *)
(** ** [temposyncNotation]: the texts it can produce *)

Definition temposync_modifier (t : string) : Prop :=
  t = "note" \/ t = "triplet" \/ t = "dotted".

(** A duration token followed by a modifier. *)
Definition duration_and_modifier (s : string) (fraction_only : bool)
  : Prop :=
  exists nn t,
    s = nn ++ " " ++ t
    /\ temposync_modifier t
    /\ (nn = "whole"
        \/ (fraction_only = false /\ nn = "double whole")
        \/ exists n, nn = "1/" ++ Fmt.dec n).

(** Whatever its argument and the library's [pow], a text that
    [temposyncNotation] returns is a count of whole notes or of whole
    triplets, or a duration token ("whole", "double whole", "1/n")
    followed by "note", "triplet" or "dotted"; below 1 it is always of the
    second kind, with the token "whole" or "1/n". *)
Theorem temposyncNotation_texts :
  forall (E : Env) (p : ParamMetaData) (f : float) (s : string),
    temposyncNotation E p f = Ok s ->
    ((exists n, s = Fmt.dec n ++ " whole notes")
     \/ (exists n, s = Fmt.dec n ++ " whole triplets")
     \/ duration_and_modifier s false)
    /\ (ge f (f_of_int 1) = false -> duration_and_modifier s true).
Proof.
  intros E p f s. unfold temposyncNotation, whole_triplets.
  destruct (modff f) as [a b].
  destruct (ge b (f_of_int 0)); destruct (ge f (f_of_int 1));
    repeat match goal with
           | |- context [cast_int ?x] => destruct (cast_int x); simpl
           | |- context [if ?c then _ else _] => destruct c; simpl
           end;
    try discriminate;
    intros H; injection H as <-;
    (split;
     [ first
         [ left; eexists; reflexivity
         | right; left; eexists; reflexivity
         | right; right; unfold duration_and_modifier, temposync_modifier;
           first
             [ exists "whole", "note"; repeat split; auto; fail
             | exists "whole", "dotted"; repeat split; auto; fail
             | exists "double whole", "note"; repeat split; auto; fail
             | exists "double whole", "triplet"; repeat split; auto; fail
             | exists "double whole", "dotted"; repeat split; auto; fail
             | exists "whole", "triplet"; repeat split; auto; fail
             | eexists ("1/" ++ Fmt.dec _), "note";
               split; [reflexivity | split; [auto | right; right; eauto]]
             | eexists ("1/" ++ Fmt.dec _), "triplet";
               split; [reflexivity | split; [auto | right; right; eauto]]
             | eexists ("1/" ++ Fmt.dec _), "dotted";
               split; [reflexivity | split; [auto | right; right; eauto]]
             ] ]
     | intros Hf; try discriminate Hf;
       unfold duration_and_modifier, temposync_modifier;
       first
         [ exists "whole", "note"; repeat split; auto; fail
         | exists "whole", "dotted"; repeat split; auto; fail
         | exists "whole", "triplet"; repeat split; auto; fail
         | eexists ("1/" ++ Fmt.dec _), "note";
           split; [reflexivity | split; [auto | right; right; eauto]]
         | eexists ("1/" ++ Fmt.dec _), "triplet";
           split; [reflexivity | split; [auto | right; right; eauto]]
         | eexists ("1/" ++ Fmt.dec _), "dotted";
           split; [reflexivity | split; [auto | right; right; eauto]]
         ] ]).
Qed.

Lemma temposyncNotation_texts_witness :
  temposyncNotation (Reference.env false) percent (f_of_int (-2))
  = Ok "1/8 note"
  /\ duration_and_modifier "1/8 note" true.
Proof.
  split; [reflexivity |].
  apply (proj2 (temposyncNotation_texts (Reference.env false) percent
                  (f_of_int (-2)) "1/8 note" eq_refl)).
  reflexivity.
Defined.

(* ------------------------------------------------------------------ *)
(** ** [temposyncNotation] on the integers *)

(** Replace the closed integer literals of a hypothesis by their
    values. *)
Ltac literals_in H :=
  repeat match type of H with
         | context [d_of_int ?n] =>
             let v := eval vm_compute in (d_of_int n) in
             change (d_of_int n) with v in H
         | context [f_of_int ?n] =>
             let v := eval vm_compute in (f_of_int n) in
             change (f_of_int n) with v in H
         end.

(** Evaluate [temposyncNotation] at a closed argument, given the values
    [H1] and [H2] of the library powers it reaches. *)
Ltac temposync_at E H1 H2 :=
  unfold temposyncNotation;
  match goal with |- context [modff ?f] => vm_eval (modff f) end;
  cbv beta iota zeta;
  repeat eval_if E;
  repeat match goal with
         | |- context [pow E d_2 ?y] =>
             lazymatch y with
             | S754_zero _ => fail
             | S754_finite _ _ _ => fail
             | _ => vm_eval y
             end
         | |- context [powf E f2 ?y] =>
             lazymatch y with
             | S754_zero _ => fail
             | S754_finite _ _ _ => fail
             | _ => vm_eval y
             end
         end;
  rewrite ?H1, ?H2;
  vm_compute; reflexivity.

(** With [pow] and [powf] exact on the powers of two, the integers map to
    the plain notes, one step doubling the duration: -k is the note
    1/2^(k+1) (0 the half note, -1 the quarter note), 1 the whole note,
    2 the double whole note, and k >= 3 is 2^(k-1) whole notes. *)
Theorem temposyncNotation_integer_scale :
  forall (E : Env) (p : ParamMetaData),
    (forall n, 0 <= n <= 11 ->
               pow E d_2 (d_of_int n) = d_of_int (2 ^ n)) ->
    (forall n, 0 <= n <= 9 ->
               powf E f2 (f_of_int n) = f_of_int (2 ^ n)) ->
    (forall k, 0 <= k <= 10 ->
               temposyncNotation E p (f_of_int (- k))
               = Ok ("1/" ++ Fmt.dec (2 ^ (k + 1)) ++ " note"))
    /\ temposyncNotation E p (f_of_int 1) = Ok "whole note"
    /\ temposyncNotation E p (f_of_int 2) = Ok "double whole note"
    /\ (forall k, 3 <= k <= 10 ->
                  temposyncNotation E p (f_of_int k)
                  = Ok (Fmt.dec (2 ^ (k - 1)) ++ " whole notes")).
Proof.
  intros E p Hpow Hpowf.
  pose proof (Hpow 0 ltac:(lia)) as H0. literals_in H0.
  split; [| split; [| split]].
  - intros k Hk.
    assert (Hc : k = 0 \/ k = 1 \/ k = 2 \/ k = 3 \/ k = 4 \/ k = 5
                 \/ k = 6 \/ k = 7 \/ k = 8 \/ k = 9 \/ k = 10) by lia.
    repeat (destruct Hc as [-> | Hc]); try subst k;
      match goal with
      | |- temposyncNotation _ _ (f_of_int (- ?k)) = _ =>
          pose proof (Hpow (k + 1) ltac:(lia)) as H1; literals_in H1;
          temposync_at E H1 H0
      end.
  - pose proof (Hpowf 0 ltac:(lia)) as H1. literals_in H1.
    temposync_at E H1 H0.
  - pose proof (Hpowf 1 ltac:(lia)) as H1. literals_in H1.
    temposync_at E H1 H0.
  - intros k Hk.
    assert (Hc : k = 3 \/ k = 4 \/ k = 5 \/ k = 6 \/ k = 7 \/ k = 8
                 \/ k = 9 \/ k = 10) by lia.
    repeat (destruct Hc as [-> | Hc]); try subst k;
      match goal with
      | |- temposyncNotation _ _ (f_of_int ?k) = _ =>
          pose proof (Hpowf (k - 1) ltac:(lia)) as H1; literals_in H1;
          temposync_at E H1 H0
      end.
Qed.

(** The reference library is exact on the powers of two that
    [temposyncNotation] reaches. *)
Lemma Reference_pow_exact (ndebug : bool) (n : Z) :
  0 <= n <= 11 ->
  pow (Reference.env ndebug) d_2 (d_of_int n) = d_of_int (2 ^ n).
Proof.
  intros Hn. apply sf_eqb_eq.
  apply (forall_range_spec 0 11
           (fun i => sf_eqb (pow (Reference.env ndebug) d_2 (d_of_int i))
                            (d_of_int (2 ^ i)))); [| exact Hn].
  destruct ndebug; vm_compute; reflexivity.
Qed.

Lemma Reference_powf_exact (ndebug : bool) (n : Z) :
  0 <= n <= 9 ->
  powf (Reference.env ndebug) f2 (f_of_int n) = f_of_int (2 ^ n).
Proof.
  intros Hn. apply sf_eqb_eq.
  apply (forall_range_spec 0 9
           (fun i => sf_eqb (powf (Reference.env ndebug) f2 (f_of_int i))
                            (f_of_int (2 ^ i)))); [| exact Hn].
  destruct ndebug; vm_compute; reflexivity.
Qed.

Lemma temposyncNotation_integer_scale_witness :
  temposyncNotation (Reference.env false) percent (f_of_int (- 1))
  = Ok "1/4 note".
Proof.
  refine (proj1 (temposyncNotation_integer_scale (Reference.env false)
                   percent (Reference_pow_exact false)
                   (Reference_powf_exact false)) 1 _).
  lia.
Defined.

(* ------------------------------------------------------------------ *)
(** ** [valueToString] on Float descriptors without custom texts *)

(** No custom boundary or default text is configured. *)
Definition no_custom_texts (p : ParamMetaData) : bool :=
  negb (nonempty (customMinDisplay p))
  && negb (nonempty (customMaxDisplay p))
  && negb (nonempty (customDefaultDisplay p)).

Lemma no_custom_texts_inv (p : ParamMetaData) :
  no_custom_texts p = true ->
  nonempty (customMinDisplay p) = false
  /\ nonempty (customMaxDisplay p) = false
  /\ nonempty (customDefaultDisplay p) = false.
Proof.
  unfold no_custom_texts. intros H.
  apply andb_prop in H. destruct H as [H H3].
  apply andb_prop in H. destruct H as [H1 H2].
  apply negb_true_iff in H1, H2, H3. auto.
Qed.

(** On a Float descriptor without custom texts the extended state is a
    transform applied before the display: [valueToString] of [val] in an
    extended feature state is [valueToString] of [exA * val + exB] in the
    same state without the extension. *)
Theorem extended_is_a_pre_transform :
  forall (E : Env) (p : ParamMetaData) (val : float) (fs : FeatureState),
    type p = FLOAT ->
    no_custom_texts p = true ->
    valueToString E p val (set_isExtended true fs)
    = valueToString E p (fadd (fmul (exA p) val) (exB p))
        (set_isExtended false fs).
Proof.
  intros E p val fs Ht Hc.
  destruct (no_custom_texts_inv p Hc) as [H1 [H2 H3]].
  unfold valueToString. rewrite Ht, H1, H2, H3. simpl.
  rewrite !andb_false_r. reflexivity.
Qed.

Lemma extended_is_a_pre_transform_witness :
  valueToString (Reference.env false)
    (snd (asPercentExtendableToBipolar ParamMetaData_default))
    (f_lit 1 4) (set_isExtended true FeatureState_default)
  = Ok (Some "-50.00 %").
Proof.
  rewrite (extended_is_a_pre_transform (Reference.env false)
             (snd (asPercentExtendableToBipolar ParamMetaData_default))
             (f_lit 1 4) FeatureState_default eq_refl eq_refl).
  reflexivity.
Defined.

(** On a Float descriptor without custom texts, with non-negative
    [decimalPlaces] and outside the temposynced state, [valueToString]
    returns a text exactly for the two implemented display scales, Linear
    and PowerOfTwo, and no string for the others. *)
Theorem valueToString_supported_scales :
  forall (E : Env) (p : ParamMetaData) (val : float) (fs : FeatureState),
    type p = FLOAT ->
    no_custom_texts p = true ->
    isTemposynced fs = false ->
    0 <= decimalPlaces p ->
    ((exists s, valueToString E p val fs = Ok (Some s))
     <-> (displayScale p = LINEAR \/ displayScale p = A_TWO_TO_THE_B))
    /\ (displayScale p <> LINEAR ->
        displayScale p <> A_TWO_TO_THE_B ->
        valueToString E p val fs = Ok None).
Proof.
  intros E p val fs Ht Hc Hts Hdp.
  destruct (no_custom_texts_inv p Hc) as [H1 [H2 H3]].
  assert (Hnone : displayScale p <> LINEAR ->
                  displayScale p <> A_TWO_TO_THE_B ->
                  valueToString E p val fs = Ok None).
  { intros Hl Ha. unfold valueToString.
    rewrite Ht, H1, H2, H3, Hts. simpl.
    destruct (displayScale p); (contradiction || reflexivity). }
  split; [| exact Hnone].
  split.
  - intros [s Hs].
    destruct (displayScale p) eqn:Hd; auto;
      rewrite Hnone in Hs by discriminate; discriminate Hs.
  - intros Hd.
    exact (valueToString_float_renders E p val fs Ht Hd Hts Hdp).
Qed.

Lemma valueToString_supported_scales_witness :
  exists s, valueToString (Reference.env false) percent (f_lit 1 2)
              FeatureState_default = Ok (Some s).
Proof.
  apply (valueToString_supported_scales (Reference.env false) percent
           (f_lit 1 2) FeatureState_default);
    [reflexivity | reflexivity | reflexivity | vm_compute; discriminate
     | left; reflexivity].
Defined.

(* ------------------------------------------------------------------ *)
(** ** The presets *)

(** A Float descriptor ready for display: its minimum is below its
    maximum, its default lies between them, and string conversion is
    announced. *)
Definition float_preset_ok (p : ParamMetaData) : bool :=
  Type_eqb (type p) FLOAT
  && lt (minVal p) (maxVal p)
  && le (minVal p) (defaultVal p)
  && le (defaultVal p) (maxVal p)
  && supportsStringConversion p.

(** Whatever descriptor they are called on, the presets leave it alone;
    those that set a default give a Float descriptor ready for display,
    and [asMIDINote] the Int range 0 to 127 with default 60.
    [asLfoRate] sets no default: its default is the one of the
    descriptor it is called on, clamped to the range of that
    descriptor. *)
Theorem presets_do_not_depend_on_receiver :
  forall this : ParamMetaData,
    (fst (asPercent this) = this
     /\ float_preset_ok (snd (asPercent this)) = true)
    /\ (fst (asPercentExtendableToBipolar this) = this
        /\ float_preset_ok (snd (asPercentExtendableToBipolar this)) = true
        /\ canExtend (snd (asPercentExtendableToBipolar this)) = true)
    /\ (fst (asPercentBipolar this) = this
        /\ float_preset_ok (snd (asPercentBipolar this)) = true)
    /\ (fst (asDecibelNarrow this) = this
        /\ float_preset_ok (snd (asDecibelNarrow this)) = true)
    /\ (fst (asDecibel this) = this
        /\ float_preset_ok (snd (asDecibel this)) = true)
    /\ (fst (asMIDIPitch this) = this
        /\ float_preset_ok (snd (asMIDIPitch this)) = true)
    /\ (fst (asEnvelopeTime this) = this
        /\ float_preset_ok (snd (asEnvelopeTime this)) = true
        /\ canTemposync (snd (asEnvelopeTime this)) = true)
    /\ (fst (asAudibleFrequency this) = this
        /\ float_preset_ok (snd (asAudibleFrequency this)) = true)
    /\ (fst (asMIDINote this) = this
        /\ type (snd (asMIDINote this)) = INT
        /\ minVal (snd (asMIDINote this)) = f_of_int 0
        /\ maxVal (snd (asMIDINote this)) = f_of_int 127
        /\ defaultVal (snd (asMIDINote this)) = f_of_int 60)
    /\ (fst (asLfoRate this) = this
        /\ type (snd (asLfoRate this)) = FLOAT
        /\ minVal (snd (asLfoRate this)) = f_of_int (-7)
        /\ maxVal (snd (asLfoRate this)) = f_of_int 9
        /\ defaultVal (snd (asLfoRate this))
           = clamp (defaultVal this) (minVal this) (maxVal this)).
Proof.
  intros this. repeat split.
Qed.

(* ------------------------------------------------------------------ *)
(** ** [valueFromString], PowerOfTwo: negative numbers *)

(** On a Float descriptor with the PowerOfTwo scale, a text that parses
    to a negative number is rejected before the logarithm: no value, and
    the range message, whatever [log2] would have returned. *)
Theorem power_of_two_rejects_negative :
  forall (E : Env) (p : ParamMetaData) (v errMsg : string) (r : float),
    type p = FLOAT ->
    displayScale p = A_TWO_TO_THE_B ->
    0 <= decimalPlaces p ->
    coefficients_asserted E p = true ->
    custom_text p v = false ->
    stof E v = Some r ->
    lt r (f_of_int 0) = true ->
    fails_with_range_message E p v errMsg.
Proof.
  intros E p v errMsg r Ht Hs Hdp Hco Hcu Hr Hneg.
  destruct (rangeMsg_float E p Ht (or_intror Hs) Hdp)
    as [nv [xv [Hn [Hx Hf]]]].
  exists nv, xv. split; [exact Hn | split; [exact Hx |]].
  unfold custom_text in Hcu. apply orb_false_elim in Hcu.
  destruct Hcu as [Hmin Hmax].
  unfold valueFromString. rewrite Ht, Hmin, Hmax, Hs.
  unfold coefficients_asserted in Hco. rewrite Hs in Hco.
  unfold call_stof, assert_. rewrite Hr. unfold bind at 1.
  destruct (NDEBUG E); simpl in Hco, Hneg |- *.
  - rewrite Hneg, Hf. reflexivity.
  - apply andb_prop in Hco. destruct Hco as [HA HB].
    rewrite HA, HB; simpl. rewrite Hneg, Hf. reflexivity.
Qed.

Lemma power_of_two_rejects_negative_witness :
  fails_with_range_message (Reference.env false) lfoRate "-3" "".
Proof.
  apply (power_of_two_rejects_negative (Reference.env false) lfoRate
           "-3" "" (f_of_int (-3)));
    [reflexivity | reflexivity | vm_compute; discriminate | reflexivity
     | reflexivity | reflexivity | reflexivity].
Defined.
